(** * omp-semantic-grep: the hybrid grep router of [grep.ts]

    A shallow embedding of the routing, fallback, argument-building and
    output-parsing code of [src/grep.ts], and of the contention gate that
    its [tool_call] / [tool_result] handlers implement.

    Conventions of the embedding.
    - A JavaScript string is a [string]: a sequence of code units below 256
      (the Latin-1 range).  Code units above that range are outside the
      model, so the en dash of one character class has no representative.
    - A JavaScript number that the code uses as a count is a [Z]; numbers
      of 2^53 and more, and fractions, are outside the model.
    - An optional field of the untyped [params] object is an [option];
      truthiness is written out per type.
    - [pi.exec] is the only effect of the tool body.  It is a call to the
      host, which is a parameter of the model; the calls issued are
      recorded in a trace.  The cancellation signal is handed through to the
      host and shows only in its answer ([killed]). *)

From Stdlib Require Import ZArith String Ascii List Lia Bool DecimalString.
From stdpp Require Import gmap strings list.
Import ListNotations.
Local Open Scope string_scope.
Local Open Scope list_scope.
Local Open Scope Z_scope.

#[local] Arguments String.append !_ _ / : simpl nomatch.
#[local] Arguments String.length !_ / : simpl nomatch.

(** ** JavaScript string primitives *)

Definition charCode (c : ascii) : nat := nat_of_ascii c.

Definition inRange (lo hi : nat) (c : ascii) : bool :=
  (Nat.leb lo (charCode c)) && (Nat.leb (charCode c) hi).

(** [\d] *)
Definition isDigit (c : ascii) : bool := inRange 48 57 c.

(** [\s], and the characters removed by [trim]: TAB, LF, VT, FF, CR, SP, NBSP. *)
Definition isSpace (c : ascii) : bool :=
  inRange 9 13 c || Nat.eqb (charCode c) 32 || Nat.eqb (charCode c) 160.

(** A line terminator, which [.] does not match. *)
Definition isLineTerminator (c : ascii) : bool :=
  Nat.eqb (charCode c) 10 || Nat.eqb (charCode c) 13.

Definition isDot (c : ascii) : bool := negb (isLineTerminator c).

Definition chr (n : nat) : ascii := ascii_of_nat n.

Definition LF : ascii := chr 10.
Definition ESC : ascii := chr 27.

(** [String.prototype.toLowerCase] on one code unit. *)
Definition lowerChar (c : ascii) : ascii :=
  if inRange 65 90 c then chr (charCode c + 32)
  else if inRange 192 222 c && negb (Nat.eqb (charCode c) 215) then chr (charCode c + 32)
  else c.

Fixpoint toLowerCase (s : string) : string :=
  match s with
  | EmptyString => EmptyString
  | String c r => String (lowerChar c) (toLowerCase r)
  end.

(** A string is truthy when it is not empty. *)
Definition nonEmpty (s : string) : bool :=
  match s with EmptyString => false | _ => true end.

Fixpoint startsWith (p s : string) : bool :=
  match p, s with
  | EmptyString, _ => true
  | String a p', String b s' => Ascii.eqb a b && startsWith p' s'
  | String _ _, EmptyString => false
  end.

(** [s.includes(sub)] *)
Fixpoint includes (sub s : string) : bool :=
  startsWith sub s ||
  match s with
  | EmptyString => false
  | String _ r => includes sub r
  end.

Fixpoint trimStart (s : string) : string :=
  match s with
  | EmptyString => EmptyString
  | String c r => if isSpace c then trimStart r else s
  end.

Fixpoint trimEnd (s : string) : string :=
  match s with
  | EmptyString => EmptyString
  | String c r =>
      match trimEnd r with
      | EmptyString => if isSpace c then EmptyString else String c EmptyString
      | r' => String c r'
      end
  end.

Definition trim (s : string) : string := trimEnd (trimStart s).

(** [s.split(sep)] for a one-character separator. *)
Fixpoint splitOn (sep : ascii) (s : string) : list string :=
  match s with
  | EmptyString => [EmptyString]
  | String c r =>
      if Ascii.eqb c sep then EmptyString :: splitOn sep r
      else match splitOn sep r with
           | h :: t => String c h :: t
           | [] => [String c EmptyString]
           end
  end.

Definition splitLines (s : string) : list string := splitOn LF s.

(** [lines.join("\n")] *)
Fixpoint joinLines (l : list string) : string :=
  match l with
  | [] => EmptyString
  | [x] => x
  | x :: r => x +:+ String LF (joinLines r)
  end.

(** [s.slice(start, stop)] for [0 <= start], [0 <= stop]. *)
Definition slice (start stop : nat) (s : string) : string :=
  substring start (stop - start) s.

(** The longest prefix of characters satisfying [p], and the rest. *)
Fixpoint span (p : ascii -> bool) (s : string) : string * string :=
  match s with
  | EmptyString => (EmptyString, EmptyString)
  | String c r =>
      if p c then let '(a, b) := span p r in (String c a, b)
      else (EmptyString, s)
  end.

(** [s] without the literal prefix [p], when it has it. *)
Fixpoint stripPrefix (p s : string) : option string :=
  match p, s with
  | EmptyString, _ => Some s
  | String a p', String b s' => if Ascii.eqb a b then stripPrefix p' s' else None
  | String _ _, EmptyString => None
  end.

(** [String(n)] and [`${n}`] for an integer [n]. *)
Definition showZ (z : Z) : string := NilZero.string_of_int (Z.to_int z).

(** [parseInt(digits, 10)] on a non-empty run of decimal digits whose value
    is below 2^53: there a JavaScript number holds the value exactly, and
    beyond it the number is the nearest double, which the model leaves out. *)
Fixpoint parseDigits (acc : Z) (s : string) : Z :=
  match s with
  | EmptyString => acc
  | String c r => parseDigits (10 * acc + Z.of_nat (charCode c - 48)) r
  end.

Definition parseInt (digits : string) : Z := parseDigits 0 digits.

(** ** Glob splitter *)

(** The loop of [splitGlobs]: [rest] is [input] from index [i] on, and the
    last iteration, at [i = input.length], reads [undefined]. *)
Fixpoint splitGlobs_loop (input rest : string) (i : nat) (depth : Z)
    (start : nat) (parts : list string) : list string :=
  match rest with
  | EmptyString =>
      let g := trim (slice start i input) in
      if nonEmpty g then parts ++ [g] else parts
  | String ch rest' =>
      if Ascii.eqb ch "{" then
        splitGlobs_loop input rest' (S i) (depth + 1) start parts
      else if Ascii.eqb ch "}" then
        splitGlobs_loop input rest' (S i) (depth - 1) start parts
      else if Ascii.eqb ch "," && (depth =? 0) then
        let g := trim (slice start i input) in
        splitGlobs_loop input rest' (S i) depth (S i)
          (if nonEmpty g then parts ++ [g] else parts)
      else
        splitGlobs_loop input rest' (S i) depth start parts
  end.

Definition splitGlobs (input : string) : list string :=
  splitGlobs_loop input input 0 0 0 [].

(** ** Request, engine result and response *)

(** The [params] object of the tool, one field per schema entry. *)
Record Params := {
  query : option string;
  pattern : option string;
  path : option string;
  glob : option string;
  type : option string;
  i : option bool;
  content : option bool;
  limit : option Z;
  offset : option Z;
  pre : option Z;
  post : option Z;
  context_lines : option Z;
  multiline : option bool;
  code_only : option bool;
  exclude : option string;
  exclude_dir : option string;
  files_only : option bool;
  fixed_strings : option bool;
  word_regexp : option bool
}.

(** Truthiness of an optional string, boolean and number. *)
Definition truthyS (o : option string) : bool :=
  match o with Some s => nonEmpty s | None => false end.

Definition truthyB (o : option bool) : bool :=
  match o with Some b => b | None => false end.

Definition truthyZ (o : option Z) : bool :=
  match o with Some n => negb (n =? 0) | None => false end.

(** [a || b] on optional strings. *)
Definition orElse (o : option string) (d : string) : string :=
  match o with Some s => if nonEmpty s then s else d | None => d end.

(** What [pi.exec] resolves to. *)
Record ExecResult := {
  code : Z;
  killed : bool;
  stdout : option string;
  stderr : option string
}.

Inductive Engine := rg | colgrep.

Record GrepDetails := {
  resultCount : Z;
  d_query : option string;
  d_pattern : option string;
  searchPath : option string;
  files : option (list string);
  engine : option Engine;
  fallback : option bool;
  filesSearched : option Z;
  filesMatched : option Z;
  searchComplete : option bool
}.

(** The tool result: [content] always holds one text item. *)
Record Response := {
  text : string;
  isError : bool;
  details : option GrepDetails
}.

Definition errorResponse (msg : string) : Response :=
  {| text := msg; isError := true; details := None |}.

(** [result.details.fallback = true], guarded by [if (result.details)]. *)
Definition markFallback (r : Response) : Response :=
  match details r with
  | Some d =>
      {| text := text r; isError := isError r;
         details := Some
           {| resultCount := resultCount d; d_query := d_query d;
              d_pattern := d_pattern d; searchPath := searchPath d;
              files := files d; engine := engine d; fallback := Some true;
              filesSearched := filesSearched d; filesMatched := filesMatched d;
              searchComplete := searchComplete d |} |}
  | None => r
  end.

Definition CODE_ONLY_EXCLUDES : list string :=
  ["*.md"; "*.markdown"; "*.txt"; "*.text"; "*.rst"; "*.adoc"; "*.asciidoc"; "*.org";
   "*.yml"; "*.yaml"; "*.toml"; "*.json";
   "*.sh"; "*.bash"; "*.zsh"; "*.ps1";
   "Dockerfile"; "Makefile"; "GNUmakefile"; "makefile"].

(** [params.path || ctx.cwd] *)
Definition searchPathOf (p : Params) (cwd : string) : string := orElse (path p) cwd.

(** [pushSearchPaths(args, params, ctx)] *)
Definition pushSearchPaths (args : list string) (p : Params) (cwd : string)
  : list string :=
  args ++ [searchPathOf p cwd].

(** [(params.limit && params.limit > 0) ? params.limit : 100], and the same
    shape for [offset] with default 0. *)
Definition positiveOr (o : option Z) (d : Z) : Z :=
  match o with Some n => if n >? 0 then n else d | None => d end.

(** ** Recoverability of a semantic-engine failure *)

Definition RECOVERABLE_PHRASES : list string :=
  ["rely on grep"; "index is currently being built"; "no index found";
   "no files indexed"; "enoent"; "not found"].

Definition isColgrepRecoverable (result : Response) : bool :=
  let text := toLowerCase (text result) in
  includes "rely on grep" text ||
  includes "index is currently being built" text ||
  includes "no index found" text ||
  includes "no files indexed" text ||
  includes "enoent" text ||
  includes "not found" text.

(** ** Statistics block of the lexical engine *)

(** [c?] at the head of [s]: the rest when the optional character is taken. *)
Definition optChar (c : ascii) (s : string) : string :=
  match s with
  | String d r => if Ascii.eqb d c then r else s
  | EmptyString => s
  end.

(** [(\d+) files?<word>] anchored at the head of [s]; the capture.  The
    greedy digit run never has to give a digit back, since a space must
    follow it. *)
Definition reFilesAt (word s : string) : option string :=
  let '(ds, r) := span isDigit s in
  if nonEmpty ds then
    match stripPrefix " file" r with
    | Some r1 =>
        if startsWith word (optChar "s" r1) || startsWith word r1
        then Some ds else None
    | None => None
    end
  else None.

(** Leftmost match of [(\d+) files?<word>] in [s]. *)
Fixpoint reFiles (word s : string) : option string :=
  match reFilesAt word s with
  | Some ds => Some ds
  | None =>
      match s with
      | EmptyString => None
      | String _ r => reFiles word r
      end
  end.

(** [\d+ matches?\n] anchored at the head of [s]. *)
Definition reMatchesAt (s : string) : bool :=
  let '(ds, r) := span isDigit s in
  nonEmpty ds &&
  match stripPrefix " matche" r with
  | Some r1 =>
      startsWith (String LF EmptyString) (optChar "s" r1) ||
      startsWith (String LF EmptyString) r1
  | None => false
  end.

(** [\n?\d+ matches?\n[\s\S]*$] anchored at the head of [s]. *)
Definition reStatsAt (s : string) : bool :=
  match s with
  | String c r => (Ascii.eqb c LF && reMatchesAt r) || reMatchesAt s
  | EmptyString => false
  end.

(** [stdout.replace(/\n?\d+ matches?\n[\s\S]*$/, "")]: cut at the leftmost match. *)
Fixpoint stripStats (s : string) : string :=
  if reStatsAt s then EmptyString
  else match s with
       | EmptyString => EmptyString
       | String c r => String c (stripStats r)
       end.

Record RgStats := {
  clean : string;
  st_filesSearched : Z;
  st_filesMatched : Z
}.

Definition parseAndStripRgStats (stdout : string) : RgStats :=
  let searched := reFiles " searched" stdout in
  let matched := reFiles " contained matches" stdout in
  {| clean := trim (stripStats stdout);
     st_filesSearched := match searched with Some ds => parseInt ds | None => -1 end;
     st_filesMatched := match matched with Some ds => parseInt ds | None => -1 end |}.

(** ** Lexical engine: arguments *)

(** [params.pattern?.includes("\\n") || params.pattern?.includes("\n")] *)
Definition patternHasNewline (p : Params) : bool :=
  match pattern p with
  | Some pat => includes "\n" pat || includes (String LF EmptyString) pat
  | None => false
  end.

(** [params.multiline ?? patternHasNewline] *)
Definition effectiveMultiline (p : Params) : bool :=
  match multiline p with
  | Some b => b
  | None => patternHasNewline p
  end.

Definition optArg (b : bool) (args : list string) : list string :=
  if b then args else [].

Definition numArg (flag : string) (o : option Z) : list string :=
  match o with Some n => [flag; showZ n] | None => [] end.

(** [for (const g of splitGlobs(spec)) args.push(flag, f(g))], under [if (spec)] *)
Definition globArgs (flag : string) (f : string -> string) (spec : option string)
  : list string :=
  match spec with
  | Some s => if nonEmpty s then flat_map (fun g => [flag; f g]) (splitGlobs s) else []
  | None => []
  end.

(** The [exclude_dir] loop: split on every comma, trim, skip empty entries. *)
Definition dirArgs (flag : string) (f : string -> string) (spec : option string)
  : list string :=
  match spec with
  | Some s =>
      if nonEmpty s then
        flat_map (fun dir => let trimmed := trim dir in
                             if nonEmpty trimmed then [flag; f trimmed] else [])
                 (splitOn "," s)
      else []
  | None => []
  end.

(** The arguments pushed before the multiline decision (lines 250-266). *)
Definition rgArgsHead (p : Params) : list string :=
  ["--color=never"; "--line-number"; "--heading"; "--hidden"; "--stats"]
  ++ ["--max-count"; showZ (positiveOr (limit p) 100)]
  ++ optArg (truthyB (i p)) ["-i"]
  ++ optArg (truthyB (fixed_strings p)) ["-F"]
  ++ optArg (truthyB (word_regexp p)) ["-w"]
  ++ optArg (truthyB (files_only p)) ["-l"]
  ++ match type p with
     | Some t => if nonEmpty t then ["-t"; t] else []
     | None => []
     end.

(** The arguments pushed after it (lines 273-303).  [execRipgrep] is only
    reached with a truthy pattern; an absent one would be pushed as
    [undefined], written here as the string of that name. *)
Definition rgArgsTail (p : Params) (cwd : string) : list string :=
  pushSearchPaths
    (numArg "-B" (pre p)
     ++ numArg "-A" (post p)
     ++ globArgs "-g" (fun g => g) (glob p)
     ++ globArgs "-g" (fun e => "!" +:+ e) (exclude p)
     ++ dirArgs "-g" (fun d => "!" +:+ d +:+ "/**") (exclude_dir p)
     ++ optArg (truthyB (code_only p))
          (flat_map (fun ext => ["-g"; "!" +:+ ext]) CODE_ONLY_EXCLUDES)
     ++ ["--"]
     ++ [match pattern p with Some pat => pat | None => "undefined" end])
    p cwd.

Definition rgArgs (p : Params) (cwd : string) : list string :=
  rgArgsHead p
  ++ optArg (effectiveMultiline p) ["--multiline"]
  ++ rgArgsTail p cwd.

(** ** Lexical engine: output lines *)

(** [line.match(/^\d+[:\-]/)] *)
Definition isNumberedLine (line : string) : bool :=
  let '(ds, r) := span isDigit line in
  nonEmpty ds &&
  match r with
  | String c _ => Ascii.eqb c ":" || Ascii.eqb c "-"
  | EmptyString => false
  end.

(** [line.match(/^\d+:/)]: a matched line. *)
Definition isMatchLine (line : string) : bool :=
  let '(ds, r) := span isDigit line in
  nonEmpty ds &&
  match r with
  | String c _ => Ascii.eqb c ":"
  | EmptyString => false
  end.

(** The heading test shared by the offset pass and the file list:
    [line && !line.match(/^\d+[:\-]/) && !line.startsWith(" ") && line.trim() !== "--"] *)
Definition isHeadingLine (line : string) : bool :=
  nonEmpty line && negb (isNumberedLine line) && negb (startsWith " " line)
  && negb (String.eqb (trim line) "--").

(** State of the offset loop. *)
Record OffsetState := {
  skipped : Z;
  kept : list string;
  currentFile : string
}.

Definition offsetStep (offset : Z) (st : OffsetState) (line : string) : OffsetState :=
  if isHeadingLine line then
    {| skipped := skipped st; kept := kept st; currentFile := line |}
  else if isMatchLine line then
    if skipped st <? offset then
      {| skipped := skipped st + 1; kept := kept st; currentFile := currentFile st |}
    else if nonEmpty (currentFile st) then
      {| skipped := skipped st; kept := kept st ++ [currentFile st; line];
         currentFile := EmptyString |}
    else
      {| skipped := skipped st; kept := kept st ++ [line];
         currentFile := currentFile st |}
  else
    {| skipped := skipped st; kept := kept st ++ [line];
       currentFile := currentFile st |}.

Definition offsetInit : OffsetState :=
  {| skipped := 0; kept := []; currentFile := EmptyString |}.

(** The offset pass over the lines of the cleaned output (lines 350-364). *)
Definition offsetPass (offset : Z) (lines : list string) : list string :=
  kept (fold_left (offsetStep offset) lines offsetInit).

(** [files.includes(line)] *)
Definition includesLine (files : list string) (line : string) : bool :=
  existsb (String.eqb line) files.

(** The file list of the lexical engine (lines 379-385). *)
Definition rgFiles (outputLines : list string) : list string :=
  fold_left (fun files line =>
               if isHeadingLine line && negb (includesLine files line)
               then files ++ [line] else files)
            outputLines [].

Definition countMatches (outputLines : list string) : nat :=
  length (List.filter isMatchLine outputLines).

(** ** Lexical engine: response *)

Definition noMatches (header : string) : string :=
  header +:+ String LF "No matches found".

(** The zero-result success of the lexical engine (lines 337-345, 367-375). *)
Definition rgZero (p : Params) (stats : RgStats) : Response :=
  {| text := noMatches ("[s:" +:+ showZ (st_filesSearched stats) +:+ " m:0 complete]");
     isError := false;
     details := Some
       {| resultCount := 0; d_query := None; d_pattern := pattern p;
          searchPath := None; files := None; engine := Some rg; fallback := None;
          filesSearched := Some (st_filesSearched stats); filesMatched := Some 0;
          searchComplete := Some true |} |}.

(** Lines 379-398, on the text that survived the offset pass. *)
Definition rgFinish (p : Params) (cwd : string) (stats : RgStats) (out : string)
  : Response :=
  let outputLines := splitLines out in
  let files_ := rgFiles outputLines in
  let matchCount := Z.of_nat (countMatches outputLines) in
  let header := "[s:" +:+ showZ (st_filesSearched stats) +:+ " m:"
                +:+ showZ (st_filesMatched stats) +:+ " complete]" in
  {| text := header +:+ String LF out;
     isError := false;
     details := Some
       {| resultCount := if matchCount =? 0 then Z.of_nat (length files_) else matchCount;
          d_query := None; d_pattern := pattern p;
          searchPath := Some (searchPathOf p cwd);
          files := Some files_; engine := Some rg; fallback := None;
          filesSearched := Some (st_filesSearched stats);
          filesMatched := Some (st_filesMatched stats);
          searchComplete := Some true |} |}.

(** [x?.f() || ""], before [f] is applied: an absent string counts as empty. *)
Definition textOf (o : option string) : string :=
  match o with Some s => s | None => EmptyString end.

(** [x?.trim() || d] *)
Definition trimmedOr (o : option string) (d : string) : string :=
  match o with
  | Some s => if nonEmpty (trim s) then trim s else d
  | None => d
  end.

(** Everything [execRipgrep] does with the final [result] (lines 316-398). *)
Definition rgResponse (p : Params) (cwd : string) (result : ExecResult) : Response :=
  if killed result then
    errorResponse "Error: ripgrep timed out or was aborted."
  else if code result =? 2 then
    errorResponse ("Error: " +:+ trimmedOr (stderr result) "ripgrep error")
  else
    let rawStdout := trimmedOr (stdout result) "" in
    let stats := parseAndStripRgStats rawStdout in
    let out := clean stats in
    if negb (nonEmpty out) || (code result =? 1) then rgZero p stats
    else
      let offset_ := positiveOr (offset p) 0 in
      if offset_ >? 0 then
        let out' := trim (joinLines (offsetPass offset_ (splitLines out))) in
        if negb (nonEmpty out') then rgZero p stats
        else rgFinish p cwd stats out'
      else rgFinish p cwd stats out.

(** ** The host and the calls made to it *)

Record Call := {
  cmd : string;
  argv : list string;
  timeout : Z
}.

(** The host answers a call knowing every call made so far, the last one
    being the one to answer. *)
Definition Host := list Call -> ExecResult.

(** A computation that calls the host: from the calls made so far to a
    value and the calls made after it. *)
Definition Exec (A : Type) : Type := list Call -> A * list Call.

Definition ret {A} (a : A) : Exec A := fun tr => (a, tr).

Definition bind {A B} (m : Exec A) (k : A -> Exec B) : Exec B :=
  fun tr => let '(a, tr') := m tr in k a tr'.

Notation "'call' x <- m ; k" := (bind m (fun x => k))
  (at level 10, x name, m at level 100, k at level 200).

(** [await pi.exec(cmd, args, { signal, timeout })] *)
Definition piExec (host : Host) (c : string) (args : list string) (t : Z)
  : Exec ExecResult :=
  fun tr => let tr' := tr ++ [{| cmd := c; argv := args; timeout := t |}] in
            (host tr', tr').

(** The test that guards the PCRE2 retry (lines 308-310). *)
Definition wantsPcreRetry (p : Params) (result : ExecResult) : bool :=
  (code result =? 2) && negb (truthyB (fixed_strings p)) &&
  (let stderr_ := toLowerCase (textOf (stderr result)) in
   includes "look-around" stderr_ || includes "backreference" stderr_
   || includes "pcre2" stderr_).

(** The run of the engine with its one retry (lines 305-314). *)
Definition rgRun (host : Host) (p : Params) (cwd : string) : Exec ExecResult :=
  let args := rgArgs p cwd in
  call result <- piExec host "rg" args 30000;
  if wantsPcreRetry p result
  then piExec host "rg" ("-P" :: args) 30000
  else ret result.

Definition execRipgrep (host : Host) (p : Params) (cwd : string) : Exec Response :=
  call result <- rgRun host p cwd;
  ret (rgResponse p cwd result).

(** ** Fallback policy *)

Definition withPattern (p : Params) (pat : option string) (fixed : option bool)
  : Params :=
  {| query := None; pattern := pat; path := path p; glob := glob p;
     type := type p; i := i p; content := content p; limit := limit p;
     offset := offset p; pre := pre p; post := post p;
     context_lines := context_lines p; multiline := multiline p;
     code_only := code_only p; exclude := exclude p; exclude_dir := exclude_dir p;
     files_only := files_only p; fixed_strings := fixed;
     word_regexp := word_regexp p |}.

(** [fallbackParams] of [execRipgrepFallback] (lines 232-241). *)
Definition fallbackParams (p : Params) : Params :=
  if truthyS (pattern p) then withPattern p (pattern p) (fixed_strings p)
  else withPattern p (query p) (Some true).

Definition execRipgrepFallback (host : Host) (p : Params) (cwd : string)
  : Exec Response :=
  call result <- execRipgrep host (fallbackParams p) cwd;
  ret (markFallback result).

(** ** Semantic engine *)

(** Context-line option of [execColgrep] (lines 420-425). *)
Definition colContextArgs (p : Params) : list string :=
  match context_lines p with
  | Some n => ["-n"; showZ n]
  | None =>
      match pre p, post p with
      | None, None => []
      | a, b =>
          let derived := (match a with Some n => n | None => 0 end)
                         + (match b with Some n => n | None => 0 end) + 1 in
          ["-n"; showZ derived]
      end
  end.

Definition colArgs (p : Params) (cwd : string) : list string :=
  pushSearchPaths
    (["-y"]
     ++ optArg (truthyB (content p)) ["-c"]
     ++ ["-k"; showZ (positiveOr (limit p) 100)]
     ++ globArgs "--include" (fun g => g) (glob p)
     ++ optArg (truthyB (code_only p)) ["--code-only"]
     ++ optArg (truthyB (files_only p)) ["-l"]
     ++ optArg (truthyB (fixed_strings p)) ["-F"]
     ++ optArg (truthyB (word_regexp p)) ["-w"]
     ++ colContextArgs p
     ++ globArgs "--exclude" (fun e => e) (exclude p)
     ++ dirArgs "--exclude-dir" (fun d => d) (exclude_dir p)
     ++ match pattern p with
        | Some pat => if nonEmpty pat then ["-e"; pat] else []
        | None => []
        end
     ++ ["--"]
     ++ match query p with
        | Some q => if nonEmpty q then [q] else []
        | None => []
        end)
    p cwd.

(** Length of an escape sequence [\x1B\[[0-9;]*m] at the head of [s]. *)
Definition ansiLength (s : string) : option nat :=
  match s with
  | String e (String b r) =>
      if Ascii.eqb e ESC && Ascii.eqb b "[" then
        let '(ps, r') := span (fun c => isDigit c || Ascii.eqb c ";") r in
        match r' with
        | String m _ => if Ascii.eqb m "m" then Some (3 + String.length ps)%nat else None
        | EmptyString => None
        end
      else None
  | _ => None
  end.

(** [s.replace(/\x1B\[[0-9;]*m/g, "")]; [skip] counts the characters of a
    sequence that are still to be dropped. *)
Fixpoint stripAnsiFrom (skip : nat) (s : string) : string :=
  match s with
  | EmptyString => EmptyString
  | String c r =>
      match skip with
      | S k => stripAnsiFrom k r
      | O =>
          match ansiLength s with
          | Some n => stripAnsiFrom (n - 1) r
          | None => String c (stripAnsiFrom 0 r)
          end
      end
  end.

Definition stripAnsi (s : string) : string := stripAnsiFrom 0 s.

(** [(\d+) files] in the engine's stderr: the leftmost capture. *)
Definition reFilesCountAt (s : string) : option string :=
  let '(ds, r) := span isDigit s in
  if nonEmpty ds && startsWith " files" r then Some ds else None.

Fixpoint reFilesCount (s : string) : option string :=
  match reFilesCountAt s with
  | Some ds => Some ds
  | None =>
      match s with
      | EmptyString => None
      | String _ r => reFilesCount r
      end
  end.

(** [\d+[-–]\d+] anchored at the head of [s]; the matched text.  The
    en dash is outside the alphabet of the model. *)
Definition reRangeAt (s : string) : option string :=
  let '(d1, r) := span isDigit s in
  if nonEmpty d1 then
    match r with
    | String c r' =>
        if Ascii.eqb c "-" then
          let '(d2, _) := span isDigit r' in
          if nonEmpty d2 then Some (d1 +:+ String c d2) else None
        else None
    | EmptyString => None
    end
  else None.

(** [line.match(/^(.+?):(\d+[-–]\d+)/)]: the two groups, the first taken
    as short as possible. *)
Fixpoint rePathRange (line : string) : option (string * string) :=
  match line with
  | EmptyString => None
  | String c r =>
      if isDot c then
        let longer := match rePathRange r with
                      | Some (g1, g2) => Some (String c g1, g2)
                      | None => None
                      end in
        match r with
        | String d r' =>
            if Ascii.eqb d ":" then
              match reRangeAt r' with
              | Some g2 => Some (String c EmptyString, g2)
              | None => longer
              end
            else longer
        | EmptyString => longer
        end
      else None
  end.

(** [(.+)] after the white space of [/^file:\s+(.+)/]: the white space is
    taken as long as possible, and given back one character at a time. *)
Fixpoint fileCapture (t : string) : option string :=
  match t with
  | EmptyString => None
  | String c r =>
      match (if isSpace c then fileCapture r else None) with
      | Some cap => Some cap
      | None =>
          let '(cap, _) := span isDot t in
          if nonEmpty cap then Some cap else None
      end
  end.

(** [line.match(/^file:\s+(.+)/)]: the group. *)
Definition reFileHeading (line : string) : option string :=
  match stripPrefix "file:" line with
  | Some (String c r) => if isSpace c then fileCapture r else None
  | _ => None
  end.

(** The file list of the semantic engine (lines 478-486). *)
Definition colFiles (p : Params) (outputLines : list string) : list string :=
  fold_left (fun files line =>
               if negb (nonEmpty (trim line)) then files
               else match rePathRange line with
                    | Some (g1, g2) => files ++ [g1 +:+ ":" +:+ g2]
                    | None =>
                        match reFileHeading line with
                        | Some g => files ++ [g]
                        | None =>
                            if truthyB (files_only p) && negb (startsWith " " line)
                            then files ++ [trim line] else files
                        end
                    end)
            outputLines [].

Fixpoint allDot (s : string) : bool :=
  match s with
  | EmptyString => true
  | String c r => isDot c && allDot r
  end.

(** [f.replace(/:.*$/, "")] *)
Fixpoint stripRange (f : string) : string :=
  match f with
  | EmptyString => EmptyString
  | String c r => if Ascii.eqb c ":" && allDot r then EmptyString
                  else String c (stripRange r)
  end.

(** [new Set(files.map(f => f.replace(/:.*$/, ""))).size] *)
Definition uniqueFilesSize (files : list string) : nat :=
  length (remove_dups (map stripRange files)).

(** [filesSearched > 0 ? filesSearched : "?"] inside the header *)
Definition showIndexed (filesSearched : Z) : string :=
  if filesSearched >? 0 then showZ filesSearched else "?".

Definition colZero (p : Params) (filesSearched : Z) : Response :=
  {| text := noMatches ("[ix:" +:+ showIndexed filesSearched +:+ " m:0 complete]");
     isError := false;
     details := Some
       {| resultCount := 0; d_query := query p; d_pattern := pattern p;
          searchPath := None; files := None; engine := Some colgrep;
          fallback := None; filesSearched := Some filesSearched;
          filesMatched := Some 0; searchComplete := Some true |} |}.

Definition colFinish (p : Params) (cwd : string) (filesSearched : Z) (out : string)
  : Response :=
  let outputLines := splitLines out in
  let files_ := colFiles p outputLines in
  let unique := Z.of_nat (uniqueFilesSize files_) in
  let header := "[ix:" +:+ showIndexed filesSearched +:+ " m:" +:+ showZ unique
                +:+ " complete]" in
  {| text := header +:+ String LF out;
     isError := false;
     details := Some
       {| resultCount :=
            if (length files_ =? 0)%nat
            then Z.of_nat (length (List.filter (fun l => nonEmpty (trim l)) outputLines))
            else Z.of_nat (length files_);
          d_query := query p; d_pattern := pattern p;
          searchPath := Some (searchPathOf p cwd);
          files := Some files_; engine := Some colgrep; fallback := None;
          filesSearched := Some filesSearched; filesMatched := Some unique;
          searchComplete := Some true |} |}.

(** Everything [execColgrep] does with [result] (lines 446-502). *)
Definition colResponse (p : Params) (cwd : string) (result : ExecResult) : Response :=
  if killed result then
    errorResponse
      "Error: colgrep timed out or was aborted. First-time indexing can take 30-90s."
  else if negb (code result =? 0) then
    errorResponse ("Error: " +:+ trimmedOr (stderr result) "colgrep failed")
  else
    let out := match stdout result with
               | Some s => Some (trim (stripAnsi s))
               | None => None
               end in
    let filesSearched_ :=
      match stderr result with
      | Some e => match reFilesCount e with Some ds => parseInt ds | None => -1 end
      | None => -1
      end in
    match out with
    | Some o =>
        if negb (nonEmpty o) || startsWith "No results found" o
        then colZero p filesSearched_
        else colFinish p cwd filesSearched_ o
    | None => colZero p filesSearched_
    end.

Definition execColgrep (host : Host) (p : Params) (cwd : string) : Exec Response :=
  call result <- piExec host "colgrep" (colArgs p cwd) 120000;
  ret (colResponse p cwd result).

(** ** Router *)

Definition execute (host : Host) (p : Params) (cwd : string) : Exec Response :=
  if negb (truthyS (query p)) && negb (truthyS (pattern p)) then
    ret (errorResponse "Error: at least one of `query` or `pattern` must be provided.")
  else if truthyS (query p) then
    call result <- execColgrep host p cwd;
    if isError result && isColgrepRecoverable result
    then execRipgrepFallback host p cwd
    else ret result
  else execRipgrep host p cwd.

(** ** Contention gate

    The [MUTEX] closure and the two event handlers, as a transition system.
    JavaScript runs one handler at a time, so a transition is one
    uninterrupted piece of a handler: the part of the [tool_call] handler up
    to its [await], the part after it, a timer callback, and the
    [tool_result] handler.  A lock is one call of [MUTEX.acquire]; its
    number stands for the promise [next] it creates and for the [release]
    function that resolves that promise. *)

Module Gate.

(** The fields of a [tool_call] event that the handler reads.
    [input_query] is present when [typeof event.input?.query === "string"]. *)
Record ToolEvent := {
  toolName : string;
  input_action : option string;
  input_query : option string;
  toolCallId : string
}.

Definition isLspRefs (ev : ToolEvent) : bool :=
  String.eqb (toolName ev) "lsp" &&
  match input_action ev with Some a => String.eqb a "references" | None => false end.

Definition isHeavyGrep (ev : ToolEvent) : bool :=
  String.eqb (toolName ev) "grep" &&
  match input_query ev with Some _ => true | None => false end.

(** The handler returns early unless the call is gated. *)
Definition isGated (ev : ToolEvent) : bool := isLspRefs ev || isHeavyGrep ev.

(** Who invoked a release function. *)
Inductive Cause := ByResult | ByTimer.

Definition AUTO_RELEASE_MS : Z := 120000.

Record State := {
  now : Z;                          (* the clock, in milliseconds *)
  acquired : nat;                   (* calls of [MUTEX.acquire] so far *)
  waiting : gmap nat string;        (* handlers suspended in [await prev]: lock, call id *)
  resolved : gset nat;              (* locks whose promise [next] is resolved *)
  releases : gmap string nat;       (* the map [releases] *)
  timers : gmap string nat;         (* the map [timers]: call id to timer handle *)
  armed : gmap nat (string * Z);    (* pending timeouts: call id of the closure, deadline *)
  nextTimer : nat;                  (* the next fresh timer handle *)
  grantLog : list (nat * string * Z);   (* history: lock, call id and time of each grant *)
  releaseLog : list (nat * Cause)       (* history: every invocation of a release function *)
}.

Definition init : State :=
  {| now := 0; acquired := 0; waiting := ∅; resolved := ∅; releases := ∅;
     timers := ∅; armed := ∅; nextTimer := 0; grantLog := []; releaseLog := [] |}.

Inductive Event :=
| ToolCall (ev : ToolEvent)     (* the [tool_call] handler, up to [await MUTEX.acquire()] *)
| Resume (lock : nat)           (* the rest of that handler, once [prev] is resolved *)
| TimerFires (handle : nat)     (* the callback given to [setTimeout] *)
| ToolResult (id : string)      (* the [tool_result] handler *)
| Tick (dt : Z).                (* time passes *)

(** [r()]: resolve the promise of the lock. *)
Definition invoke (lock : nat) (why : Cause) (s : State) : State :=
  {| now := now s; acquired := acquired s; waiting := waiting s;
     resolved := {[lock]} ∪ resolved s; releases := releases s;
     timers := timers s; armed := armed s; nextTimer := nextTimer s;
     grantLog := grantLog s; releaseLog := releaseLog s ++ [(lock, why)] |}.

(** [const r = releases.get(id); if (r) { releases.delete(id); r(); }] *)
Definition releaseTicket (id : string) (why : Cause) (s : State) : State :=
  match releases s !! id with
  | Some lock =>
      invoke lock why
        {| now := now s; acquired := acquired s; waiting := waiting s;
           resolved := resolved s; releases := delete id (releases s);
           timers := timers s; armed := armed s; nextTimer := nextTimer s;
           grantLog := grantLog s; releaseLog := releaseLog s |}
  | None => s
  end.

(** [prev] of lock [n] is resolved when every earlier lock is released. *)
Definition prevResolved (n : nat) (s : State) : bool :=
  forallb (fun j => bool_decide (j ∈ resolved s)) (seq 0 n).

(** One transition; [None] when the event cannot happen in the state. *)
Definition step (e : Event) (s : State) : option State :=
  match e with
  | ToolCall ev =>
      if isGated ev then
        Some {| now := now s; acquired := S (acquired s);
                waiting := <[acquired s := toolCallId ev]> (waiting s);
                resolved := resolved s; releases := releases s;
                timers := timers s; armed := armed s; nextTimer := nextTimer s;
                grantLog := grantLog s; releaseLog := releaseLog s |}
      else Some s
  | Resume n =>
      match waiting s !! n with
      | Some id =>
          if prevResolved n s then
            Some {| now := now s; acquired := acquired s;
                    waiting := delete n (waiting s);
                    resolved := resolved s;
                    releases := <[id := n]> (releases s);
                    timers := <[id := nextTimer s]> (timers s);
                    armed := <[nextTimer s := (id, now s + AUTO_RELEASE_MS)]> (armed s);
                    nextTimer := S (nextTimer s);
                    grantLog := grantLog s ++ [(n, id, now s)];
                    releaseLog := releaseLog s |}
          else None
      | None => None
      end
  | TimerFires h =>
      match armed s !! h with
      | Some (id, deadline) =>
          if deadline <=? now s then
            Some (releaseTicket id ByTimer
                    {| now := now s; acquired := acquired s; waiting := waiting s;
                       resolved := resolved s; releases := releases s;
                       timers := timers s; armed := delete h (armed s);
                       nextTimer := nextTimer s;
                       grantLog := grantLog s; releaseLog := releaseLog s |})
          else None
      | None => None
      end
  | ToolResult id =>
      let s1 :=
        match timers s !! id with
        | Some h =>
            {| now := now s; acquired := acquired s; waiting := waiting s;
               resolved := resolved s; releases := releases s;
               timers := delete id (timers s); armed := delete h (armed s);
               nextTimer := nextTimer s;
               grantLog := grantLog s; releaseLog := releaseLog s |}
        | None => s
        end in
      Some (releaseTicket id ByResult s1)
  | Tick dt =>
      if 0 <=? dt then
        Some {| now := now s + dt; acquired := acquired s; waiting := waiting s;
                resolved := resolved s; releases := releases s;
                timers := timers s; armed := armed s; nextTimer := nextTimer s;
                grantLog := grantLog s; releaseLog := releaseLog s |}
      else None
  end.

Fixpoint run (s : State) (tr : list Event) : option State :=
  match tr with
  | [] => Some s
  | e :: tr' =>
      match step e s with
      | Some s' => run s' tr'
      | None => None
      end
  end.

(** The call ids of the gated [tool_call] events of a trace. *)
Fixpoint callIds (tr : list Event) : list string :=
  match tr with
  | [] => []
  | ToolCall ev :: tr' =>
      if isGated ev then toolCallId ev :: callIds tr' else callIds tr'
  | _ :: tr' => callIds tr'
  end.

(** How often the release function of a lock was invoked. *)
Definition releaseCount (lock : nat) (s : State) : nat :=
  length (List.filter (fun r => Nat.eqb (fst r) lock) (releaseLog s)).

End Gate.

(** ** Rendering of a call *)

(** The two functions of the [theme] object that [renderCall] uses. *)
Record Theme := {
  fg : string -> string -> string;
  bold : string -> string
}.

(** [parts.join(sep)] *)
Fixpoint joinWith (sep : string) (l : list string) : string :=
  match l with
  | [] => EmptyString
  | [x] => x
  | x :: r => x +:+ sep +:+ joinWith sep r
  end.

(** [if (args.f) parts.push(theme.fg("muted", `<prefix>${args.f}`))] for a
    string field, and with a fixed word for a boolean field. *)
Definition strPart (theme : Theme) (prefix : string) (o : option string)
  : list string :=
  match o with
  | Some s => if nonEmpty s then [fg theme "muted" (prefix +:+ s)] else []
  | None => []
  end.

Definition flagPart (theme : Theme) (word : string) (o : option bool) : list string :=
  optArg (truthyB o) [fg theme "muted" word].

(** The middle dot, U+00B7, of the label of a semantic call. *)
Definition MIDDLE_DOT : ascii := chr 183.

(** [args.query ? "colgrep" : "rg"] *)
Definition callEngine (args : Params) : Engine :=
  if truthyS (query args) then colgrep else rg.

(** [engine === "rg" ? "Grep" : "Grep·sem"] *)
Definition callLabel (args : Params) : string :=
  match callEngine args with
  | rg => "Grep"
  | colgrep => "Grep" +:+ String MIDDLE_DOT "sem"
  end.

(** The line that [renderCall] gives to [Text] (lines 147-167). *)
Definition renderCall (args : Params) (theme : Theme) : string :=
  let parts :=
    match query args with
    | Some q => if nonEmpty q then [fg theme "accent" q] else []
    | None => []
    end
    ++ strPart theme "-e " (pattern args)
    ++ strPart theme "in " (path args)
    ++ strPart theme "glob:" (glob args)
    ++ strPart theme "type:" (type args)
    ++ flagPart theme "+content" (content args)
    ++ flagPart theme "code-only" (code_only args)
    ++ flagPart theme "files-only" (files_only args)
    ++ flagPart theme "case:i" (i args)
    ++ strPart theme "exclude:" (exclude args)
    ++ strPart theme "excl-dir:" (exclude_dir args)
    ++ match context_lines args with
       | Some n => [fg theme "muted" ("n:" +:+ showZ n)]
       | None => []
       end in
  let desc := joinWith " " parts in
  fg theme "accent" (bold theme (callLabel args)) +:+ " " +:+ desc.

(** ** Rendering of a result

    The renderer writes three glyphs that lie outside the alphabet of the
    model: the ballot cross U+2717, the check mark U+2714 and the ellipsis
    U+2026.  It is modelled for any three strings in their place. *)

Section Glyphs.

Variables (CROSS CHECK ELLIPSIS : string).

(** [details.engine] as the string it is. *)
Definition engineName (e : Engine) : string :=
  match e with rg => "rg" | colgrep => "colgrep" end.

(** The array [meta] (lines 182-186). *)
Definition resultMeta (count : Z) (details : option GrepDetails) : list string :=
  [showZ count +:+ " result" +:+ (if count =? 1 then "" else "s")]
  ++ match details with
     | Some d =>
         match searchPath d with
         | Some sp => if nonEmpty sp then ["in " +:+ sp] else []
         | None => []
         end
         ++ match engine d with Some e => [engineName e] | None => [] end
         ++ optArg (truthyB (fallback d)) ["fallback"]
         ++ match filesSearched d with
            | Some n => if 0 <=? n then [showZ n +:+ " searched"] else []
            | None => []
            end
     | None => []
     end.

(** The text that [renderResult] gives to [Text] (lines 169-201);
    [expanded] is [options.expanded]. *)
Definition renderResult (result : Response) (expanded : bool) (theme : Theme)
  : string :=
  let details_ := details result in
  if isError result then
    let errorText := if nonEmpty (text result) then text result else "Error" in
    fg theme "error" (CROSS +:+ " " +:+ errorText)
  else
    let count := match details_ with Some d => resultCount d | None => 0 end in
    if count =? 0 then fg theme "warning" "No matches found"
    else
      let meta := resultMeta count details_ in
      let header := fg theme "success" CHECK +:+ " "
                    +:+ fg theme "accent" (bold theme "Grep") +:+ " "
                    +:+ fg theme "muted" (joinWith (" " +:+ String MIDDLE_DOT " ") meta) in
      if negb expanded then
        let preview :=
          map (fun f => "  " +:+ fg theme "muted" f)
              (firstn 5 (match details_ with
                         | Some d => match files d with Some fs => fs | None => [] end
                         | None => []
                         end)) in
        let preview' :=
          if count >? 5
          then preview ++ [fg theme "dim" ("  " +:+ ELLIPSIS +:+ " and "
                                           +:+ showZ (count - 5) +:+ " more")]
          else preview in
        joinLines (header :: preview')
      else
        joinLines [header; ""; text result].

End Glyphs.

(** * Vocabulary of the specification *)

(** [phrase] occurs in [msg] when letter case is ignored. *)
Definition mentions (phrase msg : string) : Prop :=
  exists a m b, msg = a +:+ m +:+ b /\ toLowerCase m = phrase.

(** What a failure message can tell about the semantic engine. *)
Inductive Recoverable :=
| AdvisesLexical     (* the engine advises falling back to lexical search *)
| IndexBuilding      (* the index is currently being built *)
| NoIndex            (* no index exists, or no files are indexed *)
| BinaryMissing.     (* the engine binary is missing *)

Definition indicates (why : Recoverable) (msg : string) : Prop :=
  match why with
  | AdvisesLexical => mentions "rely on grep" msg
  | IndexBuilding => mentions "index is currently being built" msg
  | NoIndex => mentions "no index found" msg \/ mentions "no files indexed" msg
  | BinaryMissing => mentions "enoent" msg \/ mentions "not found" msg
  end.

(** The counter [depth] of the splitter's loop after it has read [s] from
    [depth]: an opening brace raises it and a closing brace lowers it, also
    below 0. *)
Fixpoint depthAfter (depth : Z) (s : string) : Z :=
  match s with
  | EmptyString => depth
  | String c r =>
      depthAfter (if Ascii.eqb c "{" then depth + 1
                  else if Ascii.eqb c "}" then depth - 1 else depth) r
  end.


(** Text in which every brace is matched: characters other than braces,
    and brace groups. *)
Inductive balanced : string -> Prop :=
| balanced_nil : balanced ""
| balanced_char (c : ascii) (s : string) :
    c <> "{"%char -> c <> "}"%char -> balanced s -> balanced (String c s)
| balanced_group (a s : string) :
    balanced a -> balanced s -> balanced ("{" +:+ a +:+ "}" +:+ s).

(** A brace group: an opening brace, text in which every brace is matched,
    and the closing brace. *)
Definition braceGroup (g : string) : Prop :=
  exists a, balanced a /\ g = "{" +:+ a +:+ "}".


(** A glob atom: the trimmed piece, dropped when empty. *)
Definition atom (piece : string) : list string :=
  if nonEmpty (trim piece) then [trim piece] else [].

(** The loop of [splitGlobs] with the current piece carried along in place
    of its bounds; used to reason about the loop. *)
Fixpoint splitPieces (rest : string) (depth : Z) (piece : string) : list string :=
  match rest with
  | EmptyString => atom piece
  | String ch rest' =>
      if Ascii.eqb ch "{" then splitPieces rest' (depth + 1) (piece +:+ String ch "")
      else if Ascii.eqb ch "}" then splitPieces rest' (depth - 1) (piece +:+ String ch "")
      else if Ascii.eqb ch "," && (depth =? 0) then atom piece ++ splitPieces rest' depth ""
      else splitPieces rest' depth (piece +:+ String ch "")
  end.

(** A request with no field set. *)
Definition noParams : Params :=
  {| query := None; pattern := None; path := None; glob := None; type := None;
     i := None; content := None; limit := None; offset := None; pre := None;
     post := None; context_lines := None; multiline := None; code_only := None;
     exclude := None; exclude_dir := None; files_only := None;
     fixed_strings := None; word_regexp := None |}.

(** The request [p] with its [multiline] field replaced. *)
Definition setMultiline (m : option bool) (p : Params) : Params :=
  {| query := query p; pattern := pattern p; path := path p; glob := glob p;
     type := type p; i := i p; content := content p; limit := limit p;
     offset := offset p; pre := pre p; post := post p;
     context_lines := context_lines p; multiline := m;
     code_only := code_only p; exclude := exclude p; exclude_dir := exclude_dir p;
     files_only := files_only p; fixed_strings := fixed_strings p;
     word_regexp := word_regexp p |}.

(** The request [p] with its [offset] field replaced. *)
Definition setOffset (k : option Z) (p : Params) : Params :=
  {| query := query p; pattern := pattern p; path := path p; glob := glob p;
     type := type p; i := i p; content := content p; limit := limit p;
     offset := k; pre := pre p; post := post p;
     context_lines := context_lines p; multiline := multiline p;
     code_only := code_only p; exclude := exclude p; exclude_dir := exclude_dir p;
     files_only := files_only p; fixed_strings := fixed_strings p;
     word_regexp := word_regexp p |}.

(** The request [p] with its [query] field replaced. *)
Definition setQuery (q : option string) (p : Params) : Params :=
  {| query := q; pattern := pattern p; path := path p; glob := glob p;
     type := type p; i := i p; content := content p; limit := limit p;
     offset := offset p; pre := pre p; post := post p;
     context_lines := context_lines p; multiline := multiline p;
     code_only := code_only p; exclude := exclude p; exclude_dir := exclude_dir p;
     files_only := files_only p; fixed_strings := fixed_strings p;
     word_regexp := word_regexp p |}.

(** A host that gives the same answer to every call. *)
Definition constHost (r : ExecResult) : Host := fun _ => r.

(** A host that answers the calls in order from a script, and with [r]
    once the script is used up. *)
Definition scriptHost (script : list ExecResult) (r : ExecResult) : Host :=
  fun tr => nth (length tr - 1) script r.

(** An engine exit with the given status and streams. *)
Definition exited (status : Z) (out err : string) : ExecResult :=
  {| code := status; killed := false; stdout := Some out; stderr := Some err |}.

(** When multiline mode is requested: by the explicit flag when it is
    given, and else by an escaped or a literal newline in the pattern. *)
Definition multilineRequested (p : Params) : bool :=
  match multiline p with
  | Some flag => flag
  | None =>
      match pattern p with
      | Some pat => includes "\n" pat || includes (String LF "") pat
      | None => false
      end
  end.

(** The header line of a response. *)
Definition headerLine (tag n m : string) : string :=
  "[" +:+ tag +:+ ":" +:+ n +:+ " m:" +:+ m +:+ " complete]".

(** Position of the first occurrence of [x] in [l], [length l] when absent. *)
Fixpoint firstIndex (x : string) (l : list string) : nat :=
  match l with
  | [] => 0
  | y :: r => if String.eqb x y then 0 else S (firstIndex x r)
  end.

(** A request with only a query, and with only a pattern. *)
Definition queryOnly (q : string) : Params := setQuery (Some q) noParams.

Definition patternOnly (pat : string) : Params := withPattern noParams (Some pat) None.

(** A run that the host killed. *)
Definition killedRun : ExecResult :=
  {| code := 0; killed := true; stdout := None; stderr := None |}.

(** The call that starts the lexical engine, and the call of its retry. *)
Definition rgCall (p : Params) (cwd : string) : Call :=
  {| cmd := "rg"; argv := rgArgs p cwd; timeout := 30000 |}.

Definition rgRetryCall (p : Params) (cwd : string) : Call :=
  {| cmd := "rg"; argv := "-P" :: rgArgs p cwd; timeout := 30000 |}.

Definition colCall (p : Params) (cwd : string) : Call :=
  {| cmd := "colgrep"; argv := colArgs p cwd; timeout := 120000 |}.

(** The scenario of the specification: the semantic engine reports that it
    has no index, and the lexical engine then finds one line. *)
Definition noIndexHost : Host :=
  scriptHost [exited 1 "" "Error: No index found"]
             (exited 0 (joinLines ["a.ts"; "1:parse configuration files"]) "").

(** A lexical engine that rejects the pattern with a message naming PCRE
    but none of the phrases the code looks for. *)
Definition pcreMessageHost : Host :=
  constHost (exited 2 "" "error: PCRE support is not available").

(** A lexical engine that rejects a backreference, twice. *)
Definition backreferenceHost : Host :=
  constHost (exited 2 "" "regex parse error: backreferences are not supported").

(** The bodies a successful lexical run can put under the header: the
    no-match notice, the cleaned output, or what the offset pass leaves of it. *)
Definition rgBody (p : Params) (result : ExecResult) (body : string) : Prop :=
  let out := clean (parseAndStripRgStats (trimmedOr (stdout result) "")) in
  body = "No matches found"
  \/ (nonEmpty body = true
      /\ (body = out
          \/ body = trim (joinLines (offsetPass (positiveOr (offset p) 0) (splitLines out))))).

(** The bodies of a successful semantic run: the no-match notice or the
    output without colour codes and surrounding white space. *)
Definition colBody (result : ExecResult) (body : string) : Prop :=
  body = "No matches found"
  \/ (nonEmpty body = true /\ body = trim (stripAnsi (textOf (stdout result)))).

(** Output of the lexical engine: two files, three matched lines, and the
    statistics block. *)
Definition sampleRgOutput : string :=
  joinLines ["a.ts"; "1:foo"; "2:foo"; ""; "b.ts"; "3:foo"; "";
             "3 matches"; "3 matched lines"; "2 files contained matches";
             "5 files searched"].

(** The same for one file. *)
Definition sampleRgOneFile : string :=
  joinLines ["a.ts"; "1:foo"; "2:foo"; "";
             "2 matches"; "2 matched lines"; "1 files contained matches";
             "5 files searched"].

(** Output of the semantic engine with two units of one file, each under
    a heading that names the file. *)
Definition sampleColOutput : string :=
  joinLines ["file: src/a.ts"; "  fn parse()"; "file: src/a.ts"; "  fn render()"].

(** The entry, if any, that one output line of the semantic engine adds to
    the file list. *)
Definition colEntry (p : Params) (line : string) : list string :=
  if negb (nonEmpty (trim line)) then []
  else match rePathRange line with
       | Some (g1, g2) => [g1 +:+ ":" +:+ g2]
       | None =>
           match reFileHeading line with
           | Some g => [g]
           | None => if truthyB (files_only p) && negb (startsWith " " line)
                     then [trim line] else []
           end
       end.

(** The heading in force after [lines], starting from [heading]: the last
    heading line, if there is one. *)
Fixpoint lastHeading (heading : string) (lines : list string) : string :=
  match lines with
  | [] => heading
  | l :: r => lastHeading (if isHeadingLine l then l else heading) r
  end.

(** The matched lines of an output, each with the heading it stands under:
    the last heading line before it, and [heading] when there is none. *)
Fixpoint matchesUnder (heading : string) (lines : list string)
  : list (string * string) :=
  match lines with
  | [] => []
  | l :: r =>
      if isHeadingLine l then matchesUnder l r
      else if isMatchLine l then (heading, l) :: matchesUnder heading r
      else matchesUnder heading r
  end.



(** The cleaned output of a lexical run, split into lines. *)
Definition cleanedLines (result : ExecResult) : list string :=
  splitLines (clean (parseAndStripRgStats (trimmedOr (stdout result) ""))).


(** Every heading line of [kept] is directly followed by a matched line. *)
Definition headingsFollowed (kept : list string) : Prop :=
  forall n h, nth_error kept n = Some h -> isHeadingLine h = true ->
              exists m, nth_error kept (S n) = Some m /\ isMatchLine m = true.

(** The state of the offset loop after [lines]. *)
Definition offsetRun (offset : Z) (lines : list string) : OffsetState :=
  fold_left (offsetStep offset) lines offsetInit.

Fixpoint allSpace (s : string) : bool :=
  match s with
  | EmptyString => true
  | String c r => isSpace c && allSpace r
  end.

(** The call ids and the locks of the grants made so far, and the locks
    whose release function was invoked. *)
Definition grantIds (s : Gate.State) : list string :=
  map (fun g => snd (fst g)) (Gate.grantLog s).

Definition grantLocks (s : Gate.State) : list nat :=
  map (fun g => fst (fst g)) (Gate.grantLog s).

Definition logLocks (s : Gate.State) : list nat := map fst (Gate.releaseLog s).

(** The ticket of call [id] is present: it holds [lock], granted at time
    [t], nothing has released it, and its timer is armed for [t] plus two
    minutes. *)
Definition ticketHeld (s : Gate.State) (lock : nat) (id : string) (t : Z) : Prop :=
  Gate.releases s !! id = Some lock
  /\ Gate.releaseCount lock s = 0%nat
  /\ exists h, Gate.timers s !! id = Some h
               /\ Gate.armed s !! h = Some (id, t + Gate.AUTO_RELEASE_MS).

(** The ticket of call [id] is absent and its lock was released once. *)
Definition ticketReleased (s : Gate.State) (lock : nat) (id : string) : Prop :=
  Gate.releases s !! id = None /\ Gate.releaseCount lock s = 1%nat.

(** What holds of every reachable state of the gate when the call ids in
    [seen] are the ones used so far. *)
Record GateInv (seen : list string) (s : Gate.State) : Prop := {
  inv_waiting :
    forall n id, Gate.waiting s !! n = Some id ->
      (n < Gate.acquired s)%nat /\ In id seen
      /\ ~ In id (grantIds s) /\ ~ In n (grantLocks s);
  inv_waiting_inj :
    forall n1 n2 id, Gate.waiting s !! n1 = Some id ->
      Gate.waiting s !! n2 = Some id -> n1 = n2;
  inv_grant_ids : NoDup (grantIds s);
  inv_grant_locks : NoDup (grantLocks s);
  inv_grant_seen :
    forall n id t, In (n, id, t) (Gate.grantLog s) ->
      (n < Gate.acquired s)%nat /\ In id seen;
  inv_releases :
    forall id n, Gate.releases s !! id = Some n ->
      exists t, In (n, id, t) (Gate.grantLog s);
  inv_tickets :
    forall n id t, In (n, id, t) (Gate.grantLog s) ->
      ticketHeld s n id t \/ ticketReleased s n id;
  inv_timers_inj :
    forall id1 id2 h, Gate.timers s !! id1 = Some h ->
      Gate.timers s !! id2 = Some h -> id1 = id2;
  inv_timers_lt :
    forall id h, Gate.timers s !! id = Some h -> (h < Gate.nextTimer s)%nat;
  inv_armed_lt :
    forall h x, Gate.armed s !! h = Some x -> (h < Gate.nextTimer s)%nat;
  inv_log : forall n, In n (logLocks s) -> In n (grantLocks s);
  inv_seen :
    forall id, In id seen ->
      (exists n, Gate.waiting s !! n = Some id) \/ In id (grantIds s)
}.

(** A gated [tool_call] event for call [id]. *)
Definition semanticCall (id : string) : Gate.ToolEvent :=
  {| Gate.toolName := "grep"; Gate.input_action := None;
     Gate.input_query := Some "parse configuration files"; Gate.toolCallId := id |}.

(** Output of the lexical engine with ten matched lines in three files. *)
Definition sampleRgTen : string :=
  joinLines ["a.ts"; "1:foo"; "2:foo"; "3:foo"; "4:foo"; "";
             "b.ts"; "10:foo"; "11:foo"; "12:foo"; "";
             "c.ts"; "20:foo"; "21:foo"; "22:foo"; "";
             "10 matches"; "10 matched lines"; "3 files contained matches";
             "8 files searched"].

(** No brace in [s]. *)
Fixpoint braceFree (s : string) : bool :=
  match s with
  | EmptyString => true
  | String c r => negb (Ascii.eqb c "{") && negb (Ascii.eqb c "}") && braceFree r
  end.

(** [piece] put in front of the first string of [l]. *)
Definition consHead (piece : string) (l : list string) : list string :=
  match l with
  | h :: t => (piece +:+ h) :: t
  | [] => [piece]
  end.


(** The value of one decimal digit, and of a run of digits in positional
    notation. *)
Definition digitValue (c : ascii) : Z := Z.of_nat (charCode c - 48).

Fixpoint decimalValue (ds : string) : Z :=
  match ds with
  | EmptyString => 0
  | String c r => digitValue c * 10 ^ Z.of_nat (String.length r) + decimalValue r
  end.

(** Every character of [s] satisfies [p]. *)
Fixpoint allChars (p : ascii -> bool) (s : string) : bool :=
  match s with
  | EmptyString => true
  | String c r => p c && allChars p r
  end.

(** A non-empty run of decimal digits. *)
Definition isNumber (ds : string) : Prop :=
  nonEmpty ds = true /\ allChars isDigit ds = true.

(** The output holds the statistics text [<ds> file<word>] or
    [<ds> files<word>]. *)
Definition reports (word ds out : string) : Prop :=
  isNumber ds
  /\ exists a s b, (s = "" \/ s = "s") /\ out = a +:+ ds +:+ " file" +:+ s +:+ word +:+ b.

(** The head of a statistics block: an optional line feed, a number, the
    word [matche] or [matches], and a line feed; then anything. *)
Definition statsBlock (rest : string) : Prop :=
  exists nl ds s tail,
    (nl = "" \/ nl = String LF "") /\ isNumber ds /\ (s = "" \/ s = "s")
    /\ rest = nl +:+ ds +:+ " matche" +:+ s +:+ String LF tail.

(** A colour sequence with the parameters [ps]. *)
Definition sgr (ps : string) : string := String ESC ("[" +:+ ps +:+ "m").

Definition isSgrParam (c : ascii) : bool := isDigit c || Ascii.eqb c ";".

Definition escFree (s : string) : bool := allChars (fun c => negb (Ascii.eqb c ESC)) s.

(** Text in colour: each chunk after a colour sequence; and the chunks alone. *)
Fixpoint paint (l : list (string * string)) : string :=
  match l with
  | [] => ""
  | (ps, chunk) :: r => sgr ps +:+ chunk +:+ paint r
  end.

Fixpoint unpainted (l : list (string * string)) : string :=
  match l with
  | [] => ""
  | (_, chunk) :: r => chunk +:+ unpainted r
  end.

(** The engine result [r] with its standard output replaced. *)
Definition withStdout (out : option string) (r : ExecResult) : ExecResult :=
  {| code := code r; killed := killed r; stdout := out; stderr := stderr r |}.

(** The number of grants so far. *)
Definition granted (s : Gate.State) : nat := length (Gate.grantLog s).

(** The order kept by the gate, when [seen] are the call ids of the gated
    calls so far, in the order of their arrival. *)
Record GateOrder (seen : list string) (s : Gate.State) : Prop := {
  ord_acquired : Gate.acquired s = length seen;
  ord_granted_le : (granted s <= Gate.acquired s)%nat;
  ord_locks : grantLocks s = seq 0 (granted s);
  ord_ids : grantIds s = take (granted s) seen;
  ord_waiting :
    forall n, (granted s <= n < Gate.acquired s)%nat <-> is_Some (Gate.waiting s !! n);
  ord_waiting_id :
    forall n id, Gate.waiting s !! n = Some id -> seen !! n = Some id;
  ord_resolved : forall n, n ∈ Gate.resolved s -> (n < granted s)%nat;
  ord_held :
    forall id m, Gate.releases s !! id = Some m ->
      S m = granted s /\ m ∉ Gate.resolved s;
  ord_single :
    forall id1 id2 m1 m2, Gate.releases s !! id1 = Some m1 ->
      Gate.releases s !! id2 = Some m2 -> id1 = id2;
  ord_granted :
    forall n, (n < granted s)%nat ->
      n ∈ Gate.resolved s \/ exists id, Gate.releases s !! id = Some n
}.

(** The [tool_call] event of a call of this tool with the request [p]. *)
Definition grepEvent (id : string) (p : Params) : Gate.ToolEvent :=
  {| Gate.toolName := "grep"; Gate.input_action := None;
     Gate.input_query := query p; Gate.toolCallId := id |}.

(** What the gate keeps of its timers: a held ticket has a timer armed for
    its call, due at most two minutes from now; and the timer registered
    for a call id, while armed, is armed for that id. *)
Record GateWatch (s : Gate.State) : Prop := {
  watch_ticket :
    forall id m, Gate.releases s !! id = Some m ->
      exists h d, Gate.timers s !! id = Some h /\ Gate.armed s !! h = Some (id, d)
                  /\ d <= Gate.now s + Gate.AUTO_RELEASE_MS;
  watch_timer :
    forall id h id' d, Gate.timers s !! id = Some h ->
      Gate.armed s !! h = Some (id', d) -> id' = id;
  watch_timers_lt :
    forall id h, Gate.timers s !! id = Some h -> (h < Gate.nextTimer s)%nat;
  watch_armed_lt :
    forall h x, Gate.armed s !! h = Some x -> (h < Gate.nextTimer s)%nat
}.

(** A unit line of the semantic engine, [<path>:<from>-<to><tail>], and
    the entry [<path>:<from>-<to>] that stands for it in the file list. *)
Record UnitLine := {
  u_path : string;
  u_from : string;
  u_to : string;
  u_tail : string
}.

Definition unitRange (u : UnitLine) : string := u_from u +:+ "-" +:+ u_to u.

Definition unitText (u : UnitLine) : string :=
  u_path u +:+ ":" +:+ unitRange u +:+ u_tail u.

Definition unitEntry (u : UnitLine) : string := u_path u +:+ ":" +:+ unitRange u.

(** The path is not empty and has neither a colon nor a line terminator,
    the bounds are numbers, and the tail does not go on with a digit. *)
Definition isPathChar (c : ascii) : bool := isDot c && negb (Ascii.eqb c ":").

Definition wellFormedUnit (u : UnitLine) : Prop :=
  nonEmpty (u_path u) = true
  /\ allChars isPathChar (u_path u) = true
  /\ isNumber (u_from u) /\ isNumber (u_to u)
  /\ match u_tail u with String c _ => isDigit c = false | EmptyString => True end.

(** A line that is empty or does not begin with white space. *)
Definition tidyLine (l : string) : bool :=
  match l with
  | EmptyString => true
  | String c _ => negb (isSpace c)
  end.

(** No line feed in [l]. *)
Definition lfFree (l : string) : bool := allChars (fun c => negb (Ascii.eqb c LF)) l.

(** [lines] without the empty lines at its head. *)
Fixpoint dropEmptyLines (lines : list string) : list string :=
  match lines with
  | EmptyString :: r => dropEmptyLines r
  | _ => lines
  end.

(** Whether the digits at the head of [s], if any, are followed by a colon. *)
Definition colonAfterDigits (s : string) : bool :=
  match snd (span isDigit s) with
  | String c _ => Ascii.eqb c ":"
  | EmptyString => false
  end.

(** * Properties *)

(** ** Strings *)

Lemma append_nil_r (s : string) : s +:+ "" = s.
Proof. induction s as [|c s IH]; simpl; congruence. Qed.

Lemma append_assoc (a b c : string) : (a +:+ b) +:+ c = a +:+ (b +:+ c).
Proof. induction a as [|x a IH]; simpl; congruence. Qed.

Lemma length_append (a b : string) :
  String.length (a +:+ b) = (String.length a + String.length b)%nat.
Proof. induction a as [|x a IH]; simpl; congruence. Qed.

Lemma startsWith_spec (p s : string) :
  startsWith p s = true <-> exists r, s = p +:+ r.
Proof.
  revert s. induction p as [|a p IH]; intros s; simpl.
  - split; [intros _; now exists s | reflexivity].
  - destruct s as [|b s].
    + split; [discriminate | intros [r Hr]; discriminate].
    + rewrite andb_true_iff, Ascii.eqb_eq, IH. split.
      * intros [-> [r ->]]. now exists r.
      * intros [r Hr]. injection Hr as -> ->. split; [reflexivity | now exists r].
Qed.

Lemma includes_spec (sub s : string) :
  includes sub s = true <-> exists a b, s = a +:+ sub +:+ b.
Proof.
  induction s as [|c s IH]; simpl.
  - rewrite orb_false_r, startsWith_spec. split.
    + intros [r Hr]. now exists "", r.
    + intros [a [b Hab]]. destruct a; [now exists b | discriminate].
  - rewrite orb_true_iff, startsWith_spec, IH. split.
    + intros [[r Hr] | [a [b Hab]]].
      * now exists "", r.
      * exists (String c a), b. simpl. now rewrite Hab.
    + intros [a [b Hab]]. destruct a as [|x a].
      * left. now exists b.
      * right. simpl in Hab. injection Hab as _ ->. now exists a, b.
Qed.

Lemma toLowerCase_append (a b : string) :
  toLowerCase (a +:+ b) = toLowerCase a +:+ toLowerCase b.
Proof. induction a as [|x a IH]; simpl; congruence. Qed.

Lemma toLowerCase_split (s x y : string) :
  toLowerCase s = x +:+ y ->
  exists a b, s = a +:+ b /\ toLowerCase a = x /\ toLowerCase b = y.
Proof.
  revert s. induction x as [|c x IH]; intros s H; simpl in H.
  - now exists "", s.
  - destruct s as [|d s]; [discriminate |]. simpl in H. injection H as Hc H.
    destruct (IH _ H) as [a [b [-> [Ha Hb]]]].
    exists (String d a), b. simpl. now rewrite Hc, Ha.
Qed.

Lemma includes_lower_mentions (phrase msg : string) :
  includes phrase (toLowerCase msg) = true <-> mentions phrase msg.
Proof.
  rewrite includes_spec. split.
  - intros [x [y H]].
    destruct (toLowerCase_split _ _ _ H) as [a [r [-> [_ Hr]]]].
    destruct (toLowerCase_split _ _ _ Hr) as [m [b [-> [Hm _]]]].
    now exists a, m, b.
  - intros [a [m [b [-> Hm]]]].
    exists (toLowerCase a), (toLowerCase b).
    now rewrite !toLowerCase_append, Hm.
Qed.

Lemma trimStart_head (s : string) c r :
  trimStart s = String c r -> isSpace c = false.
Proof.
  induction s as [|d s IH]; simpl; [discriminate |].
  destruct (isSpace d) eqn:E; [exact IH |].
  intros H. injection H as <- _. exact E.
Qed.

Lemma trimEnd_head (s : string) c r :
  trimEnd s = String c r -> exists r', s = String c r'.
Proof.
  destruct s as [|d s]; simpl; [discriminate |].
  destruct (trimEnd s); [destruct (isSpace d); [discriminate |] |];
    intros H; injection H as <- _; now eexists.
Qed.

(** A trimmed string does not begin with white space. *)
Lemma trim_head (s : string) c r : trim s = String c r -> isSpace c = false.
Proof.
  unfold trim. intros H. destruct (trimEnd_head _ _ _ H) as [r' Hr'].
  exact (trimStart_head _ _ _ Hr').
Qed.

(** ** Glob splitter *)

Lemma substring_prefix (p x : string) (n : nat) :
  substring 0 (String.length p + n) (p +:+ x) = p +:+ substring 0 n x.
Proof. induction p as [|c p IH]; simpl; [reflexivity | now rewrite IH]. Qed.

Lemma substring_0_0 (x : string) : substring 0 0 x = "".
Proof. now destruct x. Qed.

Lemma slice_snoc (pre : string) ch rest (start : nat) :
  (start <= String.length pre)%nat ->
  slice start (S (String.length pre)) (pre +:+ String ch rest)
  = slice start (String.length pre) (pre +:+ String ch rest) +:+ String ch "".
Proof.
  revert start. induction pre as [|c pre IH]; intros start Hle.
  - assert (start = 0%nat) as -> by (simpl in Hle; lia).
    unfold slice. simpl. now rewrite substring_0_0.
  - destruct start as [|k].
    + unfold slice. rewrite !Nat.sub_0_r.
      replace (S (String.length (String c pre)))
        with (String.length (String c pre) + 1)%nat by lia.
      replace (String.length (String c pre))
        with (String.length (String c pre) + 0)%nat at 2 by lia.
      rewrite !substring_prefix. simpl. rewrite substring_0_0.
      now rewrite append_assoc.
    + simpl in Hle. specialize (IH k ltac:(lia)). unfold slice in *. simpl.
      exact IH.
Qed.

Lemma slice_empty (i : nat) (s : string) : slice i i s = "".
Proof.
  unfold slice. rewrite Nat.sub_diag. revert s.
  induction i as [|i IH]; intros [|c s]; simpl; auto.
Qed.

Lemma splitGlobs_loop_pieces (pre rest : string) depth (start : nat) parts :
  (start <= String.length pre)%nat ->
  splitGlobs_loop (pre +:+ rest) rest (String.length pre) depth start parts
  = parts ++ splitPieces rest depth (slice start (String.length pre) (pre +:+ rest)).
Proof.
  revert pre depth start parts.
  induction rest as [|ch rest IH]; intros pre depth start parts Hle.
  - simpl. unfold atom. destruct (nonEmpty _); [reflexivity | now rewrite app_nil_r].
  - assert (Hpre : pre +:+ String ch rest = (pre +:+ String ch "") +:+ rest)
      by now rewrite append_assoc.
    assert (Hlen : S (String.length pre) = String.length (pre +:+ String ch ""))
      by (rewrite length_append; simpl; lia).
    assert (Hnext : forall d st ps, (st <= S (String.length pre))%nat ->
              splitGlobs_loop (pre +:+ String ch rest) rest (S (String.length pre)) d st ps
              = ps ++ splitPieces rest d
                  (slice st (S (String.length pre)) (pre +:+ String ch rest))).
    { intros d st ps Hst. rewrite Hpre, Hlen. apply IH. rewrite <- Hlen. exact Hst. }
    simpl.
    destruct (Ascii.eqb ch "{"); [rewrite Hnext by lia; now rewrite slice_snoc |].
    destruct (Ascii.eqb ch "}"); [rewrite Hnext by lia; now rewrite slice_snoc |].
    destruct (Ascii.eqb ch "," && (depth =? 0)).
    + rewrite Hnext by lia. rewrite slice_empty. unfold atom.
      destruct (nonEmpty _); [now rewrite <- app_assoc | reflexivity].
    + rewrite Hnext by lia. now rewrite slice_snoc.
Qed.

Lemma splitGlobs_pieces (input : string) : splitGlobs input = splitPieces input 0 "".
Proof.
  unfold splitGlobs.
  pose proof (splitGlobs_loop_pieces "" input 0 0%nat [] (Nat.le_refl _)) as H.
  simpl in H. now rewrite slice_empty in H.
Qed.







(** C9. On the two inputs of the specification the glob splitter cuts at
    the comma outside the brace group and keeps the group whole.  It does
    not do so on every input.  In [a},{c,d}] the text [{c,d}] is a brace
    group and no brace opens before the first comma, so that comma lies
    outside every brace group.  The closing brace before it has lowered the
    counter of the loop to -1: the splitter passes over that comma and cuts
    at the comma inside the group, and no atom holds the group.  Likewise
    [a},b,c], which has no brace group at all, comes back as one atom. *)
Theorem splitGlobs_stray_brace :
  splitGlobs "*.{ts,js},*.md" = ["*.{ts,js}"; "*.md"]
  /\ splitGlobs "*.{a,b}" = ["*.{a,b}"]
  /\ "a},{c,d}" = "a}" +:+ "," +:+ "{c,d}"
  /\ includes "{" "a}" = false
  /\ braceGroup "{c,d}"
  /\ depthAfter 0 "a}" = -1
  /\ splitGlobs "a},{c,d}" = ["a},{c"; "d}"]
  /\ splitGlobs "a},{c,d}" <> ["a}"; "{c,d}"]
  /\ Forall (fun g => includes "{c,d}" g = false) (splitGlobs "a},{c,d}")
  /\ splitGlobs "a},b,c" = ["a},b,c"].
Proof.
  split; [reflexivity |]. split; [reflexivity |]. split; [reflexivity |].
  split; [reflexivity |]. split.
  { exists "c,d". split; [| reflexivity].
    repeat first [apply balanced_nil
                 | apply balanced_char; [discriminate | discriminate |]]. }
  split; [reflexivity |]. split; [reflexivity |]. split; [| split].
  - vm_compute. discriminate.
  - vm_compute. repeat constructor.
  - reflexivity.
Qed.

(** ** Responses of the two engines *)

Lemma rgResponse_isError (p : Params) cwd (r : ExecResult) :
  isError (rgResponse p cwd r) = killed r || (code r =? 2).
Proof.
  unfold rgResponse. destruct (killed r); [reflexivity |].
  destruct (code r =? 2); [reflexivity |]. simpl.
  repeat case_match; reflexivity.
Qed.

Lemma rgResponse_details (p : Params) cwd (r : ExecResult) :
  match details (rgResponse p cwd r) with
  | Some d => isError (rgResponse p cwd r) = false /\ fallback d = None
              /\ engine d = Some rg
  | None => isError (rgResponse p cwd r) = true
  end.
Proof.
  unfold rgResponse. destruct (killed r); [reflexivity |].
  destruct (code r =? 2); [reflexivity |]. cbv zeta.
  destruct (negb _ || _); [simpl; auto |].
  destruct (_ >? 0); [destruct (negb _) |]; simpl; auto.
Qed.

Lemma colResponse_details (p : Params) cwd (r : ExecResult) :
  match details (colResponse p cwd r) with
  | Some d => isError (colResponse p cwd r) = false /\ fallback d = None
              /\ engine d = Some colgrep
  | None => isError (colResponse p cwd r) = true
  end.
Proof.
  unfold colResponse. destruct (killed r); [reflexivity |].
  destruct (negb (code r =? 0)); [reflexivity |]. cbv zeta.
  destruct (stdout r); [destruct (negb _ || _) |]; simpl; auto.
Qed.

Lemma execRipgrep_response (host : Host) p cwd tr :
  fst (execRipgrep host p cwd tr) = rgResponse p cwd (fst (rgRun host p cwd tr))
  /\ snd (execRipgrep host p cwd tr) = snd (rgRun host p cwd tr).
Proof.
  unfold execRipgrep, bind, ret. destruct (rgRun host p cwd tr). auto.
Qed.

Lemma execColgrep_response (host : Host) p cwd tr :
  execColgrep host p cwd tr =
  let tr' := tr ++ [{| cmd := "colgrep"; argv := colArgs p cwd; timeout := 120000 |}] in
  (colResponse p cwd (host tr'), tr').
Proof. reflexivity. Qed.

Lemma execRipgrepFallback_response (host : Host) p cwd tr :
  execRipgrepFallback host p cwd tr =
  (markFallback (fst (execRipgrep host (fallbackParams p) cwd tr)),
   snd (execRipgrep host (fallbackParams p) cwd tr)).
Proof.
  unfold execRipgrepFallback, bind, ret.
  now destruct (execRipgrep host (fallbackParams p) cwd tr).
Qed.

Lemma markFallback_details (r : Response) :
  isError (markFallback r) = isError r
  /\ text (markFallback r) = text r
  /\ match details r with
     | Some d => exists d', details (markFallback r) = Some d'
                            /\ fallback d' = Some true /\ engine d' = engine d
     | None => details (markFallback r) = None
     end.
Proof.
  unfold markFallback. destruct (details r) eqn:E; simpl; [|now rewrite E].
  repeat split. eexists. repeat split.
Qed.

(** The three ways through [execute]. *)
Lemma execute_cases (host : Host) p cwd tr :
  (truthyS (query p) = false /\ truthyS (pattern p) = false
   /\ execute host p cwd tr
      = (errorResponse "Error: at least one of `query` or `pattern` must be provided.", tr))
  \/ (truthyS (query p) = false /\ truthyS (pattern p) = true
      /\ execute host p cwd tr = execRipgrep host p cwd tr)
  \/ (truthyS (query p) = true
      /\ let r := fst (execColgrep host p cwd tr) in
         let tr1 := snd (execColgrep host p cwd tr) in
         (isError r && isColgrepRecoverable r = false /\ execute host p cwd tr = (r, tr1))
         \/ (isError r = true /\ isColgrepRecoverable r = true
             /\ execute host p cwd tr = execRipgrepFallback host p cwd tr1)).
Proof.
  unfold execute.
  destruct (truthyS (query p)) eqn:Q; destruct (truthyS (pattern p)) eqn:P;
    cbn [negb andb].
  3: { right; left; auto. }
  3: { left; auto. }
  all: right; right; split; [reflexivity |]; unfold bind;
    destruct (execColgrep host p cwd tr) as [r tr1]; cbn [fst snd];
    destruct (isError r); cbn [andb]; [| left; auto];
    destruct (isColgrepRecoverable r); [right | left]; auto.
Qed.

Lemma execute_details (host : Host) p cwd tr :
  match details (fst (execute host p cwd tr)) with
  | Some d => isError (fst (execute host p cwd tr)) = false
  | None => isError (fst (execute host p cwd tr)) = true
  end.
Proof.
  destruct (execute_cases host p cwd tr)
    as [(_ & _ & ->) | [(_ & _ & ->) | (_ & [[_ ->] | (_ & _ & ->)])]].
  - reflexivity.
  - destruct (execRipgrep_response host p cwd tr) as [-> _].
    pose proof (rgResponse_details p cwd (fst (rgRun host p cwd tr))) as H.
    destruct (details _); tauto.
  - rewrite execColgrep_response. cbn [fst].
    pose proof (colResponse_details p cwd
      (host (tr ++ [{| cmd := "colgrep"; argv := colArgs p cwd; timeout := 120000 |}]))) as H.
    destruct (details _); tauto.
  - rewrite execRipgrepFallback_response. cbn [fst].
    destruct (execRipgrep_response host (fallbackParams p) cwd
                (snd (execColgrep host p cwd tr))) as [-> _].
    set (r := rgResponse _ _ _).
    pose proof (rgResponse_details (fallbackParams p) cwd
      (fst (rgRun host (fallbackParams p) cwd (snd (execColgrep host p cwd tr))))) as H.
    fold r in H.
    destruct (markFallback_details r) as (He & _ & Hd). rewrite He.
    destruct (details r); [destruct Hd as (d' & -> & _); tauto | now rewrite Hd].
Qed.

(** C10. When the lexical run issued by the fallback fails, by a kill or
    by exit status 2, the response is an error without a details object, so
    it carries no fallback flag; and every response of the router or of the
    fallback whose details carry the flag is a success. *)
Theorem fallback_flag_implies_success (host : Host) (p : Params) cwd tr :
  (let lexical := fst (rgRun host (fallbackParams p) cwd tr) in
   killed lexical = true \/ code lexical = 2 ->
   isError (fst (execRipgrepFallback host p cwd tr)) = true
   /\ details (fst (execRipgrepFallback host p cwd tr)) = None)
  /\ (forall d, details (fst (execRipgrepFallback host p cwd tr)) = Some d ->
                fallback d = Some true ->
                isError (fst (execRipgrepFallback host p cwd tr)) = false)
  /\ (forall d, details (fst (execute host p cwd tr)) = Some d ->
                fallback d = Some true ->
                isError (fst (execute host p cwd tr)) = false).
Proof.
  rewrite execRipgrepFallback_response. cbn [fst].
  destruct (execRipgrep_response host (fallbackParams p) cwd tr) as [-> _].
  set (lexical := fst (rgRun host (fallbackParams p) cwd tr)).
  pose proof (rgResponse_details (fallbackParams p) cwd lexical) as Hd.
  pose proof (rgResponse_isError (fallbackParams p) cwd lexical) as He.
  destruct (markFallback_details (rgResponse (fallbackParams p) cwd lexical))
    as (Hme & _ & Hmd).
  split; [| split].
  - intros Hfail. rewrite Hme, He.
    assert (Herr : killed lexical || (code lexical =? 2) = true).
    { destruct Hfail as [-> | ->]; [reflexivity | apply orb_true_r]. }
    split; [exact Herr |].
    destruct (details (rgResponse (fallbackParams p) cwd lexical)).
    + destruct Hd as [Hd _]. rewrite He, Herr in Hd. discriminate.
    + exact Hmd.
  - intros d Hdet _. rewrite Hme.
    destruct (details (rgResponse (fallbackParams p) cwd lexical)).
    + tauto.
    + rewrite Hmd in Hdet. discriminate.
  - intros d Hdet _. pose proof (execute_details host p cwd tr) as H.
    now rewrite Hdet in H.
Qed.

Lemma fallback_flag_implies_success_witness :
  (isError (fst (execRipgrepFallback (constHost killedRun) (queryOnly "parse config")
                   "/repo" [])) = true
   /\ details (fst (execRipgrepFallback (constHost killedRun) (queryOnly "parse config")
                      "/repo" [])) = None)
  /\ isError (fst (execute
                     (scriptHost [exited 1 "" "Error: No index found"]
                                 (exited 0 (joinLines ["a.ts"; "1:parse config"]) ""))
                     (queryOnly "parse config") "/repo" [])) = false.
Proof.
  split.
  - apply (fallback_flag_implies_success (constHost killedRun)
             (queryOnly "parse config") "/repo" []).
    left. vm_compute. reflexivity.
  - eapply (fallback_flag_implies_success
              (scriptHost [exited 1 "" "Error: No index found"]
                          (exited 0 (joinLines ["a.ts"; "1:parse config"]) ""))
              (queryOnly "parse config") "/repo" []).
    + vm_compute. reflexivity.
    + vm_compute. reflexivity.
Defined.

(** ** The run of the lexical engine *)

Lemma rgRun_unfold (host : Host) p cwd tr :
  rgRun host p cwd tr =
  let r1 := host (tr ++ [rgCall p cwd]) in
  if wantsPcreRetry p r1
  then (host (tr ++ [rgCall p cwd; rgRetryCall p cwd]),
        tr ++ [rgCall p cwd; rgRetryCall p cwd])
  else (r1, tr ++ [rgCall p cwd]).
Proof.
  unfold rgRun, bind, piExec, ret, rgCall, rgRetryCall. cbv zeta.
  destruct (wantsPcreRetry p _); [| reflexivity].
  now rewrite <- app_assoc.
Qed.

Lemma rgRun_first_call (host : Host) p cwd tr :
  nth_error (snd (rgRun host p cwd tr)) (length tr) = Some (rgCall p cwd).
Proof.
  rewrite rgRun_unfold. cbv zeta.
  destruct (wantsPcreRetry p _); cbn [snd];
    rewrite nth_error_app2 by lia; now rewrite Nat.sub_diag.
Qed.

Lemma rgArgs_end (p : Params) cwd :
  exists flags,
    rgArgs p cwd
    = flags ++ ["--"; match pattern p with Some pat => pat | None => "undefined" end;
                searchPathOf p cwd].
Proof.
  exists (rgArgsHead p ++ optArg (effectiveMultiline p) ["--multiline"]
          ++ numArg "-B" (pre p) ++ numArg "-A" (post p)
          ++ globArgs "-g" (fun g => g) (glob p)
          ++ globArgs "-g" (fun e => "!" +:+ e) (exclude p)
          ++ dirArgs "-g" (fun d => "!" +:+ d +:+ "/**") (exclude_dir p)
          ++ optArg (truthyB (code_only p))
               (flat_map (fun ext => ["-g"; "!" +:+ ext]) CODE_ONLY_EXCLUDES)).
  unfold rgArgs, rgArgsTail, pushSearchPaths. repeat rewrite <- app_assoc.
  reflexivity.
Qed.

Lemma searchPathOf_withPattern (p : Params) pat fixed cwd :
  searchPathOf (withPattern p pat fixed) cwd = searchPathOf p cwd.
Proof. reflexivity. Qed.

(** ** Fallback policy *)

Lemma In_rgArgsHead_F (p : Params) :
  fixed_strings p = Some true -> In "-F" (rgArgsHead p).
Proof.
  intros H. unfold rgArgsHead. rewrite H. cbn [truthyB optArg].
  apply in_or_app. right. apply in_or_app. right. apply in_or_app. right.
  apply in_or_app. left. now left.
Qed.

(** The flag on an answer of the router tells that the fallback ran. *)
Lemma execute_flag_origin (host : Host) q cwd tr' d :
  details (fst (execute host q cwd tr')) = Some d ->
  fallback d = Some true ->
  truthyS (query q) = true
  /\ isError (fst (execColgrep host q cwd tr')) = true
  /\ isColgrepRecoverable (fst (execColgrep host q cwd tr')) = true.
Proof.
  intros H Hflag.
  destruct (execute_cases host q cwd tr')
    as [(_ & _ & He) | [(_ & _ & He) | (Hq' & [[Hno He] | (He1 & He2 & He)])]];
    rewrite He in H; cbn [fst] in H; try discriminate.
  - destruct (execRipgrep_response host q cwd tr') as [Hr _]. rewrite Hr in H.
    pose proof (rgResponse_details q cwd (fst (rgRun host q cwd tr'))) as Hn.
    rewrite H in Hn. destruct Hn as (_ & Hn & _). congruence.
  - rewrite execColgrep_response in H. cbn [fst] in H.
    pose proof (colResponse_details q cwd
      (host (tr' ++ [{| cmd := "colgrep"; argv := colArgs q cwd; timeout := 120000 |}])))
      as Hn.
    rewrite H in Hn. destruct Hn as (_ & Hn & _). congruence.
  - auto.
Qed.

(** C1. When the semantic run of a request fails recoverably, the router
    answers with the lexical engine run on the fallback request, flag set:
    with the original pattern and no query when a pattern was supplied, and
    else with the query text as pattern, fixed-string mode forced on and no
    query.  The call that follows the semantic one is the lexical engine
    with the arguments of that request, which end in the pattern and the
    search path.  Every details object of the answer carries the flag, the
    answer has one exactly when the lexical run did not fail, and neither
    engine sets the flag on its own answer. *)
Theorem fallback_reruns_lexical (host : Host) (p : Params) cwd tr :
  truthyS (query p) = true ->
  let r1 := fst (execColgrep host p cwd tr) in
  let tr1 := snd (execColgrep host p cwd tr) in
  isError r1 = true -> isColgrepRecoverable r1 = true ->
  let p' := if truthyS (pattern p)
            then withPattern p (pattern p) (fixed_strings p)
            else withPattern p (query p) (Some true) in
  let pat := orElse (pattern p) (textOf (query p)) in
  let lexical := execRipgrep host p' cwd tr1 in
  execute host p cwd tr = (markFallback (fst lexical), snd lexical)
  /\ nth_error (snd (execute host p cwd tr)) (length tr1) = Some (rgCall p' cwd)
  /\ (exists flags, rgArgs p' cwd = flags ++ ["--"; pat; searchPathOf p cwd])
  /\ query p' = None
  /\ (truthyS (pattern p) = true -> pattern p' = pattern p
                                    /\ fixed_strings p' = fixed_strings p)
  /\ (truthyS (pattern p) = false -> pattern p' = query p
                                     /\ fixed_strings p' = Some true
                                     /\ In "-F" (rgArgsHead p'))
  /\ (forall d, details (fst (execute host p cwd tr)) = Some d -> fallback d = Some true)
  /\ (details (fst (execute host p cwd tr)) = None <-> isError (fst lexical) = true)
  /\ (forall q tr' d, details (fst (execRipgrep host q cwd tr')) = Some d -> fallback d = None)
  /\ (forall q tr' d, details (fst (execColgrep host q cwd tr')) = Some d -> fallback d = None)
  /\ (forall q tr' d, details (fst (execute host q cwd tr')) = Some d ->
                      fallback d = Some true ->
                      truthyS (query q) = true
                      /\ isError (fst (execColgrep host q cwd tr')) = true
                      /\ isColgrepRecoverable (fst (execColgrep host q cwd tr')) = true).
Proof.
  intros Hq r1 tr1 Herr Hrec p' pat lexical.
  assert (Hp' : p' = fallbackParams p) by reflexivity.
  assert (Hex : execute host p cwd tr = (markFallback (fst lexical), snd lexical)).
  { destruct (execute_cases host p cwd tr)
      as [(Hq' & _) | [(Hq' & _) | (_ & [[Hno _] | (_ & _ & ->)])]].
    - congruence.
    - congruence.
    - fold r1 in Hno. rewrite Herr, Hrec in Hno. discriminate.
    - rewrite execRipgrepFallback_response. subst lexical. now rewrite Hp'. }
  pose proof (rgResponse_details p' cwd (fst (rgRun host p' cwd tr1))) as Hd.
  pose proof (markFallback_details (fst lexical)) as (Hme & _ & Hmd).
  assert (Hlex : fst lexical = rgResponse p' cwd (fst (rgRun host p' cwd tr1)))
    by apply execRipgrep_response.
  rewrite Hex. cbn [fst snd]. repeat split.
  - unfold lexical. destruct (execRipgrep_response host p' cwd tr1) as [_ ->].
    apply rgRun_first_call.
  - destruct (rgArgs_end p' cwd) as [flags Hflags]. exists flags. rewrite Hflags.
    subst p' pat. unfold orElse, truthyS in *.
    destruct (pattern p) as [s|] eqn:Ep; [destruct (nonEmpty s) eqn:Es |];
      cbn [withPattern pattern searchPathOf path]; try reflexivity;
      destruct (query p) as [q|]; try discriminate; reflexivity.
  - subst p'. now destruct (truthyS (pattern p)).
  - subst p'. now rewrite H.
  - subst p'. now rewrite H.
  - subst p'. now rewrite H.
  - subst p'. now rewrite H.
  - apply In_rgArgsHead_F. subst p'. now rewrite H.
  - intros d Hdet. destruct (details (fst lexical)).
    + destruct Hmd as (d' & Hd' & Hf & _). congruence.
    + congruence.
  - intros Hnone. rewrite Hlex in *. destruct (details (rgResponse _ _ _)).
    + destruct Hmd as (d' & Hd' & _). congruence.
    + exact Hd.
  - intros Hfail. rewrite Hlex in *. destruct (details (rgResponse _ _ _)).
    + destruct Hd as [Hd _]. congruence.
    + exact Hmd.
  - intros q tr' d Hdet. destruct (execRipgrep_response host q cwd tr') as [Hr _].
    rewrite Hr in Hdet. pose proof (rgResponse_details q cwd (fst (rgRun host q cwd tr'))) as H.
    rewrite Hdet in H. tauto.
  - intros q tr' d Hdet. rewrite execColgrep_response in Hdet. cbn [fst] in Hdet.
    pose proof (colResponse_details q cwd (host (tr' ++ [colCall q cwd]))) as H.
    unfold colCall in H. rewrite Hdet in H. tauto.
  - eapply execute_flag_origin; eassumption.
  - eapply execute_flag_origin; eassumption.
  - eapply execute_flag_origin; eassumption.
Qed.

Lemma fallback_reruns_lexical_witness :
  truthyS (query (queryOnly "parse configuration files")) = true
  /\ isError (fst (execColgrep noIndexHost (queryOnly "parse configuration files")
                     "/repo" [])) = true
  /\ nth_error (snd (execute noIndexHost (queryOnly "parse configuration files")
                       "/repo" [])) 1
     = Some (rgCall (withPattern (queryOnly "parse configuration files")
                       (Some "parse configuration files") (Some true)) "/repo").
Proof.
  assert (Hq : truthyS (query (queryOnly "parse configuration files")) = true)
    by reflexivity.
  assert (He : isError (fst (execColgrep noIndexHost
                 (queryOnly "parse configuration files") "/repo" [])) = true)
    by (vm_compute; reflexivity).
  assert (Hr : isColgrepRecoverable (fst (execColgrep noIndexHost
                 (queryOnly "parse configuration files") "/repo" [])) = true)
    by (vm_compute; reflexivity).
  split; [exact Hq |]. split; [exact He |].
  exact (proj1 (proj2 (fallback_reruns_lexical noIndexHost
           (queryOnly "parse configuration files") "/repo" [] Hq He Hr))).
Defined.

(** ** Recoverability *)

Lemma recoverable_indicates (r : Response) :
  isColgrepRecoverable r = true <-> exists why, indicates why (text r).
Proof.
  unfold isColgrepRecoverable. cbv zeta.
  rewrite !orb_true_iff, !includes_lower_mentions. split.
  - intros [[[[[H | H] | H] | H] | H] | H].
    + now exists AdvisesLexical.
    + now exists IndexBuilding.
    + exists NoIndex. now left.
    + exists NoIndex. now right.
    + exists BinaryMissing. now left.
    + exists BinaryMissing. now right.
  - intros [[| | |] H]; simpl in H; tauto.
Qed.

(** C2. A failure of the semantic engine is recoverable exactly when its
    message, letter case ignored, tells that the engine advises lexical
    search, that the index is being built, that there is no index or no
    indexed file, or that the binary is missing.  A recoverable failure
    starts the fallback; any other failure is returned as it is, with no
    further call to an engine. *)
Theorem recoverable_iff_known_phrase (host : Host) (p : Params) cwd tr :
  truthyS (query p) = true ->
  let r := fst (execColgrep host p cwd tr) in
  let tr1 := snd (execColgrep host p cwd tr) in
  isError r = true ->
  (isColgrepRecoverable r = true <-> exists why, indicates why (text r))
  /\ ((exists why, indicates why (text r)) ->
      execute host p cwd tr = execRipgrepFallback host p cwd tr1)
  /\ (~ (exists why, indicates why (text r)) ->
      execute host p cwd tr = (r, tr1) /\ tr1 = tr ++ [colCall p cwd]).
Proof.
  intros Hq r tr1 Herr. split; [apply recoverable_indicates |].
  destruct (execute_cases host p cwd tr)
    as [(Hq' & _) | [(Hq' & _) | (_ & [[Hno He] | (_ & Hrec & He)])]];
    try congruence; fold r in Hno || fold r in Hrec.
  - rewrite Herr in Hno. cbn [andb] in Hno. split.
    + intros H. apply recoverable_indicates in H. congruence.
    + intros _. split; [exact He | reflexivity].
  - split.
    + intros _. exact He.
    + intros H. exfalso. apply H. now apply recoverable_indicates.
Qed.

Lemma recoverable_iff_known_phrase_witness :
  truthyS (query (queryOnly "parse configuration files")) = true
  /\ isError (fst (execColgrep noIndexHost (queryOnly "parse configuration files")
                     "/repo" [])) = true
  /\ (isColgrepRecoverable (fst (execColgrep noIndexHost
        (queryOnly "parse configuration files") "/repo" [])) = true
      <-> exists why, indicates why
            (text (fst (execColgrep noIndexHost
               (queryOnly "parse configuration files") "/repo" [])))).
Proof.
  assert (Hq : truthyS (query (queryOnly "parse configuration files")) = true)
    by reflexivity.
  assert (He : isError (fst (execColgrep noIndexHost
                 (queryOnly "parse configuration files") "/repo" [])) = true)
    by (vm_compute; reflexivity).
  split; [exact Hq |]. split; [exact He |].
  exact (proj1 (recoverable_iff_known_phrase noIndexHost
           (queryOnly "parse configuration files") "/repo" [] Hq He)).
Defined.

(** ** PCRE2 retry *)

Lemma wantsPcreRetry_spec (p : Params) (r : ExecResult) :
  wantsPcreRetry p r = true <->
  code r = 2 /\ truthyB (fixed_strings p) = false
  /\ (mentions "look-around" (textOf (stderr r))
      \/ mentions "backreference" (textOf (stderr r))
      \/ mentions "pcre2" (textOf (stderr r))).
Proof.
  unfold wantsPcreRetry. cbv zeta.
  rewrite !andb_true_iff, !orb_true_iff, !includes_lower_mentions,
    negb_true_iff, Z.eqb_eq.
  tauto.
Qed.

(** C3, as stated, fails: the lexical engine exits with status 2 on a
    request without fixed-string mode and its error text mentions PCRE, yet
    the run makes one call and no retry, since the text has none of
    [look-around], [backreference], [pcre2]. *)
Lemma pcre_retry_counterexample :
  let p := patternOnly "(a)\1" in
  let r1 := pcreMessageHost [rgCall p "/repo"] in
  code r1 = 2
  /\ truthyB (fixed_strings p) = false
  /\ mentions "pcre" (textOf (stderr r1))
  /\ snd (execRipgrep pcreMessageHost p "/repo" []) = [rgCall p "/repo"].
Proof.
  cbv zeta. split; [reflexivity |]. split; [reflexivity |]. split.
  - apply includes_lower_mentions. vm_compute. reflexivity.
  - vm_compute. reflexivity.
Qed.

(** C3, restated to what the code does.  When the first run of the lexical engine exits with
    status 2, fixed-string mode was not requested and the error text
    contains [look-around], [backreference] or [pcre2], letter case ignored,
    the engine is called exactly once more, with [-P] put before the same
    arguments, and the answer is computed from that second run; when it
    exits with status 2 as well the answer is an error without details,
    carrying the engine's message unless the run was killed. *)
Theorem pcre_retry_once (host : Host) (p : Params) cwd tr :
  let first := rgCall p cwd in
  let retry := rgRetryCall p cwd in
  let r1 := host (tr ++ [first]) in
  let r2 := host (tr ++ [first; retry]) in
  code r1 = 2 ->
  truthyB (fixed_strings p) = false ->
  mentions "look-around" (textOf (stderr r1))
  \/ mentions "backreference" (textOf (stderr r1))
  \/ mentions "pcre2" (textOf (stderr r1)) ->
  snd (execRipgrep host p cwd tr) = tr ++ [first; retry]
  /\ argv retry = "-P" :: argv first
  /\ fst (execRipgrep host p cwd tr) = rgResponse p cwd r2
  /\ (code r2 = 2 ->
      isError (fst (execRipgrep host p cwd tr)) = true
      /\ details (fst (execRipgrep host p cwd tr)) = None
      /\ (killed r2 = false ->
          text (fst (execRipgrep host p cwd tr))
          = "Error: " +:+ trimmedOr (stderr r2) "ripgrep error")).
Proof.
  intros first retry r1 r2 Hcode Hfixed Htext.
  assert (Hw : wantsPcreRetry p r1 = true) by (apply wantsPcreRetry_spec; auto).
  destruct (execRipgrep_response host p cwd tr) as [-> ->].
  rewrite rgRun_unfold. cbv zeta. fold first retry r1. rewrite Hw. cbn [fst snd].
  fold r2. split; [reflexivity |]. split; [reflexivity |]. split; [reflexivity |].
  intros H2. rewrite rgResponse_isError.
  assert (H2b : (code r2 =? 2) = true) by now apply Z.eqb_eq.
  rewrite H2b, orb_true_r. split; [reflexivity |].
  unfold rgResponse. rewrite H2b. split.
  - now destruct (killed r2).
  - now intros ->.
Qed.

Lemma pcre_retry_once_witness :
  let p := patternOnly "(a)\1" in
  code (backreferenceHost [rgCall p "/repo"]) = 2
  /\ snd (execRipgrep backreferenceHost p "/repo" [])
     = [rgCall p "/repo"; rgRetryCall p "/repo"]
  /\ isError (fst (execRipgrep backreferenceHost p "/repo" [])) = true.
Proof.
  cbv zeta.
  assert (Hm : mentions "look-around"
                 (textOf (stderr (backreferenceHost [rgCall (patternOnly "(a)\1") "/repo"])))
               \/ mentions "backreference"
                    (textOf (stderr (backreferenceHost [rgCall (patternOnly "(a)\1") "/repo"])))
               \/ mentions "pcre2"
                    (textOf (stderr (backreferenceHost [rgCall (patternOnly "(a)\1") "/repo"])))).
  { right. left. apply includes_lower_mentions. vm_compute. reflexivity. }
  destruct (pcre_retry_once backreferenceHost (patternOnly "(a)\1") "/repo" []
              eq_refl eq_refl Hm) as (Htr & _ & _ & Hfatal).
  split; [reflexivity |]. split; [exact Htr |].
  exact (proj1 (Hfatal eq_refl)).
Defined.

(** ** Multiline mode *)

Lemma multilineRequested_effective (p : Params) :
  multilineRequested p = effectiveMultiline p.
Proof. reflexivity. Qed.

Lemma flat_map_head (A : Type) (flag : string) (f : A -> list string) (l : list A) :
  (forall x, f x = [] \/ exists rest, f x = flag :: rest) ->
  flat_map f l = [] \/ exists rest, flat_map f l = flag :: rest.
Proof.
  intros Hf. induction l as [|x l IH]; simpl; [now left |].
  destruct (Hf x) as [-> | [rest ->]]; [exact IH | right; now eexists].
Qed.

Lemma numArg_head (flag : string) (o : option Z) :
  numArg flag o = [] \/ exists rest, numArg flag o = flag :: rest.
Proof. destruct o; simpl; [right; now eexists | now left]. Qed.

Lemma globArgs_head (flag : string) f (o : option string) :
  globArgs flag f o = [] \/ exists rest, globArgs flag f o = flag :: rest.
Proof.
  unfold globArgs. destruct o as [s|]; [| now left].
  destruct (nonEmpty s); [| now left].
  apply flat_map_head. intros g. right. now eexists.
Qed.

Lemma dirArgs_head (flag : string) f (o : option string) :
  dirArgs flag f o = [] \/ exists rest, dirArgs flag f o = flag :: rest.
Proof.
  unfold dirArgs. destruct o as [s|]; [| now left].
  destruct (nonEmpty s); [| now left].
  apply flat_map_head. intros d. cbv zeta.
  destruct (nonEmpty (trim d)); [right; now eexists | now left].
Qed.

(** The arguments pushed after the multiline decision never begin with
    the multiline flag. *)
Lemma rgArgsTail_head (p : Params) cwd :
  exists x rest, rgArgsTail p cwd = x :: rest /\ x <> "--multiline".
Proof.
  unfold rgArgsTail, pushSearchPaths.
  destruct (numArg_head "-B" (pre p)) as [-> | [r ->]];
    [| eexists _, _; split; [reflexivity | discriminate]].
  destruct (numArg_head "-A" (post p)) as [-> | [r ->]];
    [| eexists _, _; split; [reflexivity | discriminate]].
  destruct (globArgs_head "-g" (fun g => g) (glob p)) as [-> | [r ->]];
    [| eexists _, _; split; [reflexivity | discriminate]].
  destruct (globArgs_head "-g" (fun e => "!" +:+ e) (exclude p)) as [-> | [r ->]];
    [| eexists _, _; split; [reflexivity | discriminate]].
  destruct (dirArgs_head "-g" (fun d => "!" +:+ d +:+ "/**") (exclude_dir p))
    as [-> | [r ->]];
    [| eexists _, _; split; [reflexivity | discriminate]].
  destruct (truthyB (code_only p));
    eexists _, _; split; try reflexivity; discriminate.
Qed.

(** C7, as stated, fails: the pattern contains a newline, so the stated
    condition holds, but the request sets [multiline] to [false] and the
    invocation carries no multiline flag. *)
Lemma multiline_counterexample :
  let p := setMultiline (Some false) (patternOnly ("a" +:+ String LF "b")) in
  (truthyB (multiline p) || patternHasNewline p) = true
  /\ rgArgs p "/repo"
     = ["--color=never"; "--line-number"; "--heading"; "--hidden"; "--stats";
        "--max-count"; "100"; "--"; "a" +:+ String LF "b"; "/repo"]
  /\ ~ In "--multiline" (rgArgs p "/repo").
Proof.
  cbv zeta. split; [reflexivity |]. split; [reflexivity |].
  vm_compute. intuition discriminate.
Qed.

(** C7, restated to what the code does.  The invocation of the lexical engine is the arguments
    that precede the multiline decision, then [--multiline] exactly when
    the explicit flag is [true], or is absent while the pattern contains an
    escaped or a literal newline, then the remaining arguments; an explicit
    [false] switches the detection off.  The argument at that position is
    the multiline flag in that case and in no other, and the arguments
    around it do not depend on the [multiline] field. *)
Theorem multiline_exactly_when (p : Params) cwd :
  rgArgs p cwd
  = rgArgsHead p ++ (if multilineRequested p then ["--multiline"] else [])
    ++ rgArgsTail p cwd
  /\ (nth_error (rgArgs p cwd) (length (rgArgsHead p)) = Some "--multiline"
      <-> multilineRequested p = true)
  /\ (multilineRequested p = true
      <-> multiline p = Some true
          \/ (multiline p = None
              /\ exists pat, pattern p = Some pat
                   /\ (includes "\n" pat = true \/ includes (String LF "") pat = true)))
  /\ (forall m, rgArgsHead (setMultiline m p) = rgArgsHead p
                /\ rgArgsTail (setMultiline m p) cwd = rgArgsTail p cwd).
Proof.
  split; [reflexivity |]. split; [| split].
  - unfold rgArgs. rewrite <- multilineRequested_effective.
    rewrite nth_error_app2 by lia. rewrite Nat.sub_diag.
    destruct (multilineRequested p); cbn [optArg app nth_error].
    + tauto.
    + destruct (rgArgsTail_head p cwd) as (x & rest & -> & Hx). cbn [nth_error].
      split; [intros H; congruence | discriminate].
  - unfold multilineRequested.
    destruct (multiline p) as [[|]|]; [| |destruct (pattern p) as [pat|]].
    + tauto.
    + split; [discriminate | intros [H | [H _]]; discriminate].
    + rewrite orb_true_iff. split.
      * intros H. right. split; [reflexivity |]. now exists pat.
      * intros [H | [_ (pat' & Hp & H)]]; [discriminate | congruence].
    + split; [discriminate | intros [H | [_ (pat' & Hp & _)]]; discriminate].
  - intros m. split; reflexivity.
Qed.

(** ** Header of the response *)

Lemma nonEmpty_trim_head (s : string) :
  nonEmpty (trim s) = true ->
  exists c rest, trim s = String c rest /\ isSpace c = false.
Proof.
  destruct (trim s) as [|c rest] eqn:E; [discriminate |].
  intros _. exists c, rest. split; [reflexivity | exact (trim_head _ _ _ E)].
Qed.

Lemma trimmedOr_empty_trim (o : option string) :
  trimmedOr o "" = trim (textOf o).
Proof.
  unfold trimmedOr, textOf. destruct o as [s|]; [| reflexivity].
  now destruct (trim s).
Qed.

(** Splits the description of a successful response into the choice of
    body and the two facts about the file list. *)
Ltac response_parts :=
  eexists _, _, _, _;
  do 4 (split; [reflexivity |]);
  split; [| split; [try discriminate; try reflexivity
                   | intros fs Hfs; try discriminate;
                     try (injection Hfs as <-; reflexivity)]].

Lemma rgResponse_text (p : Params) cwd (result : ExecResult) :
  isError (rgResponse p cwd result) = false ->
  exists d n m body,
    details (rgResponse p cwd result) = Some d
    /\ filesSearched d = Some n /\ filesMatched d = Some m
    /\ text (rgResponse p cwd result)
       = headerLine "s" (showZ n) (showZ m) +:+ String LF body
    /\ rgBody p result body
    /\ (files d = None -> body = "No matches found")
    /\ (forall fs, files d = Some fs -> fs = rgFiles (splitLines body)).
Proof.
  unfold rgResponse, rgBody. destruct (killed result); [discriminate |].
  destruct (code result =? 2); [discriminate |]. cbv zeta. intros _.
  set (stats := parseAndStripRgStats (trimmedOr (stdout result) "")).
  destruct (nonEmpty (clean stats)) eqn:Eout; cbn [negb orb].
  2: { response_parts. now left. }
  destruct (code result =? 1).
  { response_parts. now left. }
  destruct (positiveOr (offset p) 0 >? 0).
  - destruct (nonEmpty (trim _)) eqn:Ek; cbn [negb].
    + response_parts. right. split; [exact Ek | now right].
    + response_parts. now left.
  - response_parts. right. split; [exact Eout | now left].
Qed.

Lemma colResponse_text (p : Params) cwd (result : ExecResult) :
  isError (colResponse p cwd result) = false ->
  exists d n m body,
    details (colResponse p cwd result) = Some d
    /\ filesSearched d = Some n /\ filesMatched d = Some m
    /\ text (colResponse p cwd result)
       = headerLine "ix" (showIndexed n) (showZ m) +:+ String LF body
    /\ colBody result body
    /\ (files d = None -> body = "No matches found")
    /\ (forall fs, files d = Some fs -> fs = colFiles p (splitLines body)).
Proof.
  unfold colResponse, colBody. destruct (killed result); [discriminate |].
  destruct (negb (code result =? 0)); [discriminate |]. cbv zeta. intros _.
  destruct (stdout result) as [s|]; cbn [textOf].
  2: { response_parts. now left. }
  destruct (nonEmpty (trim (stripAnsi s))) eqn:Eo; cbn [negb orb].
  2: { response_parts. now left. }
  destruct (startsWith "No results found" _).
  - response_parts. now left.
  - response_parts. right. split; [exact Eo | reflexivity].
Qed.

Lemma rgBody_head (p : Params) result body :
  rgBody p result body -> exists c rest, body = String c rest /\ isSpace c = false.
Proof.
  intros [-> | [Hne [-> | ->]]].
  - eexists _, _. split; reflexivity.
  - unfold parseAndStripRgStats, clean in *. now apply nonEmpty_trim_head.
  - now apply nonEmpty_trim_head.
Qed.

Lemma colBody_head result body :
  colBody result body -> exists c rest, body = String c rest /\ isSpace c = false.
Proof.
  intros [-> | [Hne ->]].
  - eexists _, _. split; reflexivity.
  - now apply nonEmpty_trim_head.
Qed.

(** C6, as stated, fails: on a successful lexical run the header is
    followed by one newline and the body, not by a blank line, and the
    response has no blank line at all; and when the output carries no
    statistics the lexical header prints [-1], not [?]. *)
Lemma header_blank_line_counterexample :
  let r := fst (execRipgrep (constHost (exited 0 sampleRgOneFile ""))
                  (patternOnly "foo") "/repo" []) in
  let r' := fst (execRipgrep (constHost (exited 0 (joinLines ["a.ts"; "1:foo"]) ""))
                   (patternOnly "foo") "/repo" []) in
  isError r = false
  /\ text r = joinLines ["[s:5 m:1 complete]"; "a.ts"; "1:foo"; "2:foo"]
  /\ (forall n m body,
        text r <> headerLine "s" n m +:+ String LF (String LF body))
  /\ isError r' = false
  /\ text r' = joinLines ["[s:-1 m:-1 complete]"; "a.ts"; "1:foo"].
Proof.
  cbv zeta. split; [reflexivity |]. split; [vm_compute; reflexivity |].
  split; [| split; vm_compute; reflexivity].
  intros n m body H.
  assert (Hin : includes (String LF (String LF ""))
                  (headerLine "s" n m +:+ String LF (String LF body)) = true).
  { apply includes_spec. exists (headerLine "s" n m), body. reflexivity. }
  rewrite <- H in Hin. vm_compute in Hin. discriminate.
Qed.

Lemma not_space_not_LF (c : ascii) : isSpace c = false -> c <> LF.
Proof. intros H ->. discriminate. Qed.

(** C6, restated to what the code does.  The text of a successful run is the one-line header
    [[<tag>:<N> m:<M> complete]], one newline, and the body, which is the
    no-match notice or the cleaned output and never begins with a line
    feed: there is no blank line after the header.  The tag is [s] for the
    lexical engine, where [N] and [M] print the files-searched and
    files-matched counts of the details when these are known, and [ix] for
    the semantic engine, where [N] prints the indexed count when it is
    positive and is [?] otherwise, and [M] prints the files-matched count. *)
Theorem response_header (host : Host) (p : Params) cwd tr :
  (let r := fst (execRipgrep host p cwd tr) in
   isError r = false ->
   exists d n m N M body,
     details r = Some d /\ filesSearched d = Some n /\ filesMatched d = Some m
     /\ text r = headerLine "s" N M +:+ String LF body
     /\ (0 <= n -> N = showZ n) /\ (0 <= m -> M = showZ m)
     /\ rgBody p (fst (rgRun host p cwd tr)) body
     /\ exists c rest, body = String c rest /\ c <> LF)
  /\ (let r := fst (execColgrep host p cwd tr) in
      isError r = false ->
      exists d n m body,
        details r = Some d /\ filesSearched d = Some n /\ filesMatched d = Some m
        /\ text r = headerLine "ix" (if n >? 0 then showZ n else "?") (showZ m)
                    +:+ String LF body
        /\ colBody (host (tr ++ [colCall p cwd])) body
        /\ exists c rest, body = String c rest /\ c <> LF).
Proof.
  split; cbv zeta.
  - destruct (execRipgrep_response host p cwd tr) as [-> _]. intros Hok.
    destruct (rgResponse_text p cwd _ Hok)
      as (d & n & m & body & Hd & Hn & Hm & Htext & Hbody & _).
    destruct (rgBody_head _ _ _ Hbody) as (c & rest & Hc & Hsp).
    exists d, n, m, (showZ n), (showZ m), body.
    split; [exact Hd |]. split; [exact Hn |]. split; [exact Hm |].
    split; [exact Htext |]. split; [reflexivity |]. split; [reflexivity |].
    split; [exact Hbody |].
    exists c, rest. split; [exact Hc | now apply not_space_not_LF].
  - rewrite execColgrep_response. cbn [fst]. intros Hok.
    destruct (colResponse_text p cwd _ Hok)
      as (d & n & m & body & Hd & Hn & Hm & Htext & Hbody & _).
    destruct (colBody_head _ _ Hbody) as (c & rest & Hc & Hsp).
    exists d, n, m, body.
    split; [exact Hd |]. split; [exact Hn |]. split; [exact Hm |].
    split; [exact Htext |]. split; [exact Hbody |].
    exists c, rest. split; [exact Hc | now apply not_space_not_LF].
Qed.

Lemma response_header_witness :
  isError (fst (execRipgrep (constHost (exited 0 sampleRgOneFile ""))
                  (patternOnly "foo") "/repo" [])) = false
  /\ exists d n m N M body,
       details (fst (execRipgrep (constHost (exited 0 sampleRgOneFile ""))
                       (patternOnly "foo") "/repo" [])) = Some d
       /\ filesSearched d = Some n /\ filesMatched d = Some m
       /\ text (fst (execRipgrep (constHost (exited 0 sampleRgOneFile ""))
                       (patternOnly "foo") "/repo" []))
          = headerLine "s" N M +:+ String LF body
       /\ (0 <= n -> N = showZ n) /\ (0 <= m -> M = showZ m)
       /\ rgBody (patternOnly "foo")
            (fst (rgRun (constHost (exited 0 sampleRgOneFile ""))
                    (patternOnly "foo") "/repo" [])) body
       /\ exists c rest, body = String c rest /\ c <> LF.
Proof.
  assert (Hok : isError (fst (execRipgrep (constHost (exited 0 sampleRgOneFile ""))
                                (patternOnly "foo") "/repo" [])) = false)
    by (vm_compute; reflexivity).
  split; [exact Hok |].
  exact (proj1 (response_header (constHost (exited 0 sampleRgOneFile ""))
                  (patternOnly "foo") "/repo" []) Hok).
Defined.

(** ** File lists *)

Lemma includesLine_In (fs : list string) (x : string) :
  includesLine fs x = true <-> In x fs.
Proof.
  unfold includesLine. rewrite existsb_exists. split.
  - intros (y & Hy & Heq). apply String.eqb_eq in Heq. now subst.
  - intros H. exists x. split; [exact H | apply String.eqb_refl].
Qed.

Lemma rgFiles_snoc (l : list string) (x : string) :
  rgFiles (l ++ [x])
  = if isHeadingLine x && negb (includesLine (rgFiles l) x)
    then rgFiles l ++ [x] else rgFiles l.
Proof. unfold rgFiles. now rewrite fold_left_app. Qed.

Lemma firstIndex_lt (x : string) (l : list string) :
  In x l <-> (firstIndex x l < length l)%nat.
Proof.
  induction l as [|y l IH]; simpl; [split; [tauto | lia] |].
  destruct (String.eqb x y) eqn:E.
  - apply String.eqb_eq in E. subst. split; [lia | now left].
  - apply String.eqb_neq in E. rewrite IH. split.
    + intros [H | H]; [congruence | lia].
    + intros H. right. lia.
Qed.

Lemma firstIndex_app_in (x : string) (l r : list string) :
  In x l -> firstIndex x (l ++ r) = firstIndex x l.
Proof.
  induction l as [|y l IH]; simpl; [tauto |].
  destruct (String.eqb x y) eqn:E; [reflexivity |].
  apply String.eqb_neq in E. intros [H | H]; [congruence | now rewrite IH].
Qed.

Lemma firstIndex_app_fresh (x : string) (l : list string) :
  ~ In x l -> firstIndex x (l ++ [x]) = length l.
Proof.
  induction l as [|y l IH]; simpl; intros H.
  - now rewrite String.eqb_refl.
  - destruct (String.eqb x y) eqn:E.
    + apply String.eqb_eq in E. subst. tauto.
    + rewrite IH; tauto.
Qed.

(** The file list of the lexical engine holds every heading of the output
    once, in the order in which the headings first appear. *)
Lemma rgFiles_first_appearance (l : list string) :
  NoDup (rgFiles l)
  /\ (forall f, In f (rgFiles l) <-> In f l /\ isHeadingLine f = true)
  /\ (forall a b f g, nth_error (rgFiles l) a = Some f ->
                      nth_error (rgFiles l) b = Some g -> (a < b)%nat ->
                      (firstIndex f l < firstIndex g l)%nat).
Proof.
  induction l as [|x l (Hnd & Hin & Hord)] using rev_ind.
  - split; [constructor |]. split; [simpl; tauto |].
    intros a b f g H. now destruct a.
  - rewrite rgFiles_snoc.
    destruct (isHeadingLine x) eqn:Hh; cbn [andb].
    + destruct (includesLine (rgFiles l) x) eqn:Hinc; cbn [negb].
      * apply includesLine_In in Hinc. split; [exact Hnd |]. split.
        -- intros f. rewrite Hin, in_app_iff. simpl. split; [tauto |].
           intros [[H | [<- | []]] Hf]; [tauto |]. now apply Hin.
        -- intros a b f g Ha Hb Hlt.
           assert (In f l) by (apply Hin; eapply nth_error_In; eauto).
           assert (In g l) by (apply Hin; eapply nth_error_In; eauto).
           rewrite !firstIndex_app_in by assumption. eauto.
      * assert (Hnew : ~ In x (rgFiles l)).
        { intros H. apply includesLine_In in H. congruence. }
        assert (Hnotin : ~ In x l) by (intros H; apply Hnew, Hin; auto).
        split; [| split].
        -- apply NoDup_app. split; [exact Hnd |]. split; [| apply NoDup_singleton].
           intros y Hy Hy'. apply list_elem_of_In in Hy.
           apply list_elem_of_singleton in Hy'. subst y. tauto.
        -- intros f. rewrite !in_app_iff, Hin. simpl. split.
           ++ intros [H | [<- | []]]; tauto.
           ++ intros [[H | [<- | []]] Hf]; tauto.
        -- intros a b f g Ha Hb Hlt.
           assert (Hal : (a < length (rgFiles l))%nat).
           { assert (Hb' : (b < length (rgFiles l ++ [x]))%nat)
               by (apply nth_error_Some; congruence).
             rewrite length_app in Hb'. simpl in Hb'. lia. }
           rewrite nth_error_app1 in Ha by exact Hal.
           assert (Hf : In f l) by (apply Hin; eapply nth_error_In; eauto).
           rewrite (firstIndex_app_in f) by exact Hf.
           destruct (Nat.lt_ge_cases b (length (rgFiles l))) as [Hbl | Hbl].
           ++ rewrite nth_error_app1 in Hb by exact Hbl.
              assert (Hg : In g l) by (apply Hin; eapply nth_error_In; eauto).
              rewrite (firstIndex_app_in g) by exact Hg. eauto.
           ++ rewrite nth_error_app2 in Hb by exact Hbl.
              destruct (b - length (rgFiles l))%nat as [|k] eqn:Ek;
                [| destruct k; discriminate].
              injection Hb as <-. rewrite firstIndex_app_fresh by exact Hnotin.
              now apply firstIndex_lt.
    + split; [exact Hnd |]. split.
      * intros f. rewrite Hin, in_app_iff. simpl. split; [tauto |].
        intros [[H | [<- | []]] Hf]; [tauto | congruence].
      * intros a b f g Ha Hb Hlt.
        assert (In f l) by (apply Hin; eapply nth_error_In; eauto).
        assert (In g l) by (apply Hin; eapply nth_error_In; eauto).
        rewrite !firstIndex_app_in by assumption. eauto.
Qed.

Lemma colFiles_entries (p : Params) (l : list string) :
  colFiles p l = flat_map (colEntry p) l.
Proof.
  unfold colFiles.
  assert (H : forall acc,
            fold_left (fun files line =>
               if negb (nonEmpty (trim line)) then files
               else match rePathRange line with
                    | Some (g1, g2) => files ++ [g1 +:+ ":" +:+ g2]
                    | None =>
                        match reFileHeading line with
                        | Some g => files ++ [g]
                        | None =>
                            if truthyB (files_only p) && negb (startsWith " " line)
                            then files ++ [trim line] else files
                        end
                    end) l acc
            = acc ++ flat_map (colEntry p) l).
  { induction l as [|x l IH]; intros acc; cbn [fold_left flat_map];
      [now rewrite app_nil_r |].
    rewrite IH. unfold colEntry.
    destruct (negb (nonEmpty (trim x))); [reflexivity |].
    destruct (rePathRange x) as [[g1 g2]|]; [now rewrite <- app_assoc |].
    destruct (reFileHeading x); [now rewrite <- app_assoc |].
    destruct (truthyB (files_only p) && negb (startsWith " " x));
      [now rewrite <- app_assoc | reflexivity]. }
  apply H.
Qed.

(** C8, as stated, fails for the semantic engine: two units of one file
    put the same entry into the file list twice. *)
Lemma matched_files_counterexample :
  let r := fst (execColgrep (constHost (exited 0 sampleColOutput "Indexed 12 files"))
                  (queryOnly "parse") "/repo" []) in
  isError r = false
  /\ exists d, details r = Some d
               /\ files d = Some ["src/a.ts"; "src/a.ts"]
               /\ ~ NoDup ["src/a.ts"; "src/a.ts"].
Proof.
  cbv zeta. split; [vm_compute; reflexivity |].
  eexists. split; [vm_compute; reflexivity |]. split; [reflexivity |].
  intros H. apply NoDup_cons in H as [H _]. apply H. now left.
Qed.

(** C8, restated to what the code does.  On a successful lexical run the file list of the
    details has no duplicates and holds exactly the heading lines of the
    response body, ordered by their first appearance in that body.  On a
    successful semantic run the list holds the entries of the lines of the
    body in order, one for every line that names a range or a file, with
    repetitions kept; only the files-matched count is taken over distinct
    files. *)
Theorem matched_files_list (host : Host) (p : Params) cwd tr :
  (forall d fs,
     details (fst (execRipgrep host p cwd tr)) = Some d -> files d = Some fs ->
     exists n m body,
       text (fst (execRipgrep host p cwd tr))
       = headerLine "s" n m +:+ String LF body
       /\ NoDup fs
       /\ (forall f, In f fs <-> In f (splitLines body) /\ isHeadingLine f = true)
       /\ (forall a b f g, nth_error fs a = Some f -> nth_error fs b = Some g ->
             (a < b)%nat ->
             (firstIndex f (splitLines body) < firstIndex g (splitLines body))%nat))
  /\ (forall d fs,
        details (fst (execColgrep host p cwd tr)) = Some d -> files d = Some fs ->
        exists n m body,
          text (fst (execColgrep host p cwd tr))
          = headerLine "ix" n m +:+ String LF body
          /\ fs = flat_map (colEntry p) (splitLines body)
          /\ filesMatched d
             = Some (Z.of_nat (length (remove_dups (map stripRange fs))))).
Proof.
  split.
  - destruct (execRipgrep_response host p cwd tr) as [-> _]. intros d fs Hd Hfs.
    set (res := fst (rgRun host p cwd tr)) in *.
    assert (Hok : isError (rgResponse p cwd res) = false).
    { pose proof (rgResponse_details p cwd res) as H. rewrite Hd in H. tauto. }
    destruct (rgResponse_text p cwd res Hok)
      as (d' & n & m & body & Hd' & _ & _ & Htext & _ & _ & Hfiles).
    assert (d' = d) as -> by congruence.
    exists (showZ n), (showZ m), body. split; [exact Htext |].
    rewrite (Hfiles fs Hfs). apply rgFiles_first_appearance.
  - rewrite execColgrep_response. cbn [fst]. intros d fs Hd Hfs.
    set (res := host _) in *.
    assert (Hok : isError (colResponse p cwd res) = false).
    { pose proof (colResponse_details p cwd res) as H. rewrite Hd in H. tauto. }
    destruct (colResponse_text p cwd res Hok)
      as (d' & n & m & body & Hd' & _ & _ & Htext & _ & _ & Hfiles).
    assert (d' = d) as -> by congruence.
    exists (showIndexed n), (showZ m), body. split; [exact Htext |].
    pose proof (Hfiles fs Hfs) as Hfs'. rewrite colFiles_entries in Hfs'.
    split; [exact Hfs' |].
    revert Hd Hfs. unfold colResponse. destruct (killed res); [discriminate |].
    destruct (negb (code res =? 0)); [discriminate |]. cbv zeta.
    destruct (stdout res) as [o|]; [| intros H; injection H as <-; discriminate].
    destruct (negb (nonEmpty (trim (stripAnsi o))) || startsWith "No results found" _);
      [intros H; injection H as <-; discriminate |].
    intros H. injection H as <-. cbn. intros H. injection H as <-. reflexivity.
Qed.

Lemma matched_files_list_witness :
  exists d fs,
    details (fst (execRipgrep (constHost (exited 0 sampleRgOutput ""))
                    (patternOnly "foo") "/repo" [])) = Some d
    /\ files d = Some fs /\ NoDup fs /\ fs = ["a.ts"; "b.ts"].
Proof.
  eexists _, _.
  assert (Hd : details (fst (execRipgrep (constHost (exited 0 sampleRgOutput ""))
                               (patternOnly "foo") "/repo" []))
               = Some {| resultCount := 3; d_query := None; d_pattern := Some "foo";
                         searchPath := Some "/repo"; files := Some ["a.ts"; "b.ts"];
                         engine := Some rg; fallback := None;
                         filesSearched := Some 5; filesMatched := Some 2;
                         searchComplete := Some true |})
    by (vm_compute; reflexivity).
  split; [exact Hd |]. split; [reflexivity |]. split; [| reflexivity].
  destruct (proj1 (matched_files_list (constHost (exited 0 sampleRgOutput ""))
                     (patternOnly "foo") "/repo" []) _ _ Hd eq_refl)
    as (n & m & body & _ & Hnd & _).
  exact Hnd.
Defined.

(** ** Offset pass *)

Lemma isMatchLine_not_heading (l : string) :
  isMatchLine l = true -> isHeadingLine l = false.
Proof.
  unfold isMatchLine, isHeadingLine, isNumberedLine.
  destruct (span isDigit l) as [ds r]. intros H.
  apply andb_true_iff in H as [-> H]. destruct r as [|c r]; [discriminate |].
  rewrite H. cbn. now rewrite andb_false_r.
Qed.

Lemma isHeadingLine_nonEmpty (l : string) :
  isHeadingLine l = true -> nonEmpty l = true.
Proof.
  unfold isHeadingLine. intros H.
  now apply andb_true_iff in H as [H _]; apply andb_true_iff in H as [H _];
    apply andb_true_iff in H as [H _].
Qed.

Lemma lastHeading_app (h : string) (a b : list string) :
  lastHeading h (a ++ b) = lastHeading (lastHeading h a) b.
Proof. revert h. induction a as [|x a IH]; intros h; simpl; [reflexivity | apply IH]. Qed.

Lemma matchesUnder_app (h : string) (a b : list string) :
  matchesUnder h (a ++ b) = matchesUnder h a ++ matchesUnder (lastHeading h a) b.
Proof.
  revert h. induction a as [|x a IH]; intros h; simpl; [reflexivity |].
  destruct (isHeadingLine x); [apply IH |].
  destruct (isMatchLine x); [simpl; f_equal |]; apply IH.
Qed.

Lemma countMatches_app (a b : list string) :
  countMatches (a ++ b) = (countMatches a + countMatches b)%nat.
Proof. unfold countMatches. now rewrite List.filter_app, length_app. Qed.

Lemma length_matchesUnder (h : string) (l : list string) :
  length (matchesUnder h l) = countMatches l.
Proof.
  revert h. induction l as [|x l IH]; intros h; [reflexivity |].
  unfold countMatches in *. simpl.
  destruct (isHeadingLine x) eqn:Hh.
  - destruct (isMatchLine x) eqn:Hm; [| apply IH].
    apply isMatchLine_not_heading in Hm. congruence.
  - destruct (isMatchLine x); simpl; now rewrite IH.
Qed.

Lemma lastHeading_cases (h : string) (l : list string) :
  lastHeading h l = h
  \/ (In (lastHeading h l) l /\ isHeadingLine (lastHeading h l) = true).
Proof.
  revert h. induction l as [|x l IH]; intros h; simpl; [now left |].
  destruct (isHeadingLine x) eqn:Hx.
  - destruct (IH x) as [-> | [H1 H2]]; right; auto.
  - destruct (IH h) as [-> | [H1 H2]]; [now left | right; auto].
Qed.

Lemma offsetRun_snoc (k : Z) (l : list string) (x : string) :
  offsetRun k (l ++ [x]) = offsetStep k (offsetRun k l) x.
Proof. unfold offsetRun. now rewrite fold_left_app. Qed.

Lemma headingsFollowed_snoc_plain (kept : list string) (x : string) :
  headingsFollowed kept -> isHeadingLine x = false -> headingsFollowed (kept ++ [x]).
Proof.
  intros H Hx n h Hn Hh.
  destruct (Nat.lt_ge_cases n (length kept)) as [Hlt | Hge].
  - rewrite nth_error_app1 in Hn by exact Hlt.
    destruct (H n h Hn Hh) as (m & Hm & Hmm). exists m. split; [| exact Hmm].
    rewrite nth_error_app1; [exact Hm |]. apply nth_error_Some. congruence.
  - rewrite nth_error_app2 in Hn by exact Hge.
    destruct (n - length kept)%nat as [|j]; [| destruct j; discriminate].
    injection Hn as <-. congruence.
Qed.

Lemma headingsFollowed_snoc_pair (kept : list string) (f x : string) :
  headingsFollowed kept -> isMatchLine x = true -> headingsFollowed (kept ++ [f; x]).
Proof.
  intros H Hx n h Hn Hh.
  destruct (Nat.lt_ge_cases n (length kept)) as [Hlt | Hge].
  - rewrite nth_error_app1 in Hn by exact Hlt.
    destruct (H n h Hn Hh) as (m & Hm & Hmm). exists m. split; [| exact Hmm].
    rewrite nth_error_app1; [exact Hm |]. apply nth_error_Some. congruence.
  - rewrite nth_error_app2 in Hn by exact Hge.
    rewrite nth_error_app2 by lia.
    replace (S n - length kept)%nat with (S (n - length kept)) by lia.
    destruct (n - length kept)%nat as [|j].
    + exists x. split; [reflexivity | exact Hx].
    + destruct j; [| destruct j; discriminate].
      injection Hn as <-. apply isMatchLine_not_heading in Hx. congruence.
Qed.

Lemma countMatches_snoc (l : list string) (x : string) :
  countMatches (l ++ [x])
  = (countMatches l + if isMatchLine x then 1 else 0)%nat.
Proof.
  rewrite countMatches_app. unfold countMatches at 2. simpl.
  now destruct (isMatchLine x).
Qed.

Lemma matchesUnder_snoc (h : string) (l : list string) (x : string) :
  matchesUnder h (l ++ [x])
  = matchesUnder h l
    ++ (if isHeadingLine x then []
        else if isMatchLine x then [(lastHeading h l, x)] else []).
Proof.
  rewrite matchesUnder_app. simpl.
  destruct (isHeadingLine x); [reflexivity |]. now destruct (isMatchLine x).
Qed.

Lemma lastHeading_snoc (h : string) (l : list string) (x : string) :
  lastHeading h (l ++ [x]) = if isHeadingLine x then x else lastHeading h l.
Proof. now rewrite lastHeading_app. Qed.

(** What the offset loop has established after any prefix of the lines. *)
Lemma offsetRun_invariant (k : Z) (l : list string) :
  0 <= k ->
  let st := offsetRun k l in
  skipped st = Z.min k (Z.of_nat (countMatches l))
  /\ matchesUnder "" (kept st) = skipn (Z.to_nat k) (matchesUnder "" l)
  /\ headingsFollowed (kept st)
  /\ ((currentFile st = lastHeading "" l /\ nonEmpty (currentFile st) = true)
      \/ (currentFile st = "" /\ lastHeading "" (kept st) = lastHeading "" l))
  /\ Forall (fun x => In x l) (kept st).
Proof.
  intros Hk. induction l as [|x l IH] using rev_ind.
  - cbn. repeat split; try lia.
    + now rewrite skipn_nil.
    + intros n h Hn. now destruct n.
    + now right.
    + constructor.
  - cbv zeta in *. destruct IH as (Hsk & Hmu & Hhf & Hcur & Hin).
    assert (Hin' : Forall (fun y => In y (l ++ [x])) (kept (offsetRun k l))).
    { eapply Forall_impl; [exact Hin |]. intros y Hy. apply in_or_app. now left. }
    assert (Hx : In x (l ++ [x])) by (apply in_or_app; right; now left).
    assert (Hlen : length (matchesUnder "" l) = countMatches l)
      by apply length_matchesUnder.
    rewrite offsetRun_snoc, countMatches_snoc, matchesUnder_snoc, lastHeading_snoc.
    unfold offsetStep.
    destruct (isHeadingLine x) eqn:Hh.
    + (* a heading line *)
      assert (Hm : isMatchLine x = false).
      { destruct (isMatchLine x) eqn:E; [| reflexivity].
        apply isMatchLine_not_heading in E. congruence. }
      rewrite Hm, Nat.add_0_r, app_nil_r. cbn [skipped kept currentFile].
      repeat split; try assumption.
      left. split; [reflexivity | now apply isHeadingLine_nonEmpty].
    + destruct (isMatchLine x) eqn:Hm.
      * destruct (skipped (offsetRun k l) <? k) eqn:Hlt.
        -- (* a matched line that is skipped *)
           apply Z.ltb_lt in Hlt. cbn [skipped kept currentFile].
           repeat split; try assumption.
           ++ lia.
           ++ rewrite Hmu. rewrite !skipn_all2; [reflexivity | |];
                rewrite ?length_app, Hlen; simpl; lia.
        -- apply Z.ltb_ge in Hlt.
           assert (Hge : (Z.to_nat k <= length (matchesUnder "" l))%nat)
             by (rewrite Hlen; lia).
           assert (Hskip : skipn (Z.to_nat k)
                             (matchesUnder "" l ++ [(lastHeading "" l, x)])
                           = skipn (Z.to_nat k) (matchesUnder "" l)
                             ++ [(lastHeading "" l, x)]).
           { rewrite skipn_app.
             replace (Z.to_nat k - length (matchesUnder "" l))%nat with 0%nat by lia.
             reflexivity. }
           destruct (nonEmpty (currentFile (offsetRun k l))) eqn:Hne;
             cbn [skipped kept currentFile].
           ++ (* kept, after the pending heading *)
              destruct Hcur as [[Hc _] | [Hc _]]; [| rewrite Hc in Hne; discriminate].
              assert (Hhead : isHeadingLine (lastHeading "" l) = true
                              /\ In (lastHeading "" l) l).
              { destruct (lastHeading_cases "" l) as [He | [H1 H2]]; [| tauto].
                rewrite Hc, He in Hne. discriminate. }
              repeat split.
              ** lia.
              ** rewrite matchesUnder_app, Hmu, Hskip, Hc. simpl.
                 destruct Hhead as [-> _]. now rewrite Hh, Hm.
              ** now apply headingsFollowed_snoc_pair.
              ** right. split; [reflexivity |].
                 rewrite lastHeading_app, Hc. simpl.
                 destruct Hhead as [-> _]. now rewrite Hh.
              ** apply Forall_app. split; [exact Hin' |].
                 rewrite Hc. repeat constructor; [| exact Hx].
                 apply in_or_app. left. tauto.
           ++ (* kept, the heading being out already *)
              destruct Hcur as [[_ Hc] | [Hc Hout]]; [congruence |].
              repeat split.
              ** lia.
              ** rewrite matchesUnder_snoc, Hh, Hm, Hmu, Hskip. now rewrite Hout.
              ** now apply headingsFollowed_snoc_plain.
              ** right. split; [exact Hc |]. now rewrite lastHeading_snoc, Hh.
              ** apply Forall_app. split; [exact Hin' | repeat constructor; exact Hx].
      * (* any other line is kept *)
        rewrite Nat.add_0_r, app_nil_r. cbn [skipped kept currentFile].
        repeat split; try assumption.
        -- now rewrite matchesUnder_snoc, Hh, Hm, app_nil_r.
        -- now apply headingsFollowed_snoc_plain.
        -- destruct Hcur as [Hc | [Hc Hout]]; [now left | right].
           split; [exact Hc |]. now rewrite lastHeading_snoc, Hh.
        -- apply Forall_app. split; [exact Hin' | repeat constructor; exact Hx].
Qed.

Lemma In_matchesUnder_pair (h0 : string) (kept : list string) n h m :
  nth_error kept n = Some h -> nth_error kept (S n) = Some m ->
  isHeadingLine h = true -> isMatchLine m = true ->
  In (h, m) (matchesUnder h0 kept).
Proof.
  intros Hn Hm Hh Hmm.
  destruct (nth_error_split _ _ Hn) as (a & rest & -> & Hlen).
  rewrite nth_error_app2 in Hm by lia.
  replace (S n - length a)%nat with 1%nat in Hm by lia.
  destruct rest as [|m' b]; [discriminate |]. injection Hm as ->.
  rewrite matchesUnder_app. apply in_or_app. right. simpl.
  rewrite Hh, Hmm, (isMatchLine_not_heading m Hmm). now left.
Qed.

Lemma allSpace_append (a b : string) :
  allSpace (a +:+ b) = allSpace a && allSpace b.
Proof.
  induction a as [|c a IH]; simpl; [reflexivity |].
  now rewrite IH, andb_assoc.
Qed.

Lemma trimStart_allSpace (s : string) : allSpace s = true -> trimStart s = "".
Proof.
  induction s as [|c s IH]; simpl; [reflexivity |].
  intros H. apply andb_true_iff in H as [-> H]. now apply IH.
Qed.

Lemma trimStart_empty_allSpace (s : string) : trimStart s = "" -> allSpace s = true.
Proof.
  induction s as [|c s IH]; simpl; [reflexivity |].
  destruct (isSpace c); [exact IH | discriminate].
Qed.

Lemma trimEnd_empty_head (c : ascii) (r : string) :
  trimEnd (String c r) = "" -> isSpace c = true.
Proof.
  simpl. destruct (trimEnd r); [| discriminate].
  now destruct (isSpace c).
Qed.

Lemma trim_empty_allSpace (s : string) : trim s = "" <-> allSpace s = true.
Proof.
  unfold trim. split.
  - intros H. apply trimStart_empty_allSpace.
    destruct (trimStart s) as [|c r] eqn:E; [reflexivity |].
    apply trimEnd_empty_head in H. pose proof (trimStart_head _ _ _ E). congruence.
  - intros H. now rewrite trimStart_allSpace.
Qed.



(** What the offset pass keeps of any list of lines. *)
Lemma offsetPass_spec (k : Z) (lines : list string) :
  0 < k ->
  let kept := offsetPass k lines in
  matchesUnder "" kept = skipn (Z.to_nat k) (matchesUnder "" lines)
  /\ countMatches kept = (countMatches lines - Z.to_nat k)%nat
  /\ (forall n h, nth_error kept n = Some h -> isHeadingLine h = true ->
        exists m, nth_error kept (S n) = Some m /\ isMatchLine m = true
                  /\ In (h, m) (skipn (Z.to_nat k) (matchesUnder "" lines)))
  /\ Forall (fun x => In x lines) kept.
Proof.
  intros Hk. cbv zeta. unfold offsetPass. fold (offsetRun k lines).
  destruct (offsetRun_invariant k lines ltac:(lia)) as (_ & Hmu & Hhf & _ & Hin).
  split; [exact Hmu |]. split; [| split; [| exact Hin]].
  - rewrite <- (length_matchesUnder "" (kept _)), Hmu, length_skipn.
    now rewrite length_matchesUnder.
  - intros n h Hn Hh. destruct (Hhf n h Hn Hh) as (m & Hm & Hmm).
    exists m. split; [exact Hm |]. split; [exact Hmm |].
    rewrite <- Hmu. eapply In_matchesUnder_pair; eauto.
Qed.







(** The scenario of the specification: ten matches and offset 3 give a
    result count of 7, and the heading of the first file stays with its
    one remaining match. *)
Example offset_three_of_ten :
  let r := fst (execRipgrep (constHost (exited 0 sampleRgTen ""))
                  (setOffset (Some 3) (patternOnly "foo")) "/repo" []) in
  text r = joinLines ["[s:8 m:3 complete]"; "a.ts"; "4:foo"; "";
                      "b.ts"; "10:foo"; "11:foo"; "12:foo"; "";
                      "c.ts"; "20:foo"; "21:foo"; "22:foo"]
  /\ exists d, details r = Some d /\ resultCount d = 7
               /\ files d = Some ["a.ts"; "b.ts"; "c.ts"].
Proof.
  cbv zeta. split; [vm_compute; reflexivity |].
  eexists. split; [vm_compute; reflexivity |]. split; reflexivity.
Qed.


(** ** Contention gate *)

Lemma NoDup_map_inj {A B : Type} (f : A -> B) (l : list A) (x y : A) :
  NoDup (map f l) -> In x l -> In y l -> f x = f y -> x = y.
Proof.
  induction l as [|a l IH]; simpl; [tauto |].
  intros Hnd. apply NoDup_cons in Hnd as [Hna Hnd].
  intros [-> | Hx] [-> | Hy] Hf; auto.
  - exfalso. apply Hna. apply list_elem_of_In. rewrite Hf. now apply in_map.
  - exfalso. apply Hna. apply list_elem_of_In. rewrite <- Hf. now apply in_map.
Qed.

Lemma releaseCount_log (lock : nat) (s : Gate.State) (log : list (nat * Gate.Cause)) :
  Gate.releaseLog s = log ->
  Gate.releaseCount lock s = length (List.filter (fun r => Nat.eqb (fst r) lock) log).
Proof. now intros <-. Qed.

Lemma releaseCount_absent (lock : nat) (s : Gate.State) :
  ~ In lock (logLocks s) -> Gate.releaseCount lock s = 0%nat.
Proof.
  unfold Gate.releaseCount, logLocks. induction (Gate.releaseLog s) as [|[n c] log IH];
    simpl; [reflexivity |].
  intros H. destruct (Nat.eqb n lock) eqn:E.
  - apply Nat.eqb_eq in E. tauto.
  - apply IH. tauto.
Qed.

Lemma releaseCount_present (lock : nat) (s : Gate.State) :
  (0 < Gate.releaseCount lock s)%nat -> In lock (logLocks s).
Proof.
  intros H. destruct (in_dec Nat.eq_dec lock (logLocks s)) as [Hin | Hout]; [exact Hin |].
  rewrite releaseCount_absent in H by exact Hout. lia.
Qed.

Lemma releaseCount_invoke (lock n : nat) why (s : Gate.State) :
  Gate.releaseCount lock (Gate.invoke n why s)
  = (Gate.releaseCount lock s + if Nat.eqb n lock then 1 else 0)%nat.
Proof.
  unfold Gate.releaseCount, Gate.invoke. cbn [Gate.releaseLog].
  rewrite List.filter_app, length_app. simpl. now destruct (Nat.eqb n lock).
Qed.

Lemma grant_same_lock (seen : list string) (s : Gate.State) n id1 t1 id2 t2 :
  GateInv seen s -> In (n, id1, t1) (Gate.grantLog s) ->
  In (n, id2, t2) (Gate.grantLog s) -> id1 = id2 /\ t1 = t2.
Proof.
  intros I H1 H2.
  pose proof (NoDup_map_inj (fun g => fst (fst g)) _ _ _ (inv_grant_locks _ _ I) H1 H2 eq_refl).
  split; congruence.
Qed.

Lemma grant_same_id (seen : list string) (s : Gate.State) id n1 t1 n2 t2 :
  GateInv seen s -> In (n1, id, t1) (Gate.grantLog s) ->
  In (n2, id, t2) (Gate.grantLog s) -> n1 = n2 /\ t1 = t2.
Proof.
  intros I H1 H2.
  pose proof (NoDup_map_inj (fun g => snd (fst g)) _ _ _ (inv_grant_ids _ _ I) H1 H2 eq_refl).
  split; congruence.
Qed.

Lemma inv_init : GateInv [] Gate.init.
Proof.
  split; cbn; try (intros; simplify_map_eq; fail); try constructor; try tauto.
Qed.

Lemma ticket_frame (s s' : Gate.State) n id t :
  Gate.releases s' !! id = Gate.releases s !! id ->
  Gate.releaseCount n s' = Gate.releaseCount n s ->
  (forall h t', Gate.timers s !! id = Some h -> Gate.armed s !! h = Some (id, t') ->
                Gate.timers s' !! id = Some h /\ Gate.armed s' !! h = Some (id, t')) ->
  ticketHeld s n id t \/ ticketReleased s n id ->
  ticketHeld s' n id t \/ ticketReleased s' n id.
Proof.
  intros Hr Hl Ht [(H1 & H2 & h & H3 & H4) | (H1 & H2)]; [left | right].
  - unfold ticketHeld. rewrite Hr, Hl.
    split; [exact H1 |]. split; [exact H2 |]. exists h. now apply Ht.
  - unfold ticketReleased. now rewrite Hr, Hl.
Qed.

Lemma inv_tool_call (seen : list string) (s s' : Gate.State) ev :
  GateInv seen s -> Gate.step (Gate.ToolCall ev) s = Some s' ->
  NoDup (seen ++ Gate.callIds [Gate.ToolCall ev]) ->
  GateInv (seen ++ Gate.callIds [Gate.ToolCall ev]) s'.
Proof.
  intros I Hstep Hnd. cbn in Hstep, Hnd |- *.
  destruct (Gate.isGated ev).
  2: { injection Hstep as <-. now rewrite app_nil_r. }
  injection Hstep as <-.
  assert (Hfresh : ~ In (Gate.toolCallId ev) seen).
  { apply NoDup_app in Hnd as (_ & Hd & _). intros H.
    apply (Hd (Gate.toolCallId ev)); [now apply list_elem_of_In | now left]. }
  destruct I as [Iw Iwi Igi Igl Igs Ir It Iti Itl Ial Il Is].
  split; cbn [Gate.waiting Gate.acquired Gate.releases Gate.timers Gate.armed
              Gate.nextTimer Gate.grantLog Gate.releaseLog grantIds grantLocks logLocks];
    try assumption.
  - intros n id H. destruct (decide (n = Gate.acquired s)) as [-> | Hne].
    + rewrite lookup_insert_eq in H. injection H as <-.
      split; [lia |]. split; [apply in_or_app; right; now left |]. split.
      * intros H. apply in_map_iff in H as ([[n' id'] t'] & Heq & Hin).
        cbn in Heq. subst id'. apply Igs in Hin. tauto.
      * intros H. apply in_map_iff in H as ([[n' id'] t'] & Heq & Hin).
        cbn in Heq. subst n'. apply Igs in Hin. lia.
    + rewrite lookup_insert_ne in H by congruence.
      destruct (Iw n id H) as (H1 & H2 & H3 & H4).
      split; [lia |]. split; [apply in_or_app; now left |]. tauto.
  - intros n1 n2 id H1 H2.
    destruct (decide (n1 = Gate.acquired s)) as [-> | Hne1];
      destruct (decide (n2 = Gate.acquired s)) as [-> | Hne2]; [reflexivity | | |].
    + rewrite lookup_insert_eq in H1. rewrite lookup_insert_ne in H2 by congruence.
      injection H1 as <-. apply Iw in H2. tauto.
    + rewrite lookup_insert_eq in H2. rewrite lookup_insert_ne in H1 by congruence.
      injection H2 as <-. apply Iw in H1. tauto.
    + rewrite lookup_insert_ne in H1, H2 by congruence. eauto.
  - intros n id t H. destruct (Igs n id t H).
    split; [lia | apply in_or_app; now left].
  - intros id Hid. apply in_app_iff in Hid as [Hid | [<- | []]].
    + destruct (Is id Hid) as [[n Hn] | Hg]; [| now right].
      left. exists n. rewrite lookup_insert_ne; [exact Hn |].
      apply Iw in Hn. lia.
    + left. exists (Gate.acquired s). apply lookup_insert_eq.
Qed.

Lemma inv_tick (seen : list string) (s s' : Gate.State) dt :
  GateInv seen s -> Gate.step (Gate.Tick dt) s = Some s' -> GateInv seen s'.
Proof.
  intros I Hstep. cbn in Hstep. destruct (0 <=? dt); [| discriminate].
  injection Hstep as <-.
  destruct I as [Iw Iwi Igi Igl Igs Ir It Iti Itl Ial Il Is].
  split; cbn [Gate.waiting Gate.acquired Gate.releases Gate.timers Gate.armed
              Gate.nextTimer Gate.grantLog Gate.releaseLog grantIds grantLocks logLocks];
    assumption.
Qed.

Lemma inv_resume (seen : list string) (s s' : Gate.State) n :
  GateInv seen s -> Gate.step (Gate.Resume n) s = Some s' -> GateInv seen s'.
Proof.
  intros I Hstep. cbn in Hstep.
  destruct (Gate.waiting s !! n) as [id|] eqn:Hw; [| discriminate].
  destruct (Gate.prevResolved n s); [| discriminate]. injection Hstep as <-.
  pose proof (inv_waiting _ _ I n id Hw) as (Hn & Hseen & Hid & Hlock).
  assert (Hcount : Gate.releaseCount n s = 0%nat).
  { apply releaseCount_absent. intros H. apply Hlock. now apply (inv_log _ _ I). }
  destruct I as [Iw Iwi Igi Igl Igs Ir It Iti Itl Ial Il Is].
  split; cbn [Gate.waiting Gate.acquired Gate.releases Gate.timers Gate.armed
              Gate.nextTimer Gate.grantLog Gate.releaseLog];
    unfold grantIds, grantLocks, logLocks in *;
    cbn [Gate.grantLog Gate.releaseLog]; rewrite ?map_app; cbn [map fst snd].
  - intros n' id' H. apply lookup_delete_Some in H as [Hne H].
    destruct (Iw n' id' H) as (H1 & H2 & H3 & H4).
    split; [exact H1 |]. split; [exact H2 |]. rewrite !in_app_iff. cbn [In]. split.
    + intros [H0 | [<- | []]]; [tauto |]. apply Hne. eauto.
    + intros [H0 | [H0 | []]]; [tauto | congruence].
  - intros n1 n2 id' H1 H2.
    apply lookup_delete_Some in H1 as [_ H1]. apply lookup_delete_Some in H2 as [_ H2].
    eauto.
  - apply NoDup_app. split; [exact Igi |]. split; [| apply NoDup_singleton].
    intros x Hx Hx'. apply list_elem_of_singleton in Hx'. subst x.
    apply Hid. now apply list_elem_of_In.
  - apply NoDup_app. split; [exact Igl |]. split; [| apply NoDup_singleton].
    intros x Hx Hx'. apply list_elem_of_singleton in Hx'. subst x.
    apply Hlock. now apply list_elem_of_In.
  - intros n' id' t H. apply in_app_iff in H as [H | [H | []]]; [eauto |].
    injection H as <- <- <-. auto.
  - intros id' n' H. destruct (decide (id = id')) as [<- | Hne].
    + rewrite lookup_insert_eq in H. injection H as <-.
      exists (Gate.now s). apply in_or_app. right. now left.
    + rewrite lookup_insert_ne in H by exact Hne.
      destruct (Ir id' n' H) as [t Ht]. exists t. apply in_or_app. now left.
  - intros n' id' t H. apply in_app_iff in H as [H | [H | []]].
    + assert (Hne : id <> id').
      { intros <-. apply Hid. apply in_map_iff. now exists (n', id, t). }
      eapply ticket_frame; [| | | exact (It n' id' t H)];
        cbn [Gate.releases Gate.releaseLog Gate.timers Gate.armed].
      * now rewrite lookup_insert_ne.
      * reflexivity.
      * intros h t' Hh Hx. rewrite lookup_insert_ne by exact Hne.
        split; [exact Hh |]. rewrite lookup_insert_ne; [exact Hx |].
        apply Ial in Hx. lia.
    + injection H as <- <- <-. left. unfold ticketHeld.
      cbn [Gate.releases Gate.timers Gate.armed]. rewrite lookup_insert_eq.
      split; [reflexivity |]. split; [exact Hcount |].
      exists (Gate.nextTimer s). now rewrite !lookup_insert_eq.
  - intros id1 id2 h H1 H2.
    destruct (decide (id = id1)) as [<- | Hne1];
      destruct (decide (id = id2)) as [<- | Hne2]; [reflexivity | | |].
    + rewrite lookup_insert_eq in H1. rewrite lookup_insert_ne in H2 by exact Hne2.
      injection H1 as <-. apply Itl in H2. lia.
    + rewrite lookup_insert_eq in H2. rewrite lookup_insert_ne in H1 by exact Hne1.
      injection H2 as <-. apply Itl in H1. lia.
    + rewrite lookup_insert_ne in H1, H2 by assumption. eauto.
  - intros id' h H. destruct (decide (id = id')) as [<- | Hne].
    + rewrite lookup_insert_eq in H. injection H as <-. lia.
    + rewrite lookup_insert_ne in H by exact Hne. apply Itl in H. lia.
  - intros h x H. destruct (decide (Gate.nextTimer s = h)) as [<- | Hne].
    + lia.
    + rewrite lookup_insert_ne in H by exact Hne. apply Ial in H. lia.
  - intros n' H. apply in_or_app. left. now apply Il.
  - intros id' Hid'. rewrite in_app_iff. cbn [In].
    destruct (Is id' Hid') as [[n' Hn'] | Hg]; [| now right; left].
    destruct (decide (n = n')) as [<- | Hne].
    + right. right. left. congruence.
    + left. exists n'. now rewrite lookup_delete_ne.
Qed.

(** The release of a ticket, after timers were cleared in a way that
    leaves the timers of the other calls alone. *)
Lemma inv_release (seen : list string) (s s1 : Gate.State) id why :
  GateInv seen s ->
  Gate.acquired s1 = Gate.acquired s -> Gate.waiting s1 = Gate.waiting s ->
  Gate.releases s1 = Gate.releases s -> Gate.nextTimer s1 = Gate.nextTimer s ->
  Gate.grantLog s1 = Gate.grantLog s -> Gate.releaseLog s1 = Gate.releaseLog s ->
  (forall i h, Gate.timers s1 !! i = Some h -> Gate.timers s !! i = Some h) ->
  (forall h x, Gate.armed s1 !! h = Some x -> Gate.armed s !! h = Some x) ->
  (forall id0 h t', id0 <> id ->
     Gate.timers s !! id0 = Some h -> Gate.armed s !! h = Some (id0, t') ->
     Gate.timers s1 !! id0 = Some h /\ Gate.armed s1 !! h = Some (id0, t')) ->
  GateInv seen (Gate.releaseTicket id why s1).
Proof.
  intros I Ea Ew Er En Eg El Ht Harm Hframe.
  assert (Hcount1 : forall n, Gate.releaseCount n s1 = Gate.releaseCount n s).
  { intros n. unfold Gate.releaseCount. now rewrite El. }
  unfold Gate.releaseTicket. rewrite Er.
  destruct (Gate.releases s !! id) as [lock|] eqn:Hrel.
  - destruct (inv_releases _ _ I id lock Hrel) as [t0 Hg0].
    assert (Hother : forall n id0 t, In (n, id0, t) (Gate.grantLog s) ->
                       id0 <> id -> n <> lock).
    { intros n id0 t Hg Hne ->.
      destruct (grant_same_lock _ _ _ _ _ _ _ I Hg Hg0). congruence. }
    destruct I as [Iw Iwi Igi Igl Igs Ir It Iti Itl Ial Il Is].
    split; unfold grantIds, grantLocks, logLocks, Gate.invoke in *;
      cbn [Gate.waiting Gate.acquired Gate.releases Gate.timers Gate.armed
           Gate.nextTimer Gate.grantLog Gate.releaseLog];
      rewrite ?Ea, ?Ew, ?En, ?Eg, ?El; try assumption.
    + intros id' n' H. apply lookup_delete_Some in H as [_ H]. eauto.
    + intros n id0 t Hg. destruct (decide (id0 = id)) as [-> | Hne].
      * assert (n = lock) as ->.
        { assert (Hin : In (n, id, t) (Gate.grantLog s)) by exact Hg.
          pose proof (NoDup_map_inj (fun g => snd (fst g)) _ _ _ Igi Hin Hg0 eq_refl).
          congruence. }
        right. split; cbn [Gate.releases]; [apply lookup_delete_eq |].
        destruct (It lock id t Hg) as [(_ & Hc & _) | [Hc _]]; [| congruence].
        unfold Gate.releaseCount in *. cbn [Gate.releaseLog].
        rewrite ?El, List.filter_app, length_app, Hc. simpl.
        now rewrite Nat.eqb_refl.
      * pose proof (Hother n id0 t Hg Hne) as Hnl.
        eapply ticket_frame; [| | | exact (It n id0 t Hg)];
          cbn [Gate.releases Gate.timers Gate.armed].
        -- now rewrite lookup_delete_ne.
        -- unfold Gate.releaseCount. cbn [Gate.releaseLog].
           rewrite ?El, List.filter_app, length_app. simpl.
           assert (Nat.eqb lock n = false) as -> by (apply Nat.eqb_neq; congruence).
           simpl. lia.
        -- intros h t' H1 H2. now apply Hframe.
    + intros i1 i2 h H1 H2. apply Ht in H1, H2. eauto.
    + intros i h H. apply Ht in H. eauto.
    + intros h x H. apply Harm in H. eauto.
    + intros n. rewrite map_app, in_app_iff. cbn [map fst In].
      intros [H | [<- | []]]; [auto |].
      apply in_map_iff. now exists (lock, id, t0).
  - destruct I as [Iw Iwi Igi Igl Igs Ir It Iti Itl Ial Il Is].
    split; unfold grantIds, grantLocks, logLocks in *;
      rewrite ?Ea, ?Ew, ?Er, ?En, ?Eg, ?El; try assumption.
    + intros n id0 t Hg. destruct (decide (id0 = id)) as [-> | Hne].
      * right. destruct (It n id t Hg) as [(Hc & _) | [_ Hc]]; [congruence |].
        split; [now rewrite Er | now rewrite Hcount1].
      * eapply ticket_frame; [| | | exact (It n id0 t Hg)].
        -- now rewrite Er.
        -- apply Hcount1.
        -- intros h t' H1 H2. now apply Hframe.
    + intros i1 i2 h H1 H2. apply Ht in H1, H2. eauto.
    + intros i h H. apply Ht in H. eauto.
    + intros h x H. apply Harm in H. eauto.
Qed.

Lemma inv_timer_fires (seen : list string) (s s' : Gate.State) h :
  GateInv seen s -> Gate.step (Gate.TimerFires h) s = Some s' -> GateInv seen s'.
Proof.
  intros I Hstep. cbn in Hstep.
  destruct (Gate.armed s !! h) as [[idc d]|] eqn:Harmed; [| discriminate].
  destruct (d <=? Gate.now s); [| discriminate]. injection Hstep as <-.
  apply (inv_release seen s); try reflexivity; try exact I;
    cbn [Gate.timers Gate.armed].
  - auto.
  - intros h0 x H. now apply lookup_delete_Some in H as [_ H].
  - intros id0 h0 t' Hne Ht Ha. split; [exact Ht |].
    rewrite lookup_delete_ne; [exact Ha |]. intros <-. congruence.
Qed.

Lemma inv_tool_result (seen : list string) (s s' : Gate.State) id :
  GateInv seen s -> Gate.step (Gate.ToolResult id) s = Some s' -> GateInv seen s'.
Proof.
  intros I Hstep. cbn in Hstep. injection Hstep as <-.
  destruct (Gate.timers s !! id) as [h'|] eqn:Htimer.
  - apply (inv_release seen s); try reflexivity; try exact I;
      cbn [Gate.timers Gate.armed].
    + intros i h H. now apply lookup_delete_Some in H as [_ H].
    + intros h0 x H. now apply lookup_delete_Some in H as [_ H].
    + intros id0 h0 t' Hne Ht Ha. rewrite lookup_delete_ne by congruence.
      split; [exact Ht |]. rewrite lookup_delete_ne; [exact Ha |].
      intros <-. apply Hne. exact (inv_timers_inj _ _ I _ _ _ Ht Htimer).
  - apply (inv_release seen s); try reflexivity; try exact I; auto.
Qed.

Lemma inv_step (seen : list string) (s s' : Gate.State) e :
  GateInv seen s -> Gate.step e s = Some s' ->
  NoDup (seen ++ Gate.callIds [e]) ->
  GateInv (seen ++ Gate.callIds [e]) s'.
Proof.
  intros I Hstep Hnd. destruct e as [ev | n | h | id | dt].
  - exact (inv_tool_call seen s s' ev I Hstep Hnd).
  - cbn. rewrite app_nil_r. exact (inv_resume seen s s' n I Hstep).
  - cbn. rewrite app_nil_r. exact (inv_timer_fires seen s s' h I Hstep).
  - cbn. rewrite app_nil_r. exact (inv_tool_result seen s s' id I Hstep).
  - cbn. rewrite app_nil_r. exact (inv_tick seen s s' dt I Hstep).
Qed.

Lemma callIds_cons (e : Gate.Event) (tr : list Gate.Event) :
  Gate.callIds (e :: tr) = Gate.callIds [e] ++ Gate.callIds tr.
Proof.
  destruct e as [ev | | | |]; try reflexivity.
  cbn. now destruct (Gate.isGated ev).
Qed.

Lemma inv_run (seen : list string) (s s' : Gate.State) tr :
  GateInv seen s -> Gate.run s tr = Some s' ->
  NoDup (seen ++ Gate.callIds tr) ->
  GateInv (seen ++ Gate.callIds tr) s'.
Proof.
  revert seen s. induction tr as [|e tr IH]; intros seen s I Hrun Hnd.
  - cbn in Hrun |- *. injection Hrun as <-. now rewrite app_nil_r.
  - cbn [Gate.run] in Hrun. destruct (Gate.step e s) as [s1|] eqn:Hstep; [| discriminate].
    rewrite callIds_cons, app_assoc in Hnd |- *.
    apply (IH (seen ++ Gate.callIds [e]) s1); [| exact Hrun | exact Hnd].
    apply (inv_step seen s s1 e I Hstep).
    now apply NoDup_app in Hnd as (Hnd & _).
Qed.

(** The invocations of the release function of a lock, once every call id
    is used once. *)
Lemma releaseCount_le_1 (seen : list string) (s : Gate.State) lock :
  GateInv seen s -> (Gate.releaseCount lock s <= 1)%nat.
Proof.
  intros I.
  destruct (in_dec Nat.eq_dec lock (logLocks s)) as [Hin | Hout].
  - apply (inv_log _ _ I) in Hin. apply in_map_iff in Hin as ([[n id] t] & Heq & Hg).
    cbn in Heq. subst n.
    destruct (inv_tickets _ _ I lock id t Hg) as [(_ & -> & _) | [_ ->]]; lia.
  - rewrite releaseCount_absent by exact Hout. lia.
Qed.

Lemma step_result_held (s : Gate.State) lock id t :
  ticketHeld s lock id t ->
  exists s', Gate.step (Gate.ToolResult id) s = Some s'
             /\ Gate.releaseLog s' = Gate.releaseLog s ++ [(lock, Gate.ByResult)]
             /\ Gate.releases s' !! id = None
             /\ Gate.timers s' !! id = None
             /\ lock ∈ Gate.resolved s'.
Proof.
  intros (Hrel & _ & h & Htimer & _). eexists. split; [reflexivity |].
  rewrite Htimer. unfold Gate.releaseTicket. cbn [Gate.releases]. rewrite Hrel.
  cbn. rewrite !lookup_delete_eq. repeat split. set_solver.
Qed.

Lemma step_timer_held (s : Gate.State) lock id t :
  ticketHeld s lock id t ->
  exists h, Gate.armed s !! h = Some (id, t + Gate.AUTO_RELEASE_MS)
    /\ (Gate.now s < t + Gate.AUTO_RELEASE_MS -> Gate.step (Gate.TimerFires h) s = None)
    /\ (t + Gate.AUTO_RELEASE_MS <= Gate.now s ->
        exists s', Gate.step (Gate.TimerFires h) s = Some s'
                   /\ Gate.releaseLog s' = Gate.releaseLog s ++ [(lock, Gate.ByTimer)]
                   /\ Gate.releases s' !! id = None
                   /\ lock ∈ Gate.resolved s').
Proof.
  intros (Hrel & _ & h & _ & Harmed). exists h. split; [exact Harmed |]. split.
  - intros Hlt. cbn. rewrite Harmed.
    assert ((t + Gate.AUTO_RELEASE_MS <=? Gate.now s) = false) as -> by lia.
    reflexivity.
  - intros Hle. cbn. rewrite Harmed.
    assert ((t + Gate.AUTO_RELEASE_MS <=? Gate.now s) = true) as -> by lia.
    eexists. split; [reflexivity |].
    unfold Gate.releaseTicket. cbn [Gate.releases]. rewrite Hrel.
    cbn. rewrite lookup_delete_eq. repeat split. set_solver.
Qed.

Lemma step_result_absent (s : Gate.State) id :
  Gate.releases s !! id = None ->
  exists s', Gate.step (Gate.ToolResult id) s = Some s'
             /\ Gate.releaseLog s' = Gate.releaseLog s
             /\ Gate.resolved s' = Gate.resolved s
             /\ Gate.releases s' = Gate.releases s
             /\ Gate.waiting s' = Gate.waiting s.
Proof.
  intros Hrel. eexists. split; [reflexivity |].
  unfold Gate.releaseTicket.
  destruct (Gate.timers s !! id); cbn [Gate.releases]; rewrite Hrel; repeat split.
Qed.

Lemma step_timer_absent (s s' : Gate.State) h id d :
  Gate.releases s !! id = None -> Gate.armed s !! h = Some (id, d) ->
  Gate.step (Gate.TimerFires h) s = Some s' ->
  Gate.releaseLog s' = Gate.releaseLog s /\ Gate.resolved s' = Gate.resolved s
  /\ Gate.releases s' = Gate.releases s.
Proof.
  intros Hrel Harmed. cbn. rewrite Harmed.
  destruct (d <=? Gate.now s); [| discriminate]. intros H. injection H as <-.
  unfold Gate.releaseTicket. cbn [Gate.releases]. rewrite Hrel. repeat split.
Qed.

Lemma releaseCount_after (s s' : Gate.State) lock why :
  Gate.releaseCount lock s = 0%nat ->
  Gate.releaseLog s' = Gate.releaseLog s ++ [(lock, why)] ->
  Gate.releaseCount lock s' = 1%nat.
Proof.
  unfold Gate.releaseCount. intros H ->.
  rewrite List.filter_app, length_app, H. simpl. now rewrite Nat.eqb_refl.
Qed.

(** C5. In every state the gate reaches when each gated call has its own
    call id: the release function of a lock is invoked at most once; every
    gated call is waiting for the lock or was granted it; and a granted
    call is in one of two situations.  Either its ticket is present and its
    lock not yet released: then the completion notification releases the
    lock, once, and removes the ticket, and the timer armed at the grant
    for 120000 ms cannot fire before its deadline and from the deadline on
    releases the lock, once, and removes the ticket.  Or its ticket is
    absent and its lock was released exactly once: then a completion
    notification, and a timer callback for that call, change neither the
    release history nor the resolved locks nor the tickets. *)
Theorem gate_released_exactly_once (tr : list Gate.Event) (s : Gate.State) :
  NoDup (Gate.callIds tr) ->
  Gate.run Gate.init tr = Some s ->
  Gate.AUTO_RELEASE_MS = 120000
  /\ (forall lock, (Gate.releaseCount lock s <= 1)%nat)
  /\ (forall id, In id (Gate.callIds tr) ->
        (exists n, Gate.waiting s !! n = Some id) \/ In id (grantIds s))
  /\ (forall lock id t, In (lock, id, t) (Gate.grantLog s) ->
        (ticketHeld s lock id t
         /\ (exists s', Gate.step (Gate.ToolResult id) s = Some s'
                        /\ Gate.releaseLog s' = Gate.releaseLog s ++ [(lock, Gate.ByResult)]
                        /\ Gate.releaseCount lock s' = 1%nat
                        /\ Gate.releases s' !! id = None
                        /\ lock ∈ Gate.resolved s')
         /\ (exists h, Gate.armed s !! h = Some (id, t + 120000)
               /\ (Gate.now s < t + 120000 -> Gate.step (Gate.TimerFires h) s = None)
               /\ (t + 120000 <= Gate.now s ->
                   exists s', Gate.step (Gate.TimerFires h) s = Some s'
                      /\ Gate.releaseLog s' = Gate.releaseLog s ++ [(lock, Gate.ByTimer)]
                      /\ Gate.releaseCount lock s' = 1%nat
                      /\ Gate.releases s' !! id = None
                      /\ lock ∈ Gate.resolved s')))
        \/ (ticketReleased s lock id
            /\ (exists s', Gate.step (Gate.ToolResult id) s = Some s'
                           /\ Gate.releaseLog s' = Gate.releaseLog s
                           /\ Gate.resolved s' = Gate.resolved s
                           /\ Gate.releases s' = Gate.releases s
                           /\ Gate.waiting s' = Gate.waiting s)
            /\ (forall h d s', Gate.armed s !! h = Some (id, d) ->
                  Gate.step (Gate.TimerFires h) s = Some s' ->
                  Gate.releaseLog s' = Gate.releaseLog s
                  /\ Gate.resolved s' = Gate.resolved s
                  /\ Gate.releases s' = Gate.releases s))).
Proof.
  intros Hnd Hrun.
  pose proof (inv_run [] Gate.init s tr inv_init Hrun Hnd) as I. cbn [app] in I.
  split; [reflexivity |]. split; [| split].
  - intros lock. exact (releaseCount_le_1 _ _ lock I).
  - exact (inv_seen _ _ I).
  - intros lock id t Hg.
    destruct (inv_tickets _ _ I lock id t Hg) as [Hheld | Hrel]; [left | right].
    + split; [exact Hheld |]. pose proof Hheld as (_ & Hc & _). split.
      * destruct (step_result_held s lock id t Hheld) as (s' & H1 & H2 & H3 & _ & H5).
        exists s'. split; [exact H1 |]. split; [exact H2 |].
        split; [exact (releaseCount_after _ _ _ _ Hc H2) |]. auto.
      * destruct (step_timer_held s lock id t Hheld) as (h & H1 & H2 & H3).
        exists h. split; [exact H1 |]. split; [exact H2 |].
        intros Hle. destruct (H3 Hle) as (s' & H4 & H5 & H6 & H7).
        exists s'. split; [exact H4 |]. split; [exact H5 |].
        split; [exact (releaseCount_after _ _ _ _ Hc H5) |]. auto.
    + split; [exact Hrel |]. destruct Hrel as [Hnone _]. split.
      * exact (step_result_absent s id Hnone).
      * intros h d s' Harmed Hstep.
        exact (step_timer_absent s s' h id d Hnone Harmed Hstep).
Qed.

Lemma gate_released_exactly_once_witness :
  let tr := [Gate.ToolCall (semanticCall "call-1"); Gate.Resume 0;
             Gate.Tick 120000; Gate.TimerFires 0; Gate.ToolResult "call-1"] in
  NoDup (Gate.callIds tr)
  /\ exists s, Gate.run Gate.init tr = Some s
               /\ Gate.releaseLog s = [(0%nat, Gate.ByTimer)]
               /\ forall lock, (Gate.releaseCount lock s <= 1)%nat.
Proof.
  cbv zeta.
  assert (Hnd : NoDup (Gate.callIds
            [Gate.ToolCall (semanticCall "call-1"); Gate.Resume 0;
             Gate.Tick 120000; Gate.TimerFires 0; Gate.ToolResult "call-1"]))
    by apply NoDup_singleton.
  split; [exact Hnd |].
  destruct (Gate.run Gate.init
              [Gate.ToolCall (semanticCall "call-1"); Gate.Resume 0;
               Gate.Tick 120000; Gate.TimerFires 0; Gate.ToolResult "call-1"])
    as [s|] eqn:Hrun; [| vm_compute in Hrun; discriminate].
  exists s. split; [reflexivity |]. split.
  - vm_compute in Hrun. injection Hrun as <-. reflexivity.
  - exact (proj1 (proj2 (gate_released_exactly_once _ s Hnd Hrun))).
Defined.

(** * Further properties of the code *)

(** ** Router: the calls it makes *)

Lemma rgRun_calls (host : Host) p cwd tr :
  snd (rgRun host p cwd tr) = tr ++ [rgCall p cwd]
  \/ snd (rgRun host p cwd tr) = tr ++ [rgCall p cwd; rgRetryCall p cwd].
Proof.
  rewrite rgRun_unfold. cbv zeta. destruct (wantsPcreRetry p _); auto.
Qed.

(** The calls of [execute], by the way it takes. *)
Lemma execute_calls_cases (host : Host) p cwd tr :
  (truthyS (query p) = false /\ truthyS (pattern p) = false
   /\ snd (execute host p cwd tr) = tr)
  \/ (truthyS (query p) = false /\ truthyS (pattern p) = true
      /\ snd (execute host p cwd tr) = snd (rgRun host p cwd tr))
  \/ (truthyS (query p) = true
      /\ (snd (execute host p cwd tr) = tr ++ [colCall p cwd]
          \/ snd (execute host p cwd tr)
             = snd (rgRun host (fallbackParams p) cwd (tr ++ [colCall p cwd])))).
Proof.
  destruct (execute_cases host p cwd tr)
    as [(Hq & Hp & ->) | [(Hq & Hp & ->) | (Hq & [[_ ->] | (_ & _ & ->)])]].
  - left. auto.
  - right. left. destruct (execRipgrep_response host p cwd tr) as [_ ->]. auto.
  - right. right. split; [exact Hq |]. left. reflexivity.
  - right. right. split; [exact Hq |]. right.
    rewrite execRipgrepFallback_response. cbn [snd].
    now destruct (execRipgrep_response host (fallbackParams p) cwd
                    (snd (execColgrep host p cwd tr))) as [_ ->].
Qed.

Lemma app_inv_same_head (A : Type) (l k : list A) : l = l ++ k -> k = [].
Proof.
  intros H. apply (f_equal (@length A)) in H. rewrite length_app in H.
  destruct k; [reflexivity | simpl in H; lia].
Qed.

(** X1. A request with neither a query nor a pattern is answered with an
    error and without any call to an engine, and it is the only kind of
    request for which the router makes no call. *)
Theorem invalid_request_makes_no_call (host : Host) (p : Params) cwd tr :
  (truthyS (query p) = false /\ truthyS (pattern p) = false
   <-> snd (execute host p cwd tr) = tr)
  /\ (truthyS (query p) = false -> truthyS (pattern p) = false ->
      fst (execute host p cwd tr)
      = errorResponse "Error: at least one of `query` or `pattern` must be provided.").
Proof.
  split.
  - split.
    + intros [Hq Hp].
      destruct (execute_calls_cases host p cwd tr)
        as [(_ & _ & H) | [(_ & Hp' & _) | (Hq' & _)]]; [exact H | congruence ..].
    + intros Hsame.
      destruct (execute_calls_cases host p cwd tr)
        as [(Hq & Hp & _) | [(_ & _ & H) | (_ & [H | H])]]; [auto | exfalso ..];
        rewrite H in Hsame.
      * destruct (rgRun_calls host p cwd tr) as [E | E]; rewrite E in Hsame;
          symmetry in Hsame; apply app_inv_same_head in Hsame; discriminate.
      * symmetry in Hsame. apply app_inv_same_head in Hsame. discriminate.
      * destruct (rgRun_calls host (fallbackParams p) cwd (tr ++ [colCall p cwd]))
          as [E | E]; rewrite E, <- app_assoc in Hsame;
          symmetry in Hsame; apply app_inv_same_head in Hsame; discriminate.
  - intros Hq Hp.
    destruct (execute_cases host p cwd tr)
      as [(_ & _ & ->) | [(_ & Hp' & _) | (Hq' & _)]]; [reflexivity | congruence ..].
Qed.

Lemma invalid_request_makes_no_call_witness :
  snd (execute (constHost killedRun) noParams "/repo" []) = []
  /\ isError (fst (execute (constHost killedRun) noParams "/repo" [])) = true.
Proof.
  destruct (invalid_request_makes_no_call (constHost killedRun) noParams "/repo" [])
    as [Hiff Herr].
  split.
  - apply Hiff. split; reflexivity.
  - rewrite (Herr eq_refl eq_refl). reflexivity.
Defined.

(** X2. The router makes at most three calls.  A request without a query
    calls only the lexical engine, at most twice.  A request with a query
    calls the semantic engine first and once, and the lexical engine at
    most twice after it.  Every lexical call has a timeout of 30000 ms and
    every semantic call one of 120000 ms. *)
Theorem execute_call_budget (host : Host) (p : Params) cwd tr :
  exists calls,
    snd (execute host p cwd tr) = tr ++ calls
    /\ (length calls <= 3)%nat
    /\ Forall (fun c => (cmd c = "rg" /\ timeout c = 30000)
                        \/ (cmd c = "colgrep" /\ timeout c = 120000)) calls
    /\ (truthyS (query p) = false ->
        (length calls <= 2)%nat /\ Forall (fun c => cmd c = "rg") calls)
    /\ (truthyS (query p) = true ->
        exists rest, calls = colCall p cwd :: rest
                     /\ (length rest <= 2)%nat
                     /\ Forall (fun c => cmd c = "rg") rest).
Proof.
  destruct (execute_calls_cases host p cwd tr)
    as [(Hq & Hp & ->) | [(Hq & Hp & ->) | (Hq & [-> | ->])]].
  - exists []. rewrite app_nil_r. split; [reflexivity |]. split; [simpl; lia |].
    split; [constructor |]. split; [| congruence].
    intros _. split; [simpl; lia | constructor].
  - destruct (rgRun_calls host p cwd tr) as [-> | ->]; eexists;
      (split; [reflexivity |]); (split; [simpl; lia |]);
      (split; [repeat constructor; left; split; reflexivity |]);
      (split; [| congruence]); intros _;
      (split; [simpl; lia | repeat constructor]).
  - exists [colCall p cwd]. split; [reflexivity |]. split; [simpl; lia |].
    split; [repeat constructor; right; split; reflexivity |].
    split; [congruence |]. intros _. exists []. repeat split; [simpl; lia | constructor].
  - destruct (rgRun_calls host (fallbackParams p) cwd (tr ++ [colCall p cwd]))
      as [-> | ->]; rewrite <- app_assoc; eexists;
      (split; [reflexivity |]); (split; [simpl; lia |]);
      (split; [constructor; [right; split; reflexivity
                            | repeat constructor; left; split; reflexivity] |]);
      (split; [congruence |]); intros _; eexists;
      (split; [reflexivity |]); (split; [simpl; lia | repeat constructor]).
Qed.

(** ** Fatal failures of the semantic engine *)

(** X3. A semantic run that was killed, and one that exits with a non-zero
    status and an empty or absent error text, is fatal: the router returns
    the fixed timeout message, or [Error: colgrep failed], after the single
    semantic call and starts no fallback. *)
Theorem semantic_timeout_is_fatal (host : Host) (p : Params) cwd tr :
  truthyS (query p) = true ->
  let result := host (tr ++ [colCall p cwd]) in
  (killed result = true ->
   execute host p cwd tr
   = (errorResponse
        "Error: colgrep timed out or was aborted. First-time indexing can take 30-90s.",
      tr ++ [colCall p cwd]))
  /\ (killed result = false -> code result <> 0 -> trim (textOf (stderr result)) = "" ->
      execute host p cwd tr
      = (errorResponse "Error: colgrep failed", tr ++ [colCall p cwd])).
Proof.
  intros Hq result.
  assert (Hcases := execute_cases host p cwd tr).
  rewrite execColgrep_response in Hcases. cbv zeta in Hcases. cbn [fst snd] in Hcases.
  fold (colCall p cwd) in Hcases. fold result in Hcases.
  split.
  - intros Hk.
    assert (Hr : colResponse p cwd result
                 = errorResponse
                     "Error: colgrep timed out or was aborted. First-time indexing can take 30-90s.")
      by (unfold colResponse; now rewrite Hk).
    rewrite Hr in Hcases.
    destruct Hcases as [(Hq' & _) | [(Hq' & _) | (_ & [[_ He] | (_ & Hrec & _)])]];
      [congruence | congruence | exact He |].
    vm_compute in Hrec. discriminate.
  - intros Hk Hcode Herr.
    assert (Hr : colResponse p cwd result = errorResponse "Error: colgrep failed").
    { unfold colResponse. rewrite Hk. apply Z.eqb_neq in Hcode. rewrite Hcode.
      cbn [negb]. unfold trimmedOr, textOf in *.
      destruct (stderr result) as [e|]; [now rewrite Herr | reflexivity]. }
    rewrite Hr in Hcases.
    destruct Hcases as [(Hq' & _) | [(Hq' & _) | (_ & [[_ He] | (_ & Hrec & _)])]];
      [congruence | congruence | exact He |].
    vm_compute in Hrec. discriminate.
Qed.

Lemma semantic_timeout_is_fatal_witness :
  execute (constHost killedRun) (queryOnly "parse config") "/repo" []
  = (errorResponse
       "Error: colgrep timed out or was aborted. First-time indexing can take 30-90s.",
     [colCall (queryOnly "parse config") "/repo"]).
Proof.
  exact (proj1 (semantic_timeout_is_fatal (constHost killedRun)
                  (queryOnly "parse config") "/repo" [] eq_refl) eq_refl).
Defined.

(** ** Exit status and retry of the lexical engine *)

(** X4. When the lexical engine exits with status 1 and was not killed, the
    run makes that one call and answers with the zero-result success,
    whatever the engine printed: no error, result count 0, files-matched
    count 0 and the no-match notice under the header. *)
Theorem exit_one_is_zero_result (host : Host) (p : Params) cwd tr :
  let result := host (tr ++ [rgCall p cwd]) in
  code result = 1 -> killed result = false ->
  let stats := parseAndStripRgStats (trimmedOr (stdout result) "") in
  execRipgrep host p cwd tr = (rgZero p stats, tr ++ [rgCall p cwd])
  /\ isError (rgZero p stats) = false
  /\ text (rgZero p stats)
     = noMatches (headerLine "s" (showZ (st_filesSearched stats)) "0")
  /\ exists d, details (rgZero p stats) = Some d
               /\ resultCount d = 0 /\ filesMatched d = Some 0 /\ files d = None.
Proof.
  intros result Hcode Hk stats.
  assert (Hw : wantsPcreRetry p result = false)
    by (unfold wantsPcreRetry; now rewrite Hcode).
  split; [| split; [reflexivity | split; [reflexivity |]]].
  - unfold execRipgrep, bind, ret. rewrite rgRun_unfold. cbv zeta.
    fold result. rewrite Hw. f_equal.
    unfold rgResponse. rewrite Hk, Hcode. cbn [Z.eqb Pos.eqb]. cbv zeta.
    now rewrite orb_true_r.
  - eexists. repeat split.
Qed.

Lemma exit_one_is_zero_result_witness :
  isError (fst (execRipgrep (constHost (exited 1 "" "")) (patternOnly "foo")
                  "/repo" [])) = false.
Proof.
  destruct (exit_one_is_zero_result (constHost (exited 1 "" "")) (patternOnly "foo")
              "/repo" [] eq_refl eq_refl) as (-> & H & _).
  exact H.
Defined.

(** X5. With fixed-string mode requested the lexical engine is called
    exactly once, whatever it answers: there is no PCRE2 retry.  So the
    fallback of a request without a pattern makes exactly one lexical call,
    with [-F] among the leading flags. *)
Theorem fixed_strings_never_retries (host : Host) (p : Params) cwd tr :
  (truthyB (fixed_strings p) = true ->
   snd (execRipgrep host p cwd tr) = tr ++ [rgCall p cwd])
  /\ (truthyS (pattern p) = false ->
      snd (execRipgrepFallback host p cwd tr) = tr ++ [rgCall (fallbackParams p) cwd]
      /\ In "-F" (rgArgsHead (fallbackParams p))).
Proof.
  assert (Hone : forall q, truthyB (fixed_strings q) = true ->
            snd (execRipgrep host q cwd tr) = tr ++ [rgCall q cwd]).
  { intros q Hf. destruct (execRipgrep_response host q cwd tr) as [_ ->].
    rewrite rgRun_unfold. cbv zeta.
    assert (wantsPcreRetry q (host (tr ++ [rgCall q cwd])) = false) as ->.
    { unfold wantsPcreRetry. rewrite Hf. cbn [negb]. now rewrite andb_false_r. }
    reflexivity. }
  split; [apply Hone |].
  intros Hp. rewrite execRipgrepFallback_response. cbn [snd].
  assert (Hfixed : fixed_strings (fallbackParams p) = Some true)
    by (unfold fallbackParams; now rewrite Hp).
  split.
  - apply Hone. now rewrite Hfixed.
  - now apply In_rgArgsHead_F.
Qed.

Lemma fixed_strings_never_retries_witness :
  snd (execRipgrepFallback backreferenceHost (queryOnly "(a)\1") "/repo" [])
  = [rgCall (fallbackParams (queryOnly "(a)\1")) "/repo"].
Proof.
  exact (proj1 (proj2 (fixed_strings_never_retries backreferenceHost
                         (queryOnly "(a)\1") "/repo" []) eq_refl)).
Defined.

(** X6. The lexical engine ignores the query: its arguments, its run and
    its answer are the same with and without one.  So when a request has a
    pattern, its fallback is the run of the same request on the lexical
    engine, with the flag set on the answer. *)
Theorem hybrid_fallback_is_pattern_run (host : Host) (p : Params) cwd tr :
  (forall q, rgArgs (setQuery q p) cwd = rgArgs p cwd
             /\ execRipgrep host (setQuery q p) cwd tr = execRipgrep host p cwd tr)
  /\ (truthyS (pattern p) = true ->
      rgArgs (fallbackParams p) cwd = rgArgs p cwd
      /\ execRipgrepFallback host p cwd tr
         = (markFallback (fst (execRipgrep host p cwd tr)),
            snd (execRipgrep host p cwd tr))).
Proof.
  split; [intros q; split; reflexivity |].
  intros Hp. rewrite execRipgrepFallback_response.
  unfold fallbackParams. rewrite Hp. split; reflexivity.
Qed.

Lemma hybrid_fallback_is_pattern_run_witness :
  rgArgs (fallbackParams (setQuery (Some "where is foo") (patternOnly "foo"))) "/repo"
  = rgArgs (setQuery (Some "where is foo") (patternOnly "foo")) "/repo".
Proof.
  exact (proj1 (proj2 (hybrid_fallback_is_pattern_run (constHost killedRun)
                         (setQuery (Some "where is foo") (patternOnly "foo"))
                         "/repo" []) eq_refl)).
Defined.

(** ** Glob atoms *)













Lemma trimEnd_append (a b : string) :
  trimEnd (a +:+ b) = match trimEnd b with
                      | EmptyString => trimEnd a
                      | String c r => a +:+ String c r
                      end.
Proof.
  induction a as [|x a IH]; cbn [String.append].
  - now destruct (trimEnd b).
  - cbn [trimEnd]. rewrite IH. destruct (trimEnd b) as [|c r]; [reflexivity |].
    now destruct a.
Qed.






Lemma splitOn_cons (sep : ascii) (s : string) : exists h t, splitOn sep s = h :: t.
Proof.
  induction s as [|c s (h & t & IH)]; simpl; [now eexists _, _ |].
  destruct (Ascii.eqb c sep); [now eexists _, _ |]. rewrite IH. now eexists _, _.
Qed.

Lemma splitPieces_braceFree (rest : string) :
  forall piece, braceFree rest = true ->
    splitPieces rest 0 piece = flat_map atom (consHead piece (splitOn "," rest)).
Proof.
  induction rest as [|ch rest IH]; intros piece Hb.
  - simpl. now rewrite append_nil_r, app_nil_r.
  - cbn [braceFree] in Hb. apply andb_true_iff in Hb as [Hb Hrest].
    apply andb_true_iff in Hb as [H1 H2].
    apply negb_true_iff in H1, H2.
    cbn [splitPieces splitOn]. rewrite H1, H2.
    destruct (Ascii.eqb ch ",") eqn:E; cbn [andb Z.eqb].
    + rewrite (IH "" Hrest). destruct (splitOn_cons "," rest) as (h & t & ->).
      cbn [consHead flat_map String.append]. now rewrite append_nil_r.
    + rewrite (IH _ Hrest). destruct (splitOn_cons "," rest) as (h & t & ->).
      cbn [consHead flat_map]. now rewrite append_assoc.
Qed.

Lemma flat_map_atoms (flag : string) (f : string -> string) (l : list string) :
  flat_map (fun dir => let trimmed := trim dir in
                       if nonEmpty trimmed then [flag; f trimmed] else []) l
  = flat_map (fun g => [flag; f g]) (flat_map atom l).
Proof.
  induction l as [|x l IH]; [reflexivity |].
  cbn [flat_map]. rewrite flat_map_app, <- IH. unfold atom. cbv zeta.
  destruct (nonEmpty (trim x)); reflexivity.
Qed.

(** X8. The [exclude_dir] loop cuts its specification at every comma,
    inside a brace group or not, and passes on the trimmed, non-empty
    pieces.  On a specification without braces the glob splitter does the
    same, so the two loops then produce the same arguments. *)
Theorem exclude_dir_splits_at_every_comma
    (flag : string) (f : string -> string) (s : string) :
  dirArgs flag f (Some s)
  = flat_map (fun g => [flag; f g]) (flat_map atom (splitOn "," s))
  /\ (braceFree s = true ->
      splitGlobs s = flat_map atom (splitOn "," s)
      /\ dirArgs flag f (Some s) = globArgs flag f (Some s)).
Proof.
  assert (Hdir : dirArgs flag f (Some s)
                 = flat_map (fun g => [flag; f g]) (flat_map atom (splitOn "," s))).
  { unfold dirArgs. destruct s as [|c r]; [reflexivity |].
    cbn [nonEmpty]. apply flat_map_atoms. }
  split; [exact Hdir |]. intros Hb.
  assert (Hsplit : splitGlobs s = flat_map atom (splitOn "," s)).
  { rewrite splitGlobs_pieces, splitPieces_braceFree by exact Hb.
    destruct (splitOn_cons "," s) as (h & t & ->). reflexivity. }
  split; [exact Hsplit |]. rewrite Hdir. unfold globArgs.
  destruct s as [|c r]; [reflexivity |]. cbn [nonEmpty]. now rewrite Hsplit.
Qed.

Lemma exclude_dir_splits_at_every_comma_witness :
  dirArgs "-g" (fun d => "!" +:+ d +:+ "/**") (Some "node_modules, dist")
  = globArgs "-g" (fun d => "!" +:+ d +:+ "/**") (Some "node_modules, dist").
Proof.
  exact (proj2 (proj2 (exclude_dir_splits_at_every_comma
                         "-g" (fun d => "!" +:+ d +:+ "/**") "node_modules, dist")
                 eq_refl)).
Defined.

(** ** Statistics block *)

Lemma span_spec (p : ascii -> bool) (s : string) :
  s = fst (span p s) +:+ snd (span p s) /\ allChars p (fst (span p s)) = true.
Proof.
  induction s as [|c s [IH1 IH2]]; [split; reflexivity |].
  cbn [span]. destruct (p c) eqn:E; [| split; reflexivity].
  destruct (span p s) as [a b]. cbn [fst snd] in *. split.
  - simpl. now rewrite <- IH1.
  - simpl. now rewrite E, IH2.
Qed.

Lemma span_append (p : ascii -> bool) (a r : string) :
  allChars p a = true ->
  match r with String c _ => p c = false | EmptyString => True end ->
  span p (a +:+ r) = (a, r).
Proof.
  intros Ha Hr. induction a as [|c a IH].
  - destruct r as [|c r]; [reflexivity |]. simpl. now rewrite Hr.
  - simpl in Ha. apply andb_true_iff in Ha as [Hc Ha]. simpl. rewrite Hc.
    now rewrite (IH Ha).
Qed.

Lemma stripPrefix_spec (p s r : string) : stripPrefix p s = Some r <-> s = p +:+ r.
Proof.
  revert s. induction p as [|a p IH]; intros s; simpl.
  - split; [now intros [= ->] | now intros ->].
  - destruct s as [|b s]; [split; discriminate |].
    destruct (Ascii.eqb a b) eqn:E.
    + apply Ascii.eqb_eq in E as ->. rewrite IH. split; [now intros -> | now intros [= ->]].
    + split; [discriminate |]. intros [= -> _]. now rewrite Ascii.eqb_refl in E.
Qed.

Lemma parseDigits_nonneg (s : string) : forall acc, 0 <= acc -> 0 <= parseDigits acc s.
Proof.
  induction s as [|c s IH]; intros acc H; simpl; [exact H |]. apply IH. lia.
Qed.

Lemma optChar_cases (c : ascii) (s : string) :
  s = String c (optChar c s) \/ optChar c s = s.
Proof.
  destruct s as [|d r]; [now right |]. simpl.
  destruct (Ascii.eqb d c) eqn:E; [| now right].
  apply Ascii.eqb_eq in E as ->. now left.
Qed.

Lemma reFilesAt_sound (word s ds : string) :
  reFilesAt word s = Some ds ->
  isNumber ds /\ exists t b, (t = "" \/ t = "s") /\ s = ds +:+ " file" +:+ t +:+ word +:+ b.
Proof.
  unfold reFilesAt. destruct (span_spec isDigit s) as [Hs Hd].
  destruct (span isDigit s) as [n r]. cbn [fst snd] in *.
  destruct (nonEmpty n) eqn:Hn; [| discriminate].
  destruct (stripPrefix " file" r) as [r1|] eqn:Hr; [| discriminate].
  apply stripPrefix_spec in Hr.
  destruct (startsWith word (optChar "s" r1) || startsWith word r1) eqn:Hw;
    [| discriminate].
  intros [= <-]. split; [now split |].
  apply orb_true_iff in Hw as [Hw | Hw]; apply startsWith_spec in Hw as [b Hb].
  - destruct (optChar_cases "s" r1) as [H1 | H1].
    + exists "s", b. split; [now right |]. rewrite Hs, Hr, H1, Hb. reflexivity.
    + exists "", b. split; [now left |]. rewrite Hs, Hr, <- H1, Hb. reflexivity.
  - exists "", b. split; [now left |]. rewrite Hs, Hr, Hb. reflexivity.
Qed.

Lemma startsWith_append (w b : string) : startsWith w (w +:+ b) = true.
Proof. apply startsWith_spec. now exists b. Qed.

Lemma reFilesAt_complete (word ds t b : string) :
  isNumber ds -> t = "" \/ t = "s" ->
  reFilesAt word (ds +:+ " file" +:+ t +:+ word +:+ b) = Some ds.
Proof.
  intros [Hn Hd] Ht. unfold reFilesAt.
  rewrite (span_append isDigit ds (" file" +:+ t +:+ word +:+ b) Hd) by reflexivity.
  rewrite Hn.
  assert (stripPrefix " file" (" file" +:+ t +:+ word +:+ b) = Some (t +:+ word +:+ b))
    as -> by now apply stripPrefix_spec.
  destruct Ht as [-> | ->].
  - cbn [String.append]. now rewrite startsWith_append, orb_true_r.
  - cbn [String.append optChar]. rewrite Ascii.eqb_refl. now rewrite startsWith_append.
Qed.

Lemma reFiles_sound (word s ds : string) :
  reFiles word s = Some ds -> reports word ds s.
Proof.
  induction s as [|c s IH].
  - cbn [reFiles]. destruct (reFilesAt word "") as [n|] eqn:E; [| discriminate].
    intros [= <-]. destruct (reFilesAt_sound _ _ _ E) as (Hn & t & b & Ht & Hs).
    split; [exact Hn |]. now exists "", t, b.
  - cbn [reFiles]. destruct (reFilesAt word (String c s)) as [n|] eqn:E.
    + intros [= <-]. destruct (reFilesAt_sound _ _ _ E) as (Hn & t & b & Ht & Hs).
      split; [exact Hn |]. now exists "", t, b.
    + intros H. destruct (IH H) as (Hn & a & t & b & Ht & Hs).
      split; [exact Hn |]. exists (String c a), t, b. split; [exact Ht |].
      simpl. now rewrite Hs.
Qed.

Lemma reFiles_found (word x : string) (n : string) :
  reFilesAt word x = Some n -> forall a, exists ds, reFiles word (a +:+ x) = Some ds.
Proof.
  intros Hx a. induction a as [|c a [ds IH]].
  - exists n. destruct x; cbn [String.append reFiles]; now rewrite Hx.
  - cbn [String.append reFiles].
    destruct (reFilesAt word (String c (a +:+ x))) as [m|]; [now exists m | now exists ds].
Qed.

Lemma reFiles_complete (word out : string) :
  (exists ds, reports word ds out) -> exists ds, reFiles word out = Some ds.
Proof.
  intros (ds & Hn & a & t & b & Ht & ->).
  exact (reFiles_found word _ ds (reFilesAt_complete word ds t b Hn Ht) a).
Qed.

(** The parser's value of a run of digits is its value in positional
    notation. *)
Lemma parseDigits_decimalValue (s : string) :
  forall acc, parseDigits acc s = acc * 10 ^ Z.of_nat (String.length s) + decimalValue s.
Proof.
  induction s as [|c s IH]; intros acc.
  - cbn [parseDigits String.length decimalValue]. change (10 ^ Z.of_nat 0) with 1. lia.
  - cbn [parseDigits String.length decimalValue]. rewrite IH.
    rewrite Nat2Z.inj_succ, Z.pow_succ_r by lia. unfold digitValue. ring.
Qed.

Lemma parseInt_decimalValue (ds : string) : parseInt ds = decimalValue ds.
Proof. unfold parseInt. rewrite parseDigits_decimalValue. lia. Qed.

Lemma count_of_reported (word out : string) :
  let n := match reFiles word out with Some ds => parseInt ds | None => -1 end in
  (n = -1 <-> ~ exists ds, reports word ds out)
  /\ (n <> -1 ->
      exists ds, reports word ds out
                 /\ (decimalValue ds < 2 ^ 53 -> n = decimalValue ds /\ 0 <= n)).
Proof.
  cbv zeta. destruct (reFiles word out) as [ds|] eqn:E.
  - pose proof (parseDigits_nonneg ds 0 (Z.le_refl 0)) as Hpos. fold (parseInt ds) in Hpos.
    split.
    + split; [lia |]. intros H. exfalso. apply H. exists ds. now apply reFiles_sound.
    + intros _. exists ds. split; [now apply reFiles_sound |].
      intros _. split; [apply parseInt_decimalValue | exact Hpos].
  - split.
    + split; [| reflexivity]. intros _ H. apply reFiles_complete in H as [ds H]. congruence.
    + intros H. now contradiction H.
Qed.

(** X9. The two counts that the statistics parser returns come from the
    output.  The files-searched count is -1 exactly when the output holds no
    text [<digits> file searched] or [<digits> files searched].  Otherwise
    it comes from the digits of such a text; when their value in positional
    notation is below 2^53, the range in which a JavaScript number holds
    every integer exactly, the count is that value and is not negative.
    Likewise the files-matched count for [contained matches]. *)
Theorem stats_counts_come_from_output (out : string) :
  let st := parseAndStripRgStats out in
  ((st_filesSearched st = -1 <-> ~ exists ds, reports " searched" ds out)
   /\ (st_filesSearched st <> -1 ->
       exists ds, reports " searched" ds out
                  /\ (decimalValue ds < 2 ^ 53 ->
                      st_filesSearched st = decimalValue ds
                      /\ 0 <= st_filesSearched st)))
  /\ ((st_filesMatched st = -1 <-> ~ exists ds, reports " contained matches" ds out)
      /\ (st_filesMatched st <> -1 ->
          exists ds, reports " contained matches" ds out
                     /\ (decimalValue ds < 2 ^ 53 ->
                         st_filesMatched st = decimalValue ds
                         /\ 0 <= st_filesMatched st))).
Proof.
  split.
  - exact (count_of_reported " searched" out).
  - exact (count_of_reported " contained matches" out).
Qed.

Lemma reMatchesAt_sound (s : string) :
  reMatchesAt s = true ->
  exists ds t tail, isNumber ds /\ (t = "" \/ t = "s")
                    /\ s = ds +:+ " matche" +:+ t +:+ String LF tail.
Proof.
  unfold reMatchesAt. destruct (span_spec isDigit s) as [Hs Hd].
  destruct (span isDigit s) as [n r]. cbn [fst snd] in *.
  intros H. apply andb_true_iff in H as [Hn H].
  destruct (stripPrefix " matche" r) as [r1|] eqn:Hr; [| discriminate].
  apply stripPrefix_spec in Hr. exists n.
  apply orb_true_iff in H as [H | H]; apply startsWith_spec in H as [b Hb].
  - destruct (optChar_cases "s" r1) as [H1 | H1].
    + exists "s", b. split; [now split |]. split; [now right |].
      rewrite Hs, Hr, H1, Hb. reflexivity.
    + exists "", b. split; [now split |]. split; [now left |].
      rewrite Hs, Hr, <- H1, Hb. reflexivity.
  - exists "", b. split; [now split |]. split; [now left |].
    rewrite Hs, Hr, Hb. reflexivity.
Qed.

Lemma reMatchesAt_complete (ds t tail : string) :
  isNumber ds -> t = "" \/ t = "s" ->
  reMatchesAt (ds +:+ " matche" +:+ t +:+ String LF tail) = true.
Proof.
  intros [Hn Hd] Ht. unfold reMatchesAt.
  rewrite (span_append isDigit ds (" matche" +:+ t +:+ String LF tail) Hd) by reflexivity.
  rewrite Hn. cbn [andb].
  assert (stripPrefix " matche" (" matche" +:+ t +:+ String LF tail)
          = Some (t +:+ String LF tail)) as -> by now apply stripPrefix_spec.
  destruct Ht as [-> | ->].
  - cbn [String.append]. apply orb_true_iff. right. cbn [startsWith].
    now rewrite Ascii.eqb_refl.
  - cbn [String.append optChar]. rewrite Ascii.eqb_refl. cbn [startsWith].
    now rewrite Ascii.eqb_refl.
Qed.

Lemma reStatsAt_statsBlock (rest : string) : reStatsAt rest = true <-> statsBlock rest.
Proof.
  split.
  - destruct rest as [|c r]; [discriminate |]. cbn [reStatsAt]. intros H.
    apply orb_true_iff in H as [H | H].
    + apply andb_true_iff in H as [Hc H]. apply Ascii.eqb_eq in Hc as ->.
      destruct (reMatchesAt_sound _ H) as (ds & t & tail & Hn & Ht & ->).
      exists (String LF ""), ds, t, tail. auto.
    + destruct (reMatchesAt_sound _ H) as (ds & t & tail & Hn & Ht & Hs).
      exists "", ds, t, tail. auto.
  - intros (nl & ds & t & tail & [-> | ->] & Hn & Ht & ->).
    + cbn [String.append]. pose proof (reMatchesAt_complete ds t tail Hn Ht) as H.
      destruct Hn as [Hne _]. destruct ds as [|d ds]; [discriminate |].
      cbn [String.append] in *. cbn [reStatsAt]. rewrite H. apply orb_true_r.
    + pose proof (reMatchesAt_complete ds t tail Hn Ht) as H.
      cbn [String.append] in *. cbn [reStatsAt]. rewrite Ascii.eqb_refl.
      now rewrite H.
Qed.

Lemma stripStats_spec (s : string) :
  exists rest, s = stripStats s +:+ rest /\ (rest = "" \/ reStatsAt rest = true).
Proof.
  induction s as [|c s (rest & IH1 & IH2)].
  - exists "". split; [reflexivity | now left].
  - cbn [stripStats]. destruct (reStatsAt (String c s)) eqn:E.
    + exists (String c s). split; [reflexivity | now right].
    + exists rest. split; [| exact IH2]. simpl. now rewrite <- IH1.
Qed.

Lemma stripStats_leftmost (x : string) :
  reStatsAt x = true ->
  forall a, (String.length (stripStats (a +:+ x)) <= String.length a)%nat.
Proof.
  intros Hx a. induction a as [|c a IH].
  - destruct x as [|d x]; [discriminate |]. cbn [String.append stripStats].
    rewrite Hx. reflexivity.
  - cbn [String.append stripStats].
    destruct (reStatsAt (String c _)); cbn [String.length]; lia.
Qed.

(** X10. The cleaned output is the engine output cut at the leftmost
    statistics block, wherever that block begins, and then trimmed: the part
    kept ends where the output ends or where a block head begins (an
    optional line feed, digits, the word [matche] or [matches], a line feed),
    and no block head begins inside the part kept. *)
Theorem stats_block_is_cut (out : string) :
  exists kept rest,
    out = kept +:+ rest
    /\ clean (parseAndStripRgStats out) = trim kept
    /\ (rest = "" \/ statsBlock rest)
    /\ (forall a rest', out = a +:+ rest' -> statsBlock rest' ->
          (String.length kept <= String.length a)%nat).
Proof.
  destruct (stripStats_spec out) as (rest & H1 & H2).
  exists (stripStats out), rest. split; [exact H1 |]. split; [reflexivity |]. split.
  - destruct H2 as [H2 | H2]; [now left | right; now apply reStatsAt_statsBlock].
  - intros a rest' -> Hb. apply stripStats_leftmost. now apply reStatsAt_statsBlock.
Qed.

(** ** Colour codes of the semantic engine *)

Lemma ansiLength_no_escape (c : ascii) (r : string) :
  Ascii.eqb c ESC = false -> ansiLength (String c r) = None.
Proof. intros H. destruct r as [|b r]; [reflexivity |]. simpl. now rewrite H. Qed.

Lemma stripAnsiFrom_escFree (a r : string) :
  escFree a = true -> stripAnsiFrom 0 (a +:+ r) = a +:+ stripAnsiFrom 0 r.
Proof.
  intros Ha. induction a as [|c a IH]; [reflexivity |].
  cbn [escFree allChars] in Ha. apply andb_true_iff in Ha as [Hc Ha].
  apply negb_true_iff in Hc.
  cbn [String.append stripAnsiFrom]. rewrite (ansiLength_no_escape c _ Hc).
  now rewrite (IH Ha).
Qed.

Lemma stripAnsiFrom_skip (x r : string) :
  stripAnsiFrom (String.length x) (x +:+ r) = stripAnsiFrom 0 r.
Proof.
  induction x as [|c x IH]; [reflexivity |].
  cbn [String.length String.append stripAnsiFrom]. exact IH.
Qed.

Lemma ansiLength_sgr (ps r : string) :
  allChars isSgrParam ps = true ->
  ansiLength (sgr ps +:+ r) = Some (3 + String.length ps)%nat.
Proof.
  intros Hps. unfold sgr. cbn [String.append ansiLength].
  rewrite !Ascii.eqb_refl. cbn [andb].
  change (fun c : ascii => isDigit c || Ascii.eqb c ";") with isSgrParam.
  rewrite append_assoc.
  rewrite (span_append isSgrParam ps ("m" +:+ r) Hps) by reflexivity.
  reflexivity.
Qed.

Lemma stripAnsiFrom_sgr (ps r : string) :
  allChars isSgrParam ps = true ->
  stripAnsiFrom 0 (sgr ps +:+ r) = stripAnsiFrom 0 r.
Proof.
  intros Hps. pose proof (ansiLength_sgr ps r Hps) as H.
  unfold sgr in *. cbn [String.append] in *. cbn [stripAnsiFrom]. rewrite H.
  replace (3 + String.length ps - 1)%nat
    with (String.length ("[" +:+ ps +:+ "m")) by (simpl; rewrite length_append; simpl; lia).
  cbn [String.append]. rewrite <- (stripAnsiFrom_skip (String "[" (ps +:+ "m")) r).
  reflexivity.
Qed.

Lemma escFree_append (a b : string) :
  escFree (a +:+ b) = escFree a && escFree b.
Proof.
  unfold escFree. induction a as [|c a IH]; [reflexivity |].
  simpl. now rewrite IH, andb_assoc.
Qed.

Lemma stripAnsi_paint (l : list (string * string)) :
  Forall (fun x => allChars isSgrParam (fst x) = true /\ escFree (snd x) = true) l ->
  stripAnsiFrom 0 (paint l) = unpainted l /\ escFree (unpainted l) = true.
Proof.
  induction 1 as [|[ps chunk] l [Hps Hc] _ [IH1 IH2]]; [split; reflexivity |].
  cbn [fst snd] in *. cbn [paint unpainted]. split.
  - rewrite stripAnsiFrom_sgr by exact Hps.
    rewrite stripAnsiFrom_escFree by exact Hc. now rewrite IH1.
  - now rewrite escFree_append, Hc, IH2.
Qed.

(** X11. Colour codes do not change the answer of the semantic engine.
    When the output is text without escape characters in which colour
    sequences ([ESC], an opening bracket, digits and semicolons, [m]) are
    inserted, removing the sequences gives the text back, and the response
    is the one computed from the uncoloured text. *)
Theorem colour_codes_are_dropped (pre : string) (l : list (string * string)) :
  escFree pre = true ->
  Forall (fun x => allChars isSgrParam (fst x) = true /\ escFree (snd x) = true) l ->
  stripAnsi (pre +:+ paint l) = pre +:+ unpainted l
  /\ stripAnsi (pre +:+ unpainted l) = pre +:+ unpainted l
  /\ forall p cwd r,
       colResponse p cwd (withStdout (Some (pre +:+ paint l)) r)
       = colResponse p cwd (withStdout (Some (pre +:+ unpainted l)) r).
Proof.
  intros Hpre Hl. destruct (stripAnsi_paint l Hl) as [H1 H2].
  assert (Ha : stripAnsi (pre +:+ paint l) = pre +:+ unpainted l).
  { unfold stripAnsi. rewrite stripAnsiFrom_escFree by exact Hpre. now rewrite H1. }
  assert (Hb : stripAnsi (pre +:+ unpainted l) = pre +:+ unpainted l).
  { unfold stripAnsi.
    rewrite <- (append_nil_r (pre +:+ unpainted l)) at 1.
    rewrite stripAnsiFrom_escFree by (now rewrite escFree_append, Hpre, H2).
    cbn [stripAnsiFrom]. apply append_nil_r. }
  split; [exact Ha |]. split; [exact Hb |].
  intros p cwd r. unfold colResponse, withStdout. cbn [killed code stdout stderr].
  now rewrite Ha, Hb.
Qed.

Lemma colour_codes_are_dropped_witness :
  stripAnsi ("src/a.ts:" +:+ paint [("1;32", "10-12"); ("0", " fn parse()")])
  = "src/a.ts:10-12 fn parse()".
Proof.
  exact (proj1 (colour_codes_are_dropped "src/a.ts:"
                  [("1;32", "10-12"); ("0", " fn parse()")] eq_refl
                  ltac:(repeat constructor))).
Defined.

(** ** Counts of the semantic engine *)

Lemma length_remove_dups (l : list string) :
  (length (remove_dups l) <= length l)%nat.
Proof.
  induction l as [|x l IH]; [reflexivity |]. cbn [remove_dups].
  destruct (decide_rel elem_of x l); cbn [length]; lia.
Qed.

Lemma first_line_not_blank (c : ascii) (r : string) :
  isSpace c = false ->
  exists h t, splitLines (String c r) = String c h :: t
              /\ nonEmpty (trim (String c h)) = true.
Proof.
  intros Hc. unfold splitLines. cbn [splitOn].
  assert (Ascii.eqb c LF = false) as ->.
  { apply Ascii.eqb_neq. now apply not_space_not_LF. }
  destruct (splitOn_cons LF r) as (h & t & ->). exists h, t.
  split; [reflexivity |]. unfold trim. cbn [trimStart]. rewrite Hc.
  cbn [trimEnd]. destruct (trimEnd h); [now rewrite Hc | reflexivity].
Qed.

(** X12. The counts of a semantic answer fit together.  Every run that
    was not killed and exited with status 0 has details in which the
    files-matched count is between 0 and the result count.  Either it is
    the no-match answer, with result count 0 and neither file list nor
    search path; or the result count is at least 1, the file list is
    present with at most that many entries, and the files-matched count is
    at most the number of entries. *)
Theorem semantic_counts_consistent (p : Params) cwd (result : ExecResult) :
  killed result = false -> code result = 0 ->
  exists d m,
    details (colResponse p cwd result) = Some d
    /\ filesMatched d = Some m
    /\ 0 <= m <= resultCount d
    /\ ((resultCount d = 0 /\ files d = None /\ searchPath d = None)
        \/ (1 <= resultCount d
            /\ searchPath d = Some (searchPathOf p cwd)
            /\ exists fs, files d = Some fs
                          /\ m <= Z.of_nat (length fs) <= resultCount d)).
Proof.
  intros Hk Hc. unfold colResponse. rewrite Hk, Hc. cbn [Z.eqb negb]. cbv zeta.
  assert (Hzero : forall n, exists d m,
            details (colZero p n) = Some d /\ filesMatched d = Some m
            /\ 0 <= m <= resultCount d
            /\ ((resultCount d = 0 /\ files d = None /\ searchPath d = None)
                \/ (1 <= resultCount d
                    /\ searchPath d = Some (searchPathOf p cwd)
                    /\ exists fs, files d = Some fs
                                  /\ m <= Z.of_nat (length fs) <= resultCount d))).
  { intros n. eexists _, 0. split; [reflexivity |]. split; [reflexivity |].
    cbn [resultCount files searchPath]. split; [lia | left; auto]. }
  destruct (stdout result) as [s|]; [| apply Hzero].
  destruct (negb (nonEmpty (trim (stripAnsi s))) || _) eqn:E; [apply Hzero |].
  apply orb_false_iff in E as [E _]. apply negb_false_iff in E.
  set (out := trim (stripAnsi s)) in *.
  pose proof (length_remove_dups (map stripRange (colFiles p (splitLines out)))) as Hu.
  rewrite length_map in Hu.
  eexists _, _. split; [reflexivity |]. split; [reflexivity |].
  cbn [resultCount files searchPath]. unfold uniqueFilesSize.
  assert (Hlines : (1 <= length (List.filter (fun l => nonEmpty (trim l))
                                   (splitLines out)))%nat).
  { destruct out as [|c r] eqn:Eout; [discriminate |].
    destruct (first_line_not_blank c r (trim_head _ _ _ Eout)) as (h & t & -> & Hh).
    cbn [List.filter]. rewrite Hh. cbn [length]. lia. }
  destruct (length (colFiles p (splitLines out)) =? 0)%nat eqn:En.
  - apply Nat.eqb_eq in En. rewrite En in *. split; [lia |]. right.
    split; [lia |]. split; [reflexivity |]. eexists. split; [reflexivity |].
    rewrite En. lia.
  - apply Nat.eqb_neq in En. split; [lia |]. right.
    split; [lia |]. split; [reflexivity |]. eexists. split; [reflexivity |]. lia.
Qed.

Lemma semantic_counts_consistent_witness :
  exists d m,
    details (colResponse (queryOnly "parse") "/repo" (exited 0 sampleColOutput ""))
    = Some d
    /\ filesMatched d = Some m /\ 0 <= m <= resultCount d.
Proof.
  destruct (semantic_counts_consistent (queryOnly "parse") "/repo"
              (exited 0 sampleColOutput "") eq_refl eq_refl)
    as (d & m & H1 & H2 & H3 & _).
  exists d, m. auto.
Defined.

(** ** What the details say of the request *)

Lemma rgResponse_fields (p : Params) cwd (r : ExecResult) (d : GrepDetails) :
  details (rgResponse p cwd r) = Some d ->
  d_query d = None /\ d_pattern d = pattern p /\ engine d = Some rg
  /\ fallback d = None /\ searchComplete d = Some true
  /\ (searchPath d = None \/ searchPath d = Some (searchPathOf p cwd)).
Proof.
  unfold rgResponse. destruct (killed r); [discriminate |].
  destruct (code r =? 2); [discriminate |]. cbv zeta.
  destruct (negb _ || _); [intros [= <-]; simpl; auto 10 |].
  destruct (_ >? 0); [destruct (negb _) |]; intros [= <-]; simpl; auto 10.
Qed.

Lemma colResponse_fields (p : Params) cwd (r : ExecResult) (d : GrepDetails) :
  details (colResponse p cwd r) = Some d ->
  d_query d = query p /\ d_pattern d = pattern p /\ engine d = Some colgrep
  /\ fallback d = None /\ searchComplete d = Some true
  /\ (searchPath d = None \/ searchPath d = Some (searchPathOf p cwd)).
Proof.
  unfold colResponse. destruct (killed r); [discriminate |].
  destruct (negb (code r =? 0)); [discriminate |]. cbv zeta.
  destruct (stdout r); [destruct (negb _ || _) |]; intros [= <-]; simpl; auto 10.
Qed.

Lemma markFallback_fields (r : Response) (d' : GrepDetails) :
  details (markFallback r) = Some d' ->
  exists d, details r = Some d
            /\ fallback d' = Some true /\ d_query d' = d_query d
            /\ d_pattern d' = d_pattern d /\ engine d' = engine d
            /\ searchComplete d' = searchComplete d /\ searchPath d' = searchPath d.
Proof.
  unfold markFallback. destruct (details r) as [d|] eqn:E.
  - intros [= <-]. exists d. simpl. auto 10.
  - rewrite E. discriminate.
Qed.

Lemma pattern_fallbackParams (p : Params) :
  pattern (fallbackParams p) = if truthyS (pattern p) then pattern p else query p.
Proof. unfold fallbackParams. now destruct (truthyS (pattern p)). Qed.

Lemma searchPathOf_fallbackParams (p : Params) cwd :
  searchPathOf (fallbackParams p) cwd = searchPathOf p cwd.
Proof. unfold fallbackParams. now destruct (truthyS (pattern p)). Qed.

(** X13. The details of an answer say which engine produced it and for
    what.  They always report a complete search, and a search path, when
    present, that is [params.path || ctx.cwd].  Details of the semantic
    engine carry the query and the pattern of the request and no fallback
    flag.  Details of the lexical engine carry no query; without a query in
    the request they carry its pattern and no flag, and with one (the
    fallback) they carry the flag and, as pattern, the pattern of the
    request if it has one and else the query text. *)
Theorem details_describe_request (host : Host) (p : Params) cwd tr (d : GrepDetails) :
  details (fst (execute host p cwd tr)) = Some d ->
  searchComplete d = Some true
  /\ (searchPath d = None \/ searchPath d = Some (searchPathOf p cwd))
  /\ ((engine d = Some colgrep /\ truthyS (query p) = true /\ fallback d = None
       /\ d_query d = query p /\ d_pattern d = pattern p)
      \/ (engine d = Some rg /\ truthyS (query p) = false /\ fallback d = None
          /\ d_query d = None /\ d_pattern d = pattern p)
      \/ (engine d = Some rg /\ truthyS (query p) = true /\ fallback d = Some true
          /\ d_query d = None
          /\ d_pattern d = if truthyS (pattern p) then pattern p else query p)).
Proof.
  destruct (execute_cases host p cwd tr)
    as [(_ & _ & ->) | [(Hq & _ & ->) | (Hq & [[_ ->] | (_ & _ & ->)])]]; cbn [fst].
  - discriminate.
  - destruct (execRipgrep_response host p cwd tr) as [-> _]. intros H.
    destruct (rgResponse_fields _ _ _ _ H) as (H1 & H2 & H3 & H4 & H5 & H6).
    split; [exact H5 |]. split; [exact H6 |]. right. left. auto.
  - rewrite execColgrep_response. cbn [fst]. intros H.
    destruct (colResponse_fields _ _ _ _ H) as (H1 & H2 & H3 & H4 & H5 & H6).
    split; [exact H5 |]. split; [exact H6 |]. left. auto.
  - rewrite execRipgrepFallback_response. cbn [fst].
    destruct (execRipgrep_response host (fallbackParams p) cwd
                (snd (execColgrep host p cwd tr))) as [-> _].
    intros H. destruct (markFallback_fields _ _ H) as (d0 & H0 & F1 & F2 & F3 & F4 & F5 & F6).
    destruct (rgResponse_fields _ _ _ _ H0) as (H1 & H2 & H3 & H4 & H5 & H6).
    rewrite searchPathOf_fallbackParams in H6. rewrite pattern_fallbackParams in H2.
    split; [congruence |]. split; [rewrite F6; exact H6 |]. right. right.
    repeat (split; [congruence |]). congruence.
Qed.

Lemma details_describe_request_witness :
  exists d,
    details (fst (execute noIndexHost (queryOnly "parse configuration files")
                    "/repo" [])) = Some d
    /\ searchComplete d = Some true.
Proof.
  destruct (details (fst (execute noIndexHost (queryOnly "parse configuration files")
                            "/repo" []))) as [d|] eqn:E;
    [| vm_compute in E; discriminate].
  exists d. split; [reflexivity |].
  exact (proj1 (details_describe_request noIndexHost
                  (queryOnly "parse configuration files") "/repo" [] d E)).
Defined.

(** ** Operands of the calls *)

Lemma colArgs_end (p : Params) cwd (q : string) :
  query p = Some q -> nonEmpty q = true ->
  exists flags, colArgs p cwd = flags ++ ["--"; q; searchPathOf p cwd].
Proof.
  intros Hq Hn.
  exists (["-y"]
          ++ optArg (truthyB (content p)) ["-c"]
          ++ ["-k"; showZ (positiveOr (limit p) 100)]
          ++ globArgs "--include" (fun g => g) (glob p)
          ++ optArg (truthyB (code_only p)) ["--code-only"]
          ++ optArg (truthyB (files_only p)) ["-l"]
          ++ optArg (truthyB (fixed_strings p)) ["-F"]
          ++ optArg (truthyB (word_regexp p)) ["-w"]
          ++ colContextArgs p
          ++ globArgs "--exclude" (fun e => e) (exclude p)
          ++ dirArgs "--exclude-dir" (fun d => d) (exclude_dir p)
          ++ match pattern p with
             | Some pat => if nonEmpty pat then ["-e"; pat] else []
             | None => []
             end).
  unfold colArgs, pushSearchPaths. rewrite Hq, Hn.
  repeat rewrite <- app_assoc. reflexivity.
Qed.

Lemma truthyS_Some (o : option string) :
  truthyS o = true -> exists s, o = Some s /\ nonEmpty s = true.
Proof. destruct o as [s|]; [| discriminate]. intros H. now exists s. Qed.

(** X14. Every call that the router makes ends with the end-of-options
    marker [--], then the text searched for, then the search path
    [params.path || ctx.cwd], and nothing else; the text is the query or the
    pattern of the request.  So the text and the path are never read as
    options, by either engine, in the first run, the retry or the fallback. *)
Theorem calls_end_with_operands (host : Host) (p : Params) cwd tr :
  exists calls,
    snd (execute host p cwd tr) = tr ++ calls
    /\ Forall (fun c => exists flags x,
                 argv c = flags ++ ["--"; x; searchPathOf p cwd]
                 /\ (query p = Some x \/ pattern p = Some x)) calls.
Proof.
  assert (Hrg : forall q tr0 x,
            pattern q = Some x -> searchPathOf q cwd = searchPathOf p cwd ->
            (query p = Some x \/ pattern p = Some x) ->
            exists calls, snd (rgRun host q cwd tr0) = tr0 ++ calls
              /\ Forall (fun c => exists flags x,
                           argv c = flags ++ ["--"; x; searchPathOf p cwd]
                           /\ (query p = Some x \/ pattern p = Some x)) calls).
  { intros q tr0 x Hx Hpath Hor.
    destruct (rgArgs_end q cwd) as [flags Hflags]. rewrite Hx, Hpath in Hflags.
    assert (H1 : exists flags x, argv (rgCall q cwd) = flags ++ ["--"; x; searchPathOf p cwd]
                                 /\ (query p = Some x \/ pattern p = Some x))
      by (exists flags, x; auto).
    assert (H2 : exists flags x, argv (rgRetryCall q cwd)
                                 = flags ++ ["--"; x; searchPathOf p cwd]
                                 /\ (query p = Some x \/ pattern p = Some x)).
    { exists ("-P" :: flags), x. split; [| exact Hor]. cbn [rgRetryCall argv].
      now rewrite Hflags. }
    destruct (rgRun_calls host q cwd tr0) as [-> | ->]; eexists; (split; [reflexivity |]);
      repeat constructor; assumption. }
  destruct (execute_calls_cases host p cwd tr)
    as [(_ & _ & ->) | [(_ & Hp & ->) | (Hq & [-> | ->])]].
  - exists []. split; [now rewrite app_nil_r | constructor].
  - destruct (truthyS_Some _ Hp) as (x & Hx & _). apply (Hrg p tr x); auto.
  - destruct (truthyS_Some _ Hq) as (x & Hx & Hn).
    destruct (colArgs_end p cwd x Hx Hn) as [flags Hflags].
    exists [colCall p cwd]. split; [reflexivity |]. repeat constructor.
    exists flags, x. auto.
  - destruct (truthyS_Some _ Hq) as (x & Hx & Hn).
    destruct (colArgs_end p cwd x Hx Hn) as [flags Hflags].
    assert (Hpat : exists y, pattern (fallbackParams p) = Some y
                             /\ (query p = Some y \/ pattern p = Some y)).
    { rewrite pattern_fallbackParams. destruct (truthyS (pattern p)) eqn:Hp.
      - destruct (truthyS_Some _ Hp) as (y & Hy & _). exists y. auto.
      - exists x. auto. }
    destruct Hpat as (y & Hy & Hor).
    destruct (Hrg (fallbackParams p) (tr ++ [colCall p cwd]) y Hy
                (searchPathOf_fallbackParams p cwd) Hor) as (calls & -> & Hall).
    exists (colCall p cwd :: calls). split; [now rewrite <- app_assoc |].
    constructor; [| exact Hall]. exists flags, x. auto.
Qed.

(** ** Contention gate: one holder, in the order of arrival *)

Lemma prevResolved_spec (n : nat) (s : Gate.State) :
  Gate.prevResolved n s = true <-> forall j, (j < n)%nat -> j ∈ Gate.resolved s.
Proof.
  unfold Gate.prevResolved. rewrite forallb_forall. split.
  - intros H j Hj. specialize (H j). rewrite in_seq in H.
    eapply bool_decide_eq_true_1. apply H. lia.
  - intros H j Hj. apply in_seq in Hj. apply bool_decide_eq_true_2. apply H. lia.
Qed.

Lemma order_init : GateOrder [] Gate.init.
Proof.
  split; cbn; try reflexivity; try lia.
  - intros n. rewrite lookup_empty. split; [lia | intros [x Hx]; discriminate].
  - intros n id H. rewrite lookup_empty in H. discriminate.
  - intros n H. now apply not_elem_of_empty in H.
  - intros id m H. rewrite lookup_empty in H. discriminate.
  - intros id1 id2 m1 m2 H. rewrite lookup_empty in H. discriminate.
Qed.

Lemma order_tool_call (seen : list string) (s s' : Gate.State) ev :
  GateOrder seen s -> Gate.step (Gate.ToolCall ev) s = Some s' ->
  GateOrder (seen ++ Gate.callIds [Gate.ToolCall ev]) s'.
Proof.
  intros I Hstep. cbn in Hstep |- *.
  destruct (Gate.isGated ev); injection Hstep as <-; [| now rewrite app_nil_r].
  destruct I as [Ia Ig Il Ii Iw Iwi Ir Ih Is Igr].
  split; unfold granted, grantIds, grantLocks in *;
    cbn [Gate.acquired Gate.waiting Gate.resolved Gate.releases Gate.grantLog];
    try assumption.
  - rewrite length_app. cbn. lia.
  - lia.
  - rewrite Ii. symmetry. apply take_app_le. lia.
  - intros n. destruct (decide (n = Gate.acquired s)) as [-> | Hne].
    + rewrite lookup_insert_eq. split; [eauto | lia].
    + rewrite lookup_insert_ne by congruence. rewrite <- Iw. lia.
  - intros n id. destruct (decide (n = Gate.acquired s)) as [-> | Hne].
    + rewrite lookup_insert_eq. intros [= <-]. rewrite Ia. apply list_lookup_middle.
      reflexivity.
    + rewrite lookup_insert_ne by congruence. intros H.
      apply lookup_app_l_Some. now apply Iwi.
Qed.

Lemma order_resume (seen : list string) (s s' : Gate.State) n :
  GateOrder seen s -> Gate.step (Gate.Resume n) s = Some s' -> GateOrder seen s'.
Proof.
  intros I Hstep. cbn in Hstep.
  destruct (Gate.waiting s !! n) as [id|] eqn:Hw; [| discriminate].
  destruct (Gate.prevResolved n s) eqn:Hprev; [| discriminate]. injection Hstep as <-.
  rewrite prevResolved_spec in Hprev.
  destruct I as [Ia Ig Il Ii Iw Iwi Ir Ih Is Igr].
  assert (Hn : (granted s <= n < Gate.acquired s)%nat) by (apply Iw; eauto).
  assert (Heq : n = granted s).
  { destruct (decide (n = granted s)) as [-> | Hne]; [reflexivity |].
    assert (Hlt : (granted s < n)%nat) by lia.
    specialize (Ir _ (Hprev _ Hlt)). lia. }
  subst n.
  assert (Hfree : forall id' m, Gate.releases s !! id' = Some m -> False).
  { intros id' m H. destruct (Ih _ _ H) as [H1 H2]. apply H2, Hprev. lia. }
  split; unfold granted, grantIds, grantLocks in *;
    cbn [Gate.acquired Gate.waiting Gate.resolved Gate.releases Gate.grantLog];
    rewrite ?length_app, ?map_app; cbn [length map fst snd];
    rewrite ?Nat.add_1_r.
  - exact Ia.
  - lia.
  - rewrite seq_S, Il. reflexivity.
  - rewrite Ii. symmetry. apply take_S_r. now apply Iwi.
  - intros n. destruct (decide (n = length (Gate.grantLog s))) as [-> | Hne].
    + rewrite lookup_delete_eq. split; [lia | intros [x Hx]; discriminate].
    + rewrite lookup_delete_ne by congruence. rewrite <- Iw. lia.
  - intros n id' H. apply lookup_delete_Some in H as [_ H]. now apply Iwi.
  - intros n H. specialize (Ir n H). lia.
  - intros id' m. destruct (decide (id = id')) as [<- | Hne].
    + rewrite lookup_insert_eq. intros [= <-]. split; [reflexivity |].
      intros H. specialize (Ir _ H). lia.
    + rewrite lookup_insert_ne by exact Hne. intros H. destruct (Hfree _ _ H).
  - intros id1 id2 m1 m2.
    destruct (decide (id = id1)) as [<- | Hne1]; destruct (decide (id = id2)) as [<- | Hne2];
      [reflexivity | | |].
    + rewrite (lookup_insert_ne _ _ _ _ Hne2). intros _ H. destruct (Hfree _ _ H).
    + rewrite (lookup_insert_ne _ _ _ _ Hne1). intros H. destruct (Hfree _ _ H).
    + rewrite (lookup_insert_ne _ _ _ _ Hne1). intros H. destruct (Hfree _ _ H).
  - intros n Hlt. destruct (decide (n = length (Gate.grantLog s))) as [-> | Hne].
    + right. exists id. apply lookup_insert_eq.
    + left. apply Hprev. lia.
Qed.

Lemma order_release (seen : list string) (s : Gate.State) id why :
  GateOrder seen s -> GateOrder seen (Gate.releaseTicket id why s).
Proof.
  intros I. unfold Gate.releaseTicket.
  destruct (Gate.releases s !! id) as [m|] eqn:Hm; [| exact I].
  destruct I as [Ia Ig Il Ii Iw Iwi Ir Ih Is Igr].
  destruct (Ih _ _ Hm) as [Hm1 Hm2].
  split; unfold Gate.invoke, granted, grantIds, grantLocks in *;
    cbn [Gate.acquired Gate.waiting Gate.resolved Gate.releases Gate.grantLog];
    try assumption.
  - intros n H. apply elem_of_union in H as [H | H]; [| now apply Ir].
    apply elem_of_singleton in H. subst n. lia.
  - intros id' m' H. apply lookup_delete_Some in H as [Hne H].
    destruct Hne. exact (Is _ _ _ _ Hm H).
  - intros id1 id2 m1 m2 H. apply lookup_delete_Some in H as [Hne H].
    destruct Hne. exact (Is _ _ _ _ Hm H).
  - intros n Hlt. left. destruct (Igr n Hlt) as [H | [id' H]].
    + apply elem_of_union. now right.
    + assert (id = id') as <- by exact (Is _ _ _ _ Hm H).
      rewrite Hm in H. injection H as <-. apply elem_of_union. left.
      now apply elem_of_singleton.
Qed.

(** The order does not depend on the clock and the timers. *)
Lemma order_frame (seen : list string) (s s' : Gate.State) :
  Gate.acquired s' = Gate.acquired s -> Gate.waiting s' = Gate.waiting s ->
  Gate.resolved s' = Gate.resolved s -> Gate.releases s' = Gate.releases s ->
  Gate.grantLog s' = Gate.grantLog s ->
  GateOrder seen s -> GateOrder seen s'.
Proof.
  intros H1 H2 H3 H4 H5 [Ia Ig Il Ii Iw Iwi Ir Ih Is Igr].
  split; unfold granted, grantIds, grantLocks in *; rewrite ?H1, ?H2, ?H3, ?H4, ?H5;
    assumption.
Qed.

Lemma order_step (seen : list string) (s s' : Gate.State) e :
  GateOrder seen s -> Gate.step e s = Some s' -> GateOrder (seen ++ Gate.callIds [e]) s'.
Proof.
  intros I Hstep. destruct e as [ev | n | h | id | dt].
  - exact (order_tool_call seen s s' ev I Hstep).
  - cbn [Gate.callIds]. rewrite app_nil_r. exact (order_resume seen s s' n I Hstep).
  - cbn [Gate.callIds]. rewrite app_nil_r. cbn in Hstep.
    destruct (Gate.armed s !! h) as [[id d]|]; [| discriminate].
    destruct (d <=? Gate.now s); [| discriminate]. injection Hstep as <-.
    apply order_release. revert I. now apply order_frame.
  - cbn [Gate.callIds]. rewrite app_nil_r. cbn in Hstep. injection Hstep as <-.
    apply order_release. destruct (Gate.timers s !! id); [| exact I].
    revert I. now apply order_frame.
  - cbn [Gate.callIds]. rewrite app_nil_r. cbn in Hstep.
    destruct (0 <=? dt); [| discriminate]. injection Hstep as <-.
    revert I. now apply order_frame.
Qed.

Lemma order_run (seen : list string) (s s' : Gate.State) tr :
  GateOrder seen s -> Gate.run s tr = Some s' -> GateOrder (seen ++ Gate.callIds tr) s'.
Proof.
  revert seen s. induction tr as [|e tr IH]; intros seen s I Hrun.
  - cbn in Hrun |- *. injection Hrun as <-. now rewrite app_nil_r.
  - cbn [Gate.run] in Hrun. destruct (Gate.step e s) as [s1|] eqn:Hstep; [| discriminate].
    rewrite callIds_cons, app_assoc.
    apply (IH (seen ++ Gate.callIds [e]) s1); [| exact Hrun].
    exact (order_step seen s s1 e I Hstep).
Qed.

Lemma order_reachable (tr : list Gate.Event) (s : Gate.State) :
  Gate.run Gate.init tr = Some s -> GateOrder (Gate.callIds tr) s.
Proof. intros Hrun. exact (order_run [] Gate.init s tr order_init Hrun). Qed.

Lemma In_grantLocks (seen : list string) (s : Gate.State) (n : nat) :
  GateOrder seen s -> In n (grantLocks s) <-> (n < granted s)%nat.
Proof. intros I. rewrite (ord_locks _ _ I), in_seq. lia. Qed.

(** X15. At most one call holds the gate.  In every state that the gate
    can reach, whatever the call ids, at most one granted lock is not yet
    released; it is the lock granted last, and its ticket is the only entry
    of the map [releases]. *)
Theorem gate_mutual_exclusion (tr : list Gate.Event) (s : Gate.State) :
  Gate.run Gate.init tr = Some s ->
  (forall n1 n2, In n1 (grantLocks s) -> In n2 (grantLocks s) ->
     n1 ∉ Gate.resolved s -> n2 ∉ Gate.resolved s -> n1 = n2)
  /\ (forall n, In n (grantLocks s) -> n ∉ Gate.resolved s ->
        S n = granted s /\ exists id, Gate.releases s !! id = Some n)
  /\ (forall id1 id2 m1 m2, Gate.releases s !! id1 = Some m1 ->
        Gate.releases s !! id2 = Some m2 -> id1 = id2 /\ m1 = m2)
  /\ (forall id m, Gate.releases s !! id = Some m ->
        In m (grantLocks s) /\ m ∉ Gate.resolved s).
Proof.
  intros Hrun. pose proof (order_reachable tr s Hrun) as I.
  assert (Hlast : forall n, In n (grantLocks s) -> n ∉ Gate.resolved s ->
            S n = granted s /\ exists id, Gate.releases s !! id = Some n).
  { intros n Hn Hr. apply (In_grantLocks _ _ _ I) in Hn.
    destruct (ord_granted _ _ I n Hn) as [H | [id H]]; [contradiction |].
    split; [exact (proj1 (ord_held _ _ I _ _ H)) | now exists id]. }
  split; [| split; [exact Hlast | split]].
  - intros n1 n2 H1 H2 R1 R2.
    destruct (Hlast n1 H1 R1) as [E1 _]. destruct (Hlast n2 H2 R2) as [E2 _]. lia.
  - intros id1 id2 m1 m2 H1 H2.
    assert (id1 = id2) as <- by exact (ord_single _ _ I _ _ _ _ H1 H2).
    split; [reflexivity | congruence].
  - intros id m H. destruct (ord_held _ _ I _ _ H) as [H1 H2].
    split; [| exact H2]. apply (In_grantLocks _ _ _ I). lia.
Qed.

Lemma gate_mutual_exclusion_witness :
  let tr := [Gate.ToolCall (semanticCall "call-1"); Gate.ToolCall (semanticCall "call-2");
             Gate.Resume 0; Gate.ToolResult "call-1"; Gate.Resume 1] in
  exists s, Gate.run Gate.init tr = Some s
            /\ Gate.releases s !! "call-2" = Some 1%nat
            /\ forall id m, Gate.releases s !! id = Some m -> id = "call-2".
Proof.
  cbv zeta.
  destruct (Gate.run Gate.init
              [Gate.ToolCall (semanticCall "call-1"); Gate.ToolCall (semanticCall "call-2");
               Gate.Resume 0; Gate.ToolResult "call-1"; Gate.Resume 1])
    as [s|] eqn:Hrun; [| vm_compute in Hrun; discriminate].
  exists s. split; [reflexivity |].
  assert (H2 : Gate.releases s !! "call-2" = Some 1%nat)
    by (vm_compute in Hrun; injection Hrun as <-; reflexivity).
  split; [exact H2 |]. intros id m H.
  exact (proj1 (proj1 (proj2 (proj2 (gate_mutual_exclusion _ s Hrun))) _ _ _ _ H H2)).
Defined.

(** X16. The gate serves the calls in the order of their arrival.  In
    every reachable state the calls that have passed the gate are the first
    gated calls of the history, in their order, with the locks 0, 1, 2, ...;
    every gated call has arrived with the next lock number; and a waiting
    call is one of the later gated calls, at the position of its lock. *)
Theorem gate_first_come_first_served (tr : list Gate.Event) (s : Gate.State) :
  Gate.run Gate.init tr = Some s ->
  grantIds s = take (granted s) (Gate.callIds tr)
  /\ grantLocks s = seq 0 (granted s)
  /\ Gate.acquired s = length (Gate.callIds tr)
  /\ (forall n id, Gate.waiting s !! n = Some id ->
        (granted s <= n)%nat /\ Gate.callIds tr !! n = Some id)
  /\ (forall n, (granted s <= n < length (Gate.callIds tr))%nat ->
        exists id, Gate.waiting s !! n = Some id).
Proof.
  intros Hrun. pose proof (order_reachable tr s Hrun) as I.
  split; [exact (ord_ids _ _ I) |]. split; [exact (ord_locks _ _ I) |].
  split; [exact (ord_acquired _ _ I) |]. split.
  - intros n id H. split; [| exact (ord_waiting_id _ _ I _ _ H)].
    assert (Hs : is_Some (Gate.waiting s !! n)) by eauto.
    apply (ord_waiting _ _ I) in Hs. lia.
  - intros n Hn. rewrite <- (ord_acquired _ _ I) in Hn.
    apply (ord_waiting _ _ I) in Hn. exact Hn.
Qed.

Lemma gate_first_come_first_served_witness :
  let tr := [Gate.ToolCall (semanticCall "call-1"); Gate.ToolCall (semanticCall "call-2");
             Gate.Resume 0; Gate.ToolResult "call-1"; Gate.Resume 1] in
  exists s, Gate.run Gate.init tr = Some s
            /\ grantIds s = take (granted s) (Gate.callIds tr).
Proof.
  cbv zeta.
  destruct (Gate.run Gate.init
              [Gate.ToolCall (semanticCall "call-1"); Gate.ToolCall (semanticCall "call-2");
               Gate.Resume 0; Gate.ToolResult "call-1"; Gate.Resume 1])
    as [s|] eqn:Hrun; [| vm_compute in Hrun; discriminate].
  exists s. split; [reflexivity |].
  exact (proj1 (gate_first_come_first_served _ s Hrun)).
Defined.

Lemma releases_empty_iff (seen : list string) (s : Gate.State) :
  GateOrder seen s ->
  Gate.releases s = ∅ <-> forall j, (j < granted s)%nat -> j ∈ Gate.resolved s.
Proof.
  intros I. split.
  - intros He j Hj. destruct (ord_granted _ _ I j Hj) as [H | [id H]]; [exact H |].
    rewrite He, lookup_empty in H. discriminate.
  - intros Hall. apply map_empty. intros id.
    destruct (Gate.releases s !! id) as [m|] eqn:E; [| reflexivity].
    destruct (ord_held _ _ I _ _ E) as [H1 H2]. destruct H2. apply Hall. lia.
Qed.

Lemma run_app (s : Gate.State) (tr1 tr2 : list Gate.Event) :
  Gate.run s (tr1 ++ tr2)
  = match Gate.run s tr1 with Some s1 => Gate.run s1 tr2 | None => None end.
Proof.
  revert s. induction tr1 as [|e tr1 IH]; intros s; [reflexivity |].
  cbn [app Gate.run]. destruct (Gate.step e s); [apply IH | reflexivity].
Qed.

Lemma resume_enabled (seen : list string) (s : Gate.State) (n : nat) :
  GateOrder seen s ->
  is_Some (Gate.step (Gate.Resume n) s)
  <-> n = granted s /\ (granted s < Gate.acquired s)%nat /\ Gate.releases s = ∅.
Proof.
  intros I. rewrite (releases_empty_iff _ _ I). cbn [Gate.step]. split.
  - destruct (Gate.waiting s !! n) as [id|] eqn:Hw; [| intros [x Hx]; discriminate].
    destruct (Gate.prevResolved n s) eqn:Hp; [| intros [x Hx]; discriminate].
    intros _. rewrite prevResolved_spec in Hp.
    assert (Hn : (granted s <= n < Gate.acquired s)%nat)
      by (apply (ord_waiting _ _ I); eauto).
    assert (n = granted s) as ->.
    { destruct (decide (n = granted s)) as [-> | Hne]; [reflexivity |].
      assert (Hlt : (granted s < n)%nat) by lia.
      pose proof (ord_resolved _ _ I _ (Hp _ Hlt)). lia. }
    split; [reflexivity |]. split; [lia | exact Hp].
  - intros (-> & Hlt & Hall).
    assert (Hw : is_Some (Gate.waiting s !! granted s))
      by (apply (ord_waiting _ _ I); lia).
    destruct Hw as [id ->].
    apply prevResolved_spec in Hall. rewrite Hall. eauto.
Qed.

(** X17. Who may pass the gate.  In every reachable state the handler
    waiting with lock [n] can continue exactly when [n] is the earliest
    waiting lock and no ticket is held.  And when the call that holds the
    gate gets its result, no ticket is left, so that the earliest waiting
    call, if there is one, can continue. *)
Theorem gate_next_is_earliest_waiter (tr : list Gate.Event) (s : Gate.State) :
  Gate.run Gate.init tr = Some s ->
  (forall n, is_Some (Gate.step (Gate.Resume n) s)
             <-> n = granted s /\ (granted s < Gate.acquired s)%nat
                 /\ Gate.releases s = ∅)
  /\ (forall id m, Gate.releases s !! id = Some m ->
        exists s', Gate.step (Gate.ToolResult id) s = Some s'
                   /\ Gate.releases s' = ∅
                   /\ granted s' = granted s /\ Gate.acquired s' = Gate.acquired s
                   /\ ((granted s < Gate.acquired s)%nat ->
                       is_Some (Gate.step (Gate.Resume (granted s)) s'))).
Proof.
  intros Hrun. pose proof (order_reachable tr s Hrun) as I.
  split; [intros n; exact (resume_enabled _ s n I) |].
  intros id m Hm.
  destruct (Gate.step (Gate.ToolResult id) s) as [s'|] eqn:Hstep; [| discriminate].
  assert (Hrun' : Gate.run Gate.init (tr ++ [Gate.ToolResult id]) = Some s').
  { rewrite run_app, Hrun. cbn [Gate.run]. now rewrite Hstep. }
  pose proof (order_reachable _ s' Hrun') as I'.
  assert (Hshape : Gate.releases s' = delete id (Gate.releases s)
                   /\ granted s' = granted s /\ Gate.acquired s' = Gate.acquired s).
  { cbn in Hstep. injection Hstep as <-. unfold Gate.releaseTicket, granted.
    destruct (Gate.timers s !! id); cbn [Gate.releases]; rewrite Hm; auto. }
  destruct Hshape as (Hrel & Hg & Ha).
  assert (Hempty : Gate.releases s' = ∅).
  { apply map_empty. intros id'. rewrite Hrel.
    destruct (delete id (Gate.releases s) !! id') as [m'|] eqn:E; [| reflexivity].
    apply lookup_delete_Some in E as [Hne E]. destruct Hne.
    exact (ord_single _ _ I _ _ _ _ Hm E). }
  exists s'. split; [reflexivity |]. split; [exact Hempty |].
  split; [exact Hg |]. split; [exact Ha |].
  intros Hlt. apply (resume_enabled _ s' _ I'). rewrite Hg, Ha. auto.
Qed.

Lemma gate_next_is_earliest_waiter_witness :
  let tr := [Gate.ToolCall (semanticCall "call-1"); Gate.ToolCall (semanticCall "call-2");
             Gate.Resume 0] in
  exists s, Gate.run Gate.init tr = Some s
            /\ ~ is_Some (Gate.step (Gate.Resume 1) s).
Proof.
  cbv zeta.
  destruct (Gate.run Gate.init
              [Gate.ToolCall (semanticCall "call-1"); Gate.ToolCall (semanticCall "call-2");
               Gate.Resume 0])
    as [s|] eqn:Hrun; [| vm_compute in Hrun; discriminate].
  exists s. split; [reflexivity |]. intros H.
  apply (proj1 (gate_next_is_earliest_waiter _ s Hrun)) in H as (_ & _ & H).
  vm_compute in Hrun. injection Hrun as <-.
  apply (f_equal (fun m => m !! "call-1")) in H. vm_compute in H. discriminate.
Defined.

(** ** Contention gate: the timer frees a held gate *)

Lemma watch_init : GateWatch Gate.init.
Proof.
  split; cbn; intros *; rewrite lookup_empty; discriminate.
Qed.

(** Releasing the ticket of [id] in a state [s1] that differs from [s] by
    timers cleared, none of them of another call id. *)
Lemma watch_release (seen : list string) (s s1 : Gate.State) id why :
  GateOrder seen s -> GateWatch s ->
  Gate.releases s1 = Gate.releases s -> Gate.now s1 = Gate.now s ->
  Gate.nextTimer s1 = Gate.nextTimer s ->
  (forall i h, Gate.timers s1 !! i = Some h -> Gate.timers s !! i = Some h) ->
  (forall h x, Gate.armed s1 !! h = Some x -> Gate.armed s !! h = Some x) ->
  (forall i, i <> id -> Gate.timers s1 !! i = Gate.timers s !! i) ->
  (forall i h d, i <> id -> Gate.armed s !! h = Some (i, d) ->
                 Gate.armed s1 !! h = Some (i, d)) ->
  GateWatch (Gate.releaseTicket id why s1).
Proof.
  intros I [Wt Wi Wtl Wal] Hr Hn Hnt Ht Ha Hto Hao.
  assert (Hticket : forall id' m', id' <> id -> Gate.releases s !! id' = Some m' ->
            exists h d, Gate.timers s1 !! id' = Some h /\ Gate.armed s1 !! h = Some (id', d)
                        /\ d <= Gate.now s1 + Gate.AUTO_RELEASE_MS).
  { intros id' m' Hne H. destruct (Wt _ _ H) as (h & d & H1 & H2 & H3).
    exists h, d. rewrite (Hto _ Hne), Hn. split; [exact H1 |].
    split; [exact (Hao _ _ _ Hne H2) | exact H3]. }
  unfold Gate.releaseTicket. rewrite Hr.
  destruct (Gate.releases s !! id) as [m|] eqn:Hm.
  - split; unfold Gate.invoke;
      cbn [Gate.releases Gate.timers Gate.armed Gate.now Gate.nextTimer].
    + intros id' m' H. apply lookup_delete_Some in H as [Hne H].
      destruct Hne. exact (ord_single _ _ I _ _ _ _ Hm H).
    + intros i h id' d H1 H2. exact (Wi _ _ _ _ (Ht _ _ H1) (Ha _ _ H2)).
    + intros i h H. rewrite Hnt. exact (Wtl _ _ (Ht _ _ H)).
    + intros h x H. rewrite Hnt. exact (Wal _ _ (Ha _ _ H)).
  - split.
    + intros id' m' H. rewrite Hr in H. apply (Hticket id' m'); [| exact H].
      intros ->. congruence.
    + intros i h id' d H1 H2. exact (Wi _ _ _ _ (Ht _ _ H1) (Ha _ _ H2)).
    + intros i h H. rewrite Hnt. exact (Wtl _ _ (Ht _ _ H)).
    + intros h x H. rewrite Hnt. exact (Wal _ _ (Ha _ _ H)).
Qed.

Lemma watch_step (seen : list string) (s s' : Gate.State) e :
  GateOrder seen s -> GateWatch s -> Gate.step e s = Some s' -> GateWatch s'.
Proof.
  intros I W Hstep. destruct e as [ev | n | h | id | dt]; cbn in Hstep.
  - destruct (Gate.isGated ev); injection Hstep as <-; [| exact W].
    destruct W as [Wt Wi Wtl Wal]. split; assumption.
  - destruct (Gate.waiting s !! n) as [id|] eqn:Hw; [| discriminate].
    destruct (Gate.prevResolved n s) eqn:Hprev; [| discriminate]. injection Hstep as <-.
    rewrite prevResolved_spec in Hprev.
    assert (Hfree : forall id' m, Gate.releases s !! id' = Some m -> False).
    { intros id' m H. destruct (ord_held _ _ I _ _ H) as [H1 H2]. apply H2, Hprev.
      assert (Hs : is_Some (Gate.waiting s !! n)) by eauto.
      apply (ord_waiting _ _ I) in Hs. lia. }
    destruct W as [Wt Wi Wtl Wal].
    split; cbn [Gate.releases Gate.timers Gate.armed Gate.now Gate.nextTimer].
    + intros id' m. destruct (decide (id = id')) as [<- | Hne].
      * intros _. exists (Gate.nextTimer s), (Gate.now s + Gate.AUTO_RELEASE_MS).
        rewrite !lookup_insert_eq. split; [reflexivity |]. split; [reflexivity | lia].
      * rewrite lookup_insert_ne by exact Hne. intros H. destruct (Hfree _ _ H).
    + intros id1 h1 id2 d. destruct (decide (id = id1)) as [<- | Hne].
      * rewrite lookup_insert_eq. intros [= <-]. rewrite lookup_insert_eq.
        now intros [= <- _].
      * rewrite lookup_insert_ne by exact Hne. intros H1.
        pose proof (Wtl _ _ H1) as Hlt.
        rewrite lookup_insert_ne by lia. now apply Wi.
    + intros id1 h1. destruct (decide (id = id1)) as [<- | Hne].
      * rewrite lookup_insert_eq. intros [= <-]. lia.
      * rewrite lookup_insert_ne by exact Hne. intros H. apply Wtl in H. lia.
    + intros h1 x. destruct (decide (Gate.nextTimer s = h1)) as [<- | Hne].
      * intros _. lia.
      * rewrite lookup_insert_ne by exact Hne. intros H. apply Wal in H. lia.
  - destruct (Gate.armed s !! h) as [[id d]|] eqn:Ha; [| discriminate].
    destruct (d <=? Gate.now s); [| discriminate]. injection Hstep as <-.
    apply (watch_release seen s); try assumption; try reflexivity;
      cbn [Gate.timers Gate.armed].
    + auto.
    + intros h1 x H. now apply lookup_delete_Some in H as [_ H].
    + intros i0 h1 d1 Hne H. rewrite lookup_delete_ne; [exact H |].
      intros <-. congruence.
  - injection Hstep as <-.
    destruct (Gate.timers s !! id) as [h|] eqn:Ht.
    + apply (watch_release seen s); try assumption; try reflexivity;
        cbn [Gate.timers Gate.armed].
      * intros i0 h1 H. now apply lookup_delete_Some in H as [_ H].
      * intros h1 x H. now apply lookup_delete_Some in H as [_ H].
      * intros i0 Hne. apply lookup_delete_ne. congruence.
      * intros i0 h1 d1 Hne H. rewrite lookup_delete_ne; [exact H |].
        intros <-. apply Hne. exact (watch_timer _ W _ _ _ _ Ht H).
    + apply (watch_release seen s); auto.
  - destruct (0 <=? dt) eqn:Hdt; [| discriminate]. injection Hstep as <-.
    apply Z.leb_le in Hdt. destruct W as [Wt Wi Wtl Wal].
    split; cbn [Gate.releases Gate.timers Gate.armed Gate.now Gate.nextTimer];
      try assumption.
    intros id m H. destruct (Wt _ _ H) as (h' & d' & H1 & H2 & H3).
    exists h', d'. split; [exact H1 |]. split; [exact H2 | lia].
Qed.

Lemma watch_reachable (tr : list Gate.Event) (s : Gate.State) :
  Gate.run Gate.init tr = Some s -> GateWatch s.
Proof.
  assert (H : forall tr seen s0 s1, GateOrder seen s0 -> GateWatch s0 ->
            Gate.run s0 tr = Some s1 -> GateWatch s1).
  { clear. induction tr as [|e tr IH]; intros seen s0 s1 I W Hrun.
    - cbn in Hrun. now injection Hrun as <-.
    - cbn [Gate.run] in Hrun.
      destruct (Gate.step e s0) as [s2|] eqn:Hstep; [| discriminate].
      exact (IH _ s2 s1 (order_step seen s0 s2 e I Hstep)
                (watch_step seen s0 s2 e I W Hstep) Hrun). }
  exact (H tr [] Gate.init s order_init watch_init).
Qed.

(** X18. A held gate is freed by its timer, also when no result ever
    arrives and whatever the call ids.  In every reachable state, for the
    ticket that is held there is a timer armed for its call whose deadline
    is at most 120000 ms ahead; it cannot fire before the deadline; and once
    the clock has reached the deadline it fires, which releases the lock
    and leaves no ticket. *)
Theorem gate_timer_frees_the_gate (tr : list Gate.Event) (s : Gate.State) :
  Gate.run Gate.init tr = Some s ->
  forall id m, Gate.releases s !! id = Some m ->
    exists h d,
      Gate.armed s !! h = Some (id, d)
      /\ d <= Gate.now s + 120000
      /\ (Gate.now s < d -> Gate.step (Gate.TimerFires h) s = None)
      /\ (forall dt, 0 <= dt -> d <= Gate.now s + dt ->
            exists s', Gate.run s [Gate.Tick dt; Gate.TimerFires h] = Some s'
                       /\ Gate.releases s' = ∅
                       /\ m ∈ Gate.resolved s'
                       /\ Gate.releaseLog s' = Gate.releaseLog s ++ [(m, Gate.ByTimer)]).
Proof.
  intros Hrun id m Hm.
  pose proof (order_reachable tr s Hrun) as I.
  pose proof (watch_reachable tr s Hrun) as W.
  destruct (watch_ticket _ W _ _ Hm) as (h & d & _ & Ha & Hd).
  exists h, d. split; [exact Ha |]. split; [exact Hd |]. split.
  - intros Hlt. cbn [Gate.step]. rewrite Ha.
    destruct (d <=? Gate.now s) eqn:E; [apply Z.leb_le in E; lia | reflexivity].
  - intros dt Hdt Hle. cbn [Gate.run Gate.step].
    apply Z.leb_le in Hdt. rewrite Hdt. cbn [Gate.armed Gate.now]. rewrite Ha.
    apply Z.leb_le in Hle. rewrite Hle.
    eexists. split; [reflexivity |].
    unfold Gate.releaseTicket, Gate.invoke. cbn [Gate.releases]. rewrite Hm.
    cbn [Gate.releases Gate.resolved Gate.releaseLog].
    split; [| split; [| reflexivity]].
    + apply map_empty. intros id'.
      destruct (delete id (Gate.releases s) !! id') as [m'|] eqn:E; [| reflexivity].
      apply lookup_delete_Some in E as [Hne E]. destruct Hne.
      exact (ord_single _ _ I _ _ _ _ Hm E).
    + apply elem_of_union. left. now apply elem_of_singleton.
Qed.

Lemma gate_timer_frees_the_gate_witness :
  let tr := [Gate.ToolCall (semanticCall "call-1"); Gate.Resume 0; Gate.Tick 500] in
  exists s, Gate.run Gate.init tr = Some s
            /\ exists h d, Gate.armed s !! h = Some ("call-1", d)
                           /\ d <= Gate.now s + 120000.
Proof.
  cbv zeta.
  destruct (Gate.run Gate.init
              [Gate.ToolCall (semanticCall "call-1"); Gate.Resume 0; Gate.Tick 500])
    as [s|] eqn:Hrun; [| vm_compute in Hrun; discriminate].
  exists s. split; [reflexivity |].
  assert (Hm : Gate.releases s !! "call-1" = Some 0%nat)
    by (vm_compute in Hrun; injection Hrun as <-; reflexivity).
  destruct (gate_timer_frees_the_gate _ s Hrun "call-1" 0%nat Hm) as (h & d & H1 & H2 & _).
  exists h, d. auto.
Defined.

(** ** Gate, router and call label *)

Lemma isGated_grepEvent (id : string) (p : Params) :
  Gate.isGated (grepEvent id p) = match query p with Some _ => true | None => false end.
Proof. reflexivity. Qed.

Lemma rgRun_only_rg (host : Host) p cwd tr :
  exists calls, snd (rgRun host p cwd tr) = tr ++ calls
                /\ Forall (fun c => cmd c = "rg") calls.
Proof.
  destruct (rgRun_calls host p cwd tr) as [-> | ->]; eexists;
    (split; [reflexivity |]); repeat constructor.
Qed.

(** X19. Three places decide, each for itself, whether a request is a
    semantic one: the [tool_call] handler ([typeof query === "string"]), the
    router and the call label (both by the truth value of [query]).  They
    agree but for the empty query.  The handler treats a call of this tool
    as gated exactly when the request has a query field; the router calls
    the semantic engine exactly when the query is truthy, and the label is
    then the semantic one.  So for every request that the router sends to
    the semantic engine the handler acquires a lock and queues the call
    under it, and the requests that are queued although the router does not
    call the semantic engine are exactly those with the empty string as
    query.  When the host runs the tool body relative to the grant of the
    lock is not decided in [grep.ts] and is no part of this statement. *)
Theorem gate_router_label_agree
    (host : Host) (p : Params) cwd tr (id : string) (theme : Theme) :
  (Gate.isGated (grepEvent id p) = true <-> exists q, query p = Some q)
  /\ (truthyS (query p) = true -> Gate.isGated (grepEvent id p) = true)
  /\ (Gate.isGated (grepEvent id p) = true /\ truthyS (query p) = false
      <-> query p = Some "")
  /\ (exists calls, snd (execute host p cwd tr) = tr ++ calls
        /\ (Exists (fun c => cmd c = "colgrep") calls <-> truthyS (query p) = true))
  /\ (exists desc,
        renderCall p theme
        = fg theme "accent"
            (bold theme (if truthyS (query p)
                         then "Grep" +:+ String MIDDLE_DOT "sem" else "Grep"))
          +:+ " " +:+ desc)
  /\ (truthyS (query p) = true ->
      forall s, exists s',
        Gate.step (Gate.ToolCall (grepEvent id p)) s = Some s'
        /\ Gate.acquired s' = S (Gate.acquired s)
        /\ Gate.waiting s' !! Gate.acquired s = Some id
        /\ Gate.releases s' = Gate.releases s).
Proof.
  cbn [Gate.step]. rewrite isGated_grepEvent.
  split; [| split; [| split; [| split; [| split]]]].
  - destruct (query p) as [q|].
    + split; [intros _; now exists q | reflexivity].
    + split; [discriminate | intros [q H]; discriminate].
  - destruct (query p); [reflexivity | discriminate].
  - destruct (query p) as [[|c q]|]; cbn [truthyS nonEmpty].
    + split; [reflexivity | now split].
    + split; [intros [_ H]; discriminate | discriminate].
    + split; [intros [H _]; discriminate | discriminate].
  - assert (Hno : forall calls, Forall (fun c => cmd c = "rg") calls ->
              ~ Exists (fun c => cmd c = "colgrep") calls).
    { intros calls Hall Hex. apply Exists_exists in Hex as (c & Hc & Hcmd).
      rewrite Forall_forall in Hall. specialize (Hall c Hc). congruence. }
    destruct (execute_calls_cases host p cwd tr)
      as [(Hq & _ & ->) | [(Hq & _ & ->) | (Hq & [-> | ->])]].
    + exists []. split; [now rewrite app_nil_r |]. rewrite Hq. split; [| discriminate].
      intros H. now apply Exists_nil in H.
    + destruct (rgRun_only_rg host p cwd tr) as (calls & -> & Hall).
      exists calls. split; [reflexivity |]. rewrite Hq. split; [| discriminate].
      intros H. destruct (Hno _ Hall H).
    + exists [colCall p cwd]. split; [reflexivity |]. rewrite Hq.
      split; [reflexivity |]. intros _. now constructor.
    + destruct (rgRun_only_rg host (fallbackParams p) cwd (tr ++ [colCall p cwd]))
        as (calls & -> & Hall).
      exists (colCall p cwd :: calls). split; [now rewrite <- app_assoc |].
      rewrite Hq. split; [reflexivity |]. intros _. now constructor.
  - unfold renderCall, callLabel, callEngine. cbv zeta.
    destruct (truthyS (query p)); eexists; reflexivity.
  - intros Hq s. destruct (query p) as [q|]; [| discriminate].
    eexists. split; [reflexivity |]. cbn [Gate.acquired Gate.waiting Gate.releases].
    split; [reflexivity |]. split; [apply lookup_insert_eq | reflexivity].
Qed.

(** ** Unit lines of the semantic engine *)

Lemma reRangeAt_range (a b tail : string) :
  isNumber a -> isNumber b ->
  match tail with String c _ => isDigit c = false | EmptyString => True end ->
  reRangeAt (a +:+ "-" +:+ b +:+ tail) = Some (a +:+ "-" +:+ b).
Proof.
  intros [Ha1 Ha2] [Hb1 Hb2] Ht. unfold reRangeAt.
  rewrite (span_append isDigit a ("-" +:+ b +:+ tail) Ha2) by reflexivity.
  rewrite Ha1. cbn [String.append]. rewrite Ascii.eqb_refl.
  rewrite (span_append isDigit b tail Hb2 Ht). now rewrite Hb1.
Qed.

Lemma rePathRange_path (path rest g2 : string) :
  nonEmpty path = true -> allChars isPathChar path = true ->
  reRangeAt rest = Some g2 ->
  rePathRange (path +:+ ":" +:+ rest) = Some (path, g2).
Proof.
  intros Hn Hp Hr. induction path as [|c path IH]; [discriminate |].
  cbn [allChars] in Hp. apply andb_true_iff in Hp as [Hc Hp].
  unfold isPathChar in Hc. apply andb_true_iff in Hc as [Hdot Hcolon].
  cbn [String.append rePathRange]. rewrite Hdot.
  destruct path as [|d path].
  - cbn [String.append]. rewrite Ascii.eqb_refl, Hr. reflexivity.
  - assert (Hd : Ascii.eqb d ":" = false).
    { cbn [allChars] in Hp. apply andb_true_iff in Hp as [Hd _].
      unfold isPathChar in Hd. apply andb_true_iff in Hd as [_ Hd].
      now apply negb_true_iff in Hd. }
    cbn [String.append] in *. rewrite Hd. now rewrite (IH eq_refl Hp).
Qed.

Lemma allDot_digits (s : string) : allChars isDigit s = true -> allDot s = true.
Proof.
  induction s as [|c s IH]; [reflexivity |]. cbn [allChars allDot]. intros H.
  apply andb_true_iff in H as [Hc H]. rewrite (IH H), andb_true_r.
  destruct c as [[] [] [] [] [] [] [] []]; vm_compute in Hc |- *;
    first [reflexivity | discriminate Hc].
Qed.

Lemma allDot_append (a b : string) : allDot (a +:+ b) = allDot a && allDot b.
Proof.
  induction a as [|c a IH]; [reflexivity |]. simpl. now rewrite IH, andb_assoc.
Qed.

Lemma stripRange_path (path range : string) :
  allChars isPathChar path = true -> allDot range = true ->
  stripRange (path +:+ ":" +:+ range) = path.
Proof.
  intros Hp Hr. induction path as [|c path IH].
  - cbn [String.append stripRange]. now rewrite Ascii.eqb_refl, Hr.
  - cbn [allChars] in Hp. apply andb_true_iff in Hp as [Hc Hp].
    unfold isPathChar in Hc. apply andb_true_iff in Hc as [_ Hc].
    apply negb_true_iff in Hc.
    specialize (IH Hp). cbn [String.append stripRange] in *.
    rewrite Hc. cbn [andb]. now rewrite IH.
Qed.

Lemma unit_entry (p : Params) (u : UnitLine) :
  wellFormedUnit u ->
  colEntry p (unitText u) = [unitEntry u]
  /\ stripRange (unitEntry u) = u_path u
  /\ nonEmpty (trim (unitText u)) = true.
Proof.
  intros (Hn & Hp & Hf & Ht & Htail).
  assert (Hblank : nonEmpty (trim (unitText u)) = true).
  { destruct (trim (unitText u)) eqn:E; [| reflexivity].
    apply trim_empty_allSpace in E. unfold unitText in E.
    rewrite !allSpace_append in E. cbn in E. now rewrite andb_false_r in E. }
  split; [| split; [| exact Hblank]].
  - unfold colEntry. rewrite Hblank. cbn [negb]. unfold unitText, unitRange.
    rewrite (rePathRange_path (u_path u) _ (u_from u +:+ "-" +:+ u_to u) Hn Hp).
    + reflexivity.
    + pose proof (reRangeAt_range (u_from u) (u_to u) (u_tail u) Hf Ht Htail) as H.
      rewrite append_assoc. cbn [String.append] in H |- *. exact H.
  - unfold unitEntry, unitRange. apply stripRange_path; [exact Hp |].
    rewrite allDot_append. cbn [String.append allDot].
    destruct Hf as [_ Hf]. destruct Ht as [_ Ht].
    now rewrite (allDot_digits _ Hf), (allDot_digits _ Ht).
Qed.

Lemma unit_entries (p : Params) (us : list UnitLine) :
  Forall wellFormedUnit us ->
  colFiles p (map unitText us) = map unitEntry us
  /\ map stripRange (map unitEntry us) = map u_path us
  /\ List.filter (fun l => nonEmpty (trim l)) (map unitText us) = map unitText us.
Proof.
  rewrite colFiles_entries.
  induction 1 as [|u us Hu _ (IH1 & IH2 & IH3)]; [auto |].
  destruct (unit_entry p u Hu) as (H1 & H2 & H3).
  cbn [map flat_map List.filter]. rewrite H1, H2, H3, IH1, IH2, IH3. auto.
Qed.

(** X20. When the cleaned output of the semantic engine consists of unit
    lines [<path>:<from>-<to>...], with paths without colon, and does not
    begin with [No results found], the answer lists one entry
    [<path>:<from>-<to>] for each line, in their order; the result count is
    the number of lines; and the files-matched count, in the details and in
    the header, is the number of different paths. *)
Theorem semantic_units_are_counted
    (p : Params) cwd (s err : string) (us : list UnitLine) :
  Forall wellFormedUnit us -> us <> [] ->
  splitLines (trim (stripAnsi s)) = map unitText us ->
  startsWith "No results found" (trim (stripAnsi s)) = false ->
  let r := colResponse p cwd (exited 0 s err) in
  let distinct := Z.of_nat (length (remove_dups (map u_path us))) in
  isError r = false
  /\ (exists n, text r = headerLine "ix" n (showZ distinct)
                         +:+ String LF (trim (stripAnsi s)))
  /\ exists d, details r = Some d
               /\ files d = Some (map unitEntry us)
               /\ resultCount d = Z.of_nat (length us)
               /\ filesMatched d = Some distinct
               /\ 1 <= distinct <= Z.of_nat (length us).
Proof.
  intros Hwf Hne Hlines Hstart. cbv zeta.
  destruct (unit_entries p us Hwf) as (H1 & H2 & H3).
  assert (Hout : nonEmpty (trim (stripAnsi s)) = true).
  { destruct (trim (stripAnsi s)) eqn:E; [| reflexivity]. cbn in Hlines.
    destruct us as [|u [|u' us]]; [contradiction | | discriminate].
    apply Forall_inv in Hwf. destruct (unit_entry p u Hwf) as (_ & _ & H).
    cbn [map] in Hlines. injection Hlines as Hu. now rewrite <- Hu in H. }
  unfold colResponse, exited. cbn [killed code stdout stderr Z.eqb negb]. cbv zeta.
  rewrite Hout, Hstart. cbn [negb orb].
  unfold colFinish. cbv zeta. rewrite Hlines, H1. unfold uniqueFilesSize. rewrite H2.
  cbn [isError text details files resultCount filesMatched].
  assert (Hlen : (1 <= length (remove_dups (map u_path us)) <= length us)%nat).
  { split.
    - destruct us as [|u us]; [contradiction |].
      assert (Hin : u_path u ∈ remove_dups (map u_path (u :: us))).
      { apply elem_of_remove_dups. cbn [map]. apply list_elem_of_here. }
      destruct (remove_dups (map u_path (u :: us))); [| cbn [length]; lia].
      now apply not_elem_of_nil in Hin.
    - rewrite <- (length_map u_path us). apply length_remove_dups. }
  split; [reflexivity |]. split.
  - eexists. unfold headerLine. cbn [String.append]. reflexivity.
  - eexists. split; [reflexivity |]. cbn [files resultCount filesMatched].
    rewrite length_map.
    split; [reflexivity |]. split.
    + destruct (length us =? 0)%nat eqn:E; [| reflexivity].
      apply Nat.eqb_eq in E. lia.
    + split; [reflexivity | lia].
Qed.

Lemma semantic_units_are_counted_witness :
  let us := [ {| u_path := "src/a.ts"; u_from := "10"; u_to := "12"; u_tail := " fn parse()" |};
              {| u_path := "src/a.ts"; u_from := "20"; u_to := "31"; u_tail := "" |};
              {| u_path := "src/b.ts"; u_from := "1"; u_to := "5"; u_tail := "" |} ] in
  exists d,
    details (colResponse (queryOnly "parse") "/repo"
               (exited 0 (joinLines (map unitText us)) "indexed 12 files"))
    = Some d
    /\ resultCount d = 3 /\ filesMatched d = Some 2.
Proof.
  cbv zeta.
  assert (Hwf : Forall wellFormedUnit
            [ {| u_path := "src/a.ts"; u_from := "10"; u_to := "12";
                 u_tail := " fn parse()" |};
              {| u_path := "src/a.ts"; u_from := "20"; u_to := "31"; u_tail := "" |};
              {| u_path := "src/b.ts"; u_from := "1"; u_to := "5"; u_tail := "" |} ]).
  { repeat constructor. }
  destruct (semantic_units_are_counted (queryOnly "parse") "/repo"
              (joinLines (map unitText
                 [ {| u_path := "src/a.ts"; u_from := "10"; u_to := "12";
                      u_tail := " fn parse()" |};
                   {| u_path := "src/a.ts"; u_from := "20"; u_to := "31"; u_tail := "" |};
                   {| u_path := "src/b.ts"; u_from := "1"; u_to := "5"; u_tail := "" |} ]))
              "indexed 12 files" _
              Hwf ltac:(discriminate) eq_refl eq_refl)
    as (_ & _ & d & Hd & _ & Hc & Hm & _).
  exists d. split; [exact Hd |]. split; [exact Hc | exact Hm].
Defined.

(** ** Result count of the lexical engine under an offset *)

Lemma splitOn_lfFree (s : string) : Forall (fun l => lfFree l = true) (splitLines s).
Proof.
  unfold splitLines. induction s as [|c s IH]; cbn [splitOn].
  - repeat constructor.
  - destruct (Ascii.eqb c LF) eqn:E.
    + constructor; [reflexivity | exact IH].
    + destruct (splitOn LF s) as [|h t]; [repeat constructor; cbn; now rewrite E |].
      apply Forall_cons in IH as [Hh Ht]. constructor; [| exact Ht].
      unfold lfFree in *. cbn [allChars]. now rewrite E, Hh.
Qed.

Lemma splitLines_cons (l t : string) :
  lfFree l = true -> splitLines (l +:+ String LF t) = l :: splitLines t.
Proof.
  unfold splitLines, lfFree. induction l as [|c l IH]; intros H.
  - cbn [String.append splitOn]. now rewrite Ascii.eqb_refl.
  - cbn [allChars] in H. apply andb_true_iff in H as [Hc H].
    apply negb_true_iff in Hc. cbn [String.append splitOn]. rewrite Hc.
    now rewrite (IH H).
Qed.

Lemma splitLines_single (l : string) : lfFree l = true -> splitLines l = [l].
Proof.
  unfold splitLines, lfFree. induction l as [|c l IH]; intros H; [reflexivity |].
  cbn [allChars] in H. apply andb_true_iff in H as [Hc H].
  apply negb_true_iff in Hc. cbn [splitOn]. rewrite Hc. now rewrite (IH H).
Qed.

Lemma lfFree_trimEnd (l : string) : lfFree l = true -> lfFree (trimEnd l) = true.
Proof.
  unfold lfFree. induction l as [|c l IH]; intros H; [reflexivity |].
  cbn [allChars] in H. apply andb_true_iff in H as [Hc H]. specialize (IH H).
  cbn [trimEnd]. destruct (trimEnd l) as [|d r].
  - destruct (isSpace c); [reflexivity |]. cbn [allChars]. now rewrite Hc.
  - cbn [allChars] in *. now rewrite Hc, IH.
Qed.

Lemma isMatchLine_cons (c : ascii) (l : string) :
  isMatchLine (String c l) = isDigit c && colonAfterDigits l.
Proof.
  unfold isMatchLine, colonAfterDigits. cbn [span].
  destruct (isDigit c); [| reflexivity].
  now destruct (span isDigit l) as [a b].
Qed.

Lemma colonAfterDigits_cons (c : ascii) (l : string) :
  colonAfterDigits (String c l)
  = if isDigit c then colonAfterDigits l else Ascii.eqb c ":".
Proof.
  unfold colonAfterDigits. cbn [span].
  destruct (isDigit c); [| reflexivity].
  now destruct (span isDigit l) as [a b].
Qed.

Lemma space_not_digit_colon (c : ascii) :
  isSpace c = true -> isDigit c = false /\ Ascii.eqb c ":" = false.
Proof.
  destruct c as [[] [] [] [] [] [] [] []]; vm_compute; intros H;
    try discriminate H; auto.
Qed.

Lemma colonAfterDigits_trimEnd (s : string) :
  colonAfterDigits (trimEnd s) = colonAfterDigits s.
Proof.
  induction s as [|c s IH]; [reflexivity |].
  rewrite (colonAfterDigits_cons c s). cbn [trimEnd].
  destruct (trimEnd s) as [|d r] eqn:E.
  - destruct (isSpace c) eqn:Ec.
    + destruct (space_not_digit_colon c Ec) as [-> ->]. reflexivity.
    + rewrite colonAfterDigits_cons. now rewrite <- IH.
  - rewrite colonAfterDigits_cons. now rewrite IH.
Qed.

Lemma isMatchLine_trimEnd (l : string) : isMatchLine (trimEnd l) = isMatchLine l.
Proof.
  destruct l as [|c l]; [reflexivity |]. rewrite isMatchLine_cons.
  pose proof (colonAfterDigits_trimEnd l) as H. cbn [trimEnd].
  destruct (trimEnd l) as [|d r] eqn:E.
  - destruct (isSpace c) eqn:Ec.
    + destruct (space_not_digit_colon c Ec) as [-> _]. reflexivity.
    + rewrite isMatchLine_cons. now rewrite <- H.
  - rewrite isMatchLine_cons. now rewrite H.
Qed.

Lemma countMatches_cons (x : string) (l : list string) :
  countMatches (x :: l)
  = ((if isMatchLine x then 1 else 0) + countMatches l)%nat.
Proof. unfold countMatches. cbn [List.filter]. now destruct (isMatchLine x). Qed.

Lemma countMatches_trimEnd (lines : list string) :
  Forall (fun l => lfFree l = true) lines ->
  countMatches (splitLines (trimEnd (joinLines lines))) = countMatches lines.
Proof.
  induction 1 as [|l lines Hl Hlines IH]; [reflexivity |].
  destruct lines as [|l' lines].
  - cbn [joinLines]. rewrite (splitLines_single _ (lfFree_trimEnd l Hl)).
    rewrite !countMatches_cons. now rewrite isMatchLine_trimEnd.
  - change (joinLines (l :: l' :: lines))
      with (l +:+ String LF (joinLines (l' :: lines))).
    rewrite trimEnd_append. cbn [trimEnd].
    rewrite (countMatches_cons l). rewrite <- IH.
    destruct (trimEnd (joinLines (l' :: lines))) as [|d r].
    + cbn [isSpace]. replace (isSpace LF) with true by reflexivity.
      rewrite (splitLines_single _ (lfFree_trimEnd l Hl)).
      rewrite countMatches_cons, isMatchLine_trimEnd. reflexivity.
    + rewrite (splitLines_cons l _ Hl). now rewrite countMatches_cons.
Qed.

Lemma trimStart_tidy (lines : list string) :
  Forall (fun l => tidyLine l = true) lines ->
  trimStart (joinLines lines) = joinLines (dropEmptyLines lines).
Proof.
  induction 1 as [|l lines Hl _ IH]; [reflexivity |].
  destruct lines as [|l' lines].
  - destruct l as [|c l]; [reflexivity |]. cbn [joinLines dropEmptyLines trimStart].
    cbn [tidyLine] in Hl. apply negb_true_iff in Hl. now rewrite Hl.
  - change (joinLines (l :: l' :: lines))
      with (l +:+ String LF (joinLines (l' :: lines))).
    destruct l as [|c l].
    + cbn [String.append trimStart dropEmptyLines].
      replace (isSpace LF) with true by reflexivity. exact IH.
    + cbn [tidyLine] in Hl. apply negb_true_iff in Hl.
      cbn [String.append trimStart dropEmptyLines]. now rewrite Hl.
Qed.

Lemma dropEmptyLines_spec (lines : list string) :
  countMatches (dropEmptyLines lines) = countMatches lines
  /\ (forall P : string -> Prop, Forall P lines -> Forall P (dropEmptyLines lines)).
Proof.
  induction lines as [|l lines [IH1 IH2]]; [split; auto |].
  destruct l as [|c l]; cbn [dropEmptyLines]; [| split; auto].
  split; [rewrite countMatches_cons; exact IH1 |].
  intros P H. apply Forall_cons in H as [_ H]. now apply IH2.
Qed.

(** The matched lines survive the trimming of the joined lines. *)
Lemma countMatches_trim (lines : list string) :
  Forall (fun l => lfFree l = true) lines ->
  Forall (fun l => tidyLine l = true) lines ->
  countMatches (splitLines (trim (joinLines lines))) = countMatches lines.
Proof.
  intros Hlf Htidy. unfold trim. rewrite (trimStart_tidy lines Htidy).
  destruct (dropEmptyLines_spec lines) as [Hc Hall].
  rewrite countMatches_trimEnd by (now apply Hall). exact Hc.
Qed.

Lemma positiveOr_nonneg (o : option Z) : 0 <= positiveOr o 0.
Proof.
  unfold positiveOr. destruct o as [n|]; [| lia].
  destruct (n >? 0) eqn:E; lia.
Qed.

(** X21. The result count under an offset.  When the lexical engine was
    not killed and exited with a status other than 1 and 2, no line of its
    cleaned output begins with white space, and the offset [k] of the
    request (0 when absent or not positive) is less than the number [M] of
    matched lines of the cleaned output, the answer is a success whose
    result count is [M - k]. *)
Theorem offset_result_count (p : Params) cwd (result : ExecResult) :
  killed result = false -> code result <> 2 -> code result <> 1 ->
  let lines := cleanedLines result in
  let k := positiveOr (offset p) 0 in
  Forall (fun l => tidyLine l = true) lines ->
  k < Z.of_nat (countMatches lines) ->
  isError (rgResponse p cwd result) = false
  /\ exists d, details (rgResponse p cwd result) = Some d
               /\ resultCount d = Z.of_nat (countMatches lines) - k
               /\ engine d = Some rg.
Proof.
  intros Hk H2 H1 lines k Htidy Hlt.
  pose proof (positiveOr_nonneg (offset p)) as Hk0. fold k in Hk0.
  unfold rgResponse. rewrite Hk.
  apply Z.eqb_neq in H2, H1. rewrite H2, H1. cbv zeta.
  fold (cleanedLines result) in *.
  set (stats := parseAndStripRgStats (trimmedOr (stdout result) "")) in *.
  assert (Hlines : lines = splitLines (clean stats)) by reflexivity.
  assert (Hout : nonEmpty (clean stats) = true).
  { destruct (clean stats) eqn:E; [| reflexivity].
    rewrite Hlines in Hlt. cbn in Hlt. lia. }
  rewrite Hout. cbn [negb orb]. fold lines. fold k.
  assert (Hfinish : forall out,
            Z.of_nat (countMatches (splitLines out)) = Z.of_nat (countMatches lines) - k ->
            isError (rgFinish p cwd stats out) = false
            /\ exists d, details (rgFinish p cwd stats out) = Some d
                         /\ resultCount d = Z.of_nat (countMatches lines) - k
                         /\ engine d = Some rg).
  { intros out Hc. split; [reflexivity |]. eexists. split; [reflexivity |].
    cbn [resultCount engine]. split; [| reflexivity].
    destruct (Z.of_nat (countMatches (splitLines out)) =? 0) eqn:E; [| exact Hc].
    apply Z.eqb_eq in E. lia. }
  destruct (k >? 0) eqn:Ek.
  - assert (Hpos : 0 < k) by lia.
    destruct (offsetPass_spec k lines Hpos) as (_ & Hcount & _ & Hin).
    assert (Hkept : forall P : string -> Prop, Forall P lines ->
                                               Forall P (offsetPass k lines)).
    { intros P HP. rewrite Forall_forall in *. intros x Hx.
      apply HP. apply list_elem_of_In. apply (Hin x Hx). }
    pose proof (countMatches_trim (offsetPass k lines)
                  (Hkept _ (splitOn_lfFree (clean stats)))
                  (Hkept _ Htidy)) as Htrim.
    assert (Hc : Z.of_nat (countMatches
                   (splitLines (trim (joinLines (offsetPass k lines)))))
                 = Z.of_nat (countMatches lines) - k) by lia.
    destruct (trim (joinLines (offsetPass k lines))) as [|c r] eqn:E.
    + replace (countMatches (splitLines "")) with 0%nat in Hc by reflexivity. lia.
    + cbn [nonEmpty negb]. now apply Hfinish.
  - apply Hfinish. rewrite <- Hlines. lia.
Qed.

Lemma offset_result_count_witness :
  exists d,
    details (rgResponse (setOffset (Some 3) (patternOnly "foo")) "/repo"
               (exited 0 sampleRgTen "")) = Some d
    /\ resultCount d = 7.
Proof.
  assert (Htidy : Forall (fun l => tidyLine l = true)
                    (cleanedLines (exited 0 sampleRgTen "")))
    by (vm_compute; repeat constructor).
  destruct (offset_result_count (setOffset (Some 3) (patternOnly "foo")) "/repo"
              (exited 0 sampleRgTen "") eq_refl ltac:(discriminate) ltac:(discriminate)
              Htidy eq_refl) as (_ & d & Hd & Hc & _).
  exists d. split; [exact Hd | exact Hc].
Defined.

(** ** Rendering of the answers *)

Lemma rgResponse_error_text (p : Params) cwd (r : ExecResult) :
  isError (rgResponse p cwd r) = true ->
  startsWith "Error: " (text (rgResponse p cwd r)) = true.
Proof.
  unfold rgResponse. destruct (killed r); [reflexivity |].
  destruct (code r =? 2); [intros _; apply (startsWith_append "Error: ") |].
  cbv zeta. destruct (negb _ || _); [discriminate |].
  destruct (_ >? 0); [destruct (negb _) |]; discriminate.
Qed.

Lemma colResponse_error_text (p : Params) cwd (r : ExecResult) :
  isError (colResponse p cwd r) = true ->
  startsWith "Error: " (text (colResponse p cwd r)) = true.
Proof.
  unfold colResponse. destruct (killed r); [reflexivity |].
  destruct (negb (code r =? 0)); [intros _; apply (startsWith_append "Error: ") |].
  cbv zeta. destruct (stdout r); [destruct (negb _ || _) |]; discriminate.
Qed.

Lemma rgResponse_count (p : Params) cwd (r : ExecResult) (d : GrepDetails) :
  details (rgResponse p cwd r) = Some d -> 0 <= resultCount d.
Proof.
  unfold rgResponse. destruct (killed r); [discriminate |].
  destruct (code r =? 2); [discriminate |]. cbv zeta.
  assert (H : forall st out d0, details (rgFinish p cwd st out) = Some d0 ->
                                0 <= resultCount d0).
  { intros st out d0 [= <-]. cbn [resultCount]. destruct (_ =? 0); lia. }
  destruct (negb _ || _); [intros [= <-]; cbn; lia |].
  destruct (_ >? 0); [destruct (negb _); [intros [= <-]; cbn; lia |] |]; apply H.
Qed.

Lemma colResponse_count (p : Params) cwd (r : ExecResult) (d : GrepDetails) :
  details (colResponse p cwd r) = Some d -> 0 <= resultCount d.
Proof.
  unfold colResponse. destruct (killed r); [discriminate |].
  destruct (negb (code r =? 0)); [discriminate |]. cbv zeta.
  assert (H : forall n out d0, details (colFinish p cwd n out) = Some d0 ->
                               0 <= resultCount d0).
  { intros n out d0 [= <-]. cbn [resultCount]. destruct (_ =? _)%nat; lia. }
  destruct (stdout r); [destruct (negb _ || _) |];
    first [apply H | intros [= <-]; cbn; lia].
Qed.

(** What [execute] answers: an error with a message that begins with
    [Error: ], or a success with details and a result count that is not
    negative. *)
Lemma execute_answer (host : Host) p cwd tr :
  let r := fst (execute host p cwd tr) in
  (isError r = true /\ startsWith "Error: " (text r) = true)
  \/ (isError r = false /\ exists d, details r = Some d /\ 0 <= resultCount d).
Proof.
  cbv zeta.
  assert (Hrg : forall q tr0,
            let r := rgResponse q cwd (fst (rgRun host q cwd tr0)) in
            (isError r = true /\ startsWith "Error: " (text r) = true)
            \/ (isError r = false /\ exists d, details r = Some d /\ 0 <= resultCount d)).
  { intros q tr0. cbv zeta. set (res := fst (rgRun host q cwd tr0)).
    pose proof (rgResponse_details q cwd res) as Hd.
    destruct (details (rgResponse q cwd res)) as [d|] eqn:E.
    - right. split; [tauto |]. exists d. split; [reflexivity |].
      exact (rgResponse_count q cwd res d E).
    - left. split; [exact Hd | now apply rgResponse_error_text]. }
  destruct (execute_cases host p cwd tr)
    as [(_ & _ & ->) | [(_ & _ & ->) | (_ & [[_ ->] | (_ & _ & ->)])]]; cbn [fst].
  - left. split; reflexivity.
  - destruct (execRipgrep_response host p cwd tr) as [-> _]. apply Hrg.
  - rewrite execColgrep_response. cbn [fst].
    set (res := host _).
    pose proof (colResponse_details p cwd res) as Hd.
    destruct (details (colResponse p cwd res)) as [d|] eqn:E.
    + right. split; [tauto |]. exists d. split; [reflexivity |].
      exact (colResponse_count p cwd res d E).
    + left. split; [exact Hd | now apply colResponse_error_text].
  - rewrite execRipgrepFallback_response. cbn [fst].
    destruct (execRipgrep_response host (fallbackParams p) cwd
                (snd (execColgrep host p cwd tr))) as [-> _].
    set (r0 := rgResponse _ _ _).
    destruct (markFallback_details r0) as (He & Ht & Hd). rewrite He, Ht.
    pose proof (Hrg (fallbackParams p) (snd (execColgrep host p cwd tr))) as H.
    cbv zeta in H. fold r0 in H.
    destruct H as [H | (H1 & d & H2 & H3)]; [now left |].
    right. split; [exact H1 |].
    unfold markFallback. rewrite H2. eexists. split; [reflexivity |]. exact H3.
Qed.

Lemma showZ_head (n : Z) :
  exists c r, showZ n = String c r /\ (isDigit c = true \/ c = "-"%char).
Proof.
  unfold showZ. destruct (Z.to_int n) as [u | u]; cbn.
  - destruct u; cbn; eexists _, _; (split; [reflexivity | left; reflexivity]).
  - eexists _, _. split; [reflexivity | now right].
Qed.

Lemma showZ_not_fallback (n : Z) (rest : string) : showZ n +:+ rest <> "fallback".
Proof.
  destruct (showZ_head n) as (c & r & -> & [H | ->]); cbn [String.append];
    intros [= -> _]; discriminate.
Qed.

Lemma In_fallback_meta (count : Z) (d : GrepDetails) :
  In "fallback" (resultMeta count (Some d)) <-> fallback d = Some true.
Proof.
  unfold resultMeta. rewrite !in_app_iff. split.
  - intros [H | [H | [H | [H | H]]]].
    + destruct H as [H | []]. now apply showZ_not_fallback in H.
    + destruct (searchPath d) as [sp|]; [| destruct H].
      destruct (nonEmpty sp); [| destruct H]. destruct H as [H | []]. discriminate.
    + destruct (engine d) as [[]|]; [| | destruct H]; destruct H as [H | []];
        discriminate.
    + destruct (fallback d) as [[]|]; [reflexivity | destruct H | destruct H].
    + destruct (filesSearched d) as [n|]; [| destruct H].
      destruct (0 <=? n); [| destruct H]. destruct H as [H | []].
      now apply showZ_not_fallback in H.
  - intros ->. right. right. right. left. now left.
Qed.

Lemma joinLines_head (h : string) (l : list string) :
  exists rest, joinLines (h :: l) = h +:+ rest.
Proof.
  destruct l as [|x l]; [exists ""; cbn; now rewrite append_nil_r |].
  now exists (String LF (joinLines (x :: l))).
Qed.

(** X22. What is rendered follows the answer of the router, whatever the
    theme and the glyphs.  An error answer always has a message beginning
    with [Error: ], and it is rendered as the cross and that message, never
    as the stand-in [Error].  A success has details; with result count 0 it
    is rendered as the warning [No matches found], and otherwise the
    rendered text begins with the header line, whose list of facts begins
    with the result count, names the engine of the answer, and holds the
    word [fallback] exactly when the details carry the fallback flag. *)
Theorem rendering_follows_answer
    (CROSS CHECK ELLIPSIS : string) (host : Host) (p : Params) cwd tr
    (expanded : bool) (theme : Theme) :
  let r := fst (execute host p cwd tr) in
  let shown := renderResult CROSS CHECK ELLIPSIS r expanded theme in
  (isError r = true ->
   startsWith "Error: " (text r) = true
   /\ shown = fg theme "error" (CROSS +:+ " " +:+ text r))
  /\ (isError r = false ->
      exists d, details r = Some d
        /\ (resultCount d = 0 -> shown = fg theme "warning" "No matches found")
        /\ (resultCount d <> 0 ->
            let meta := resultMeta (resultCount d) (Some d) in
            (exists rest,
               shown = fg theme "success" CHECK +:+ " "
                       +:+ fg theme "accent" (bold theme "Grep") +:+ " "
                       +:+ fg theme "muted" (joinWith (" " +:+ String MIDDLE_DOT " ") meta)
                       +:+ rest)
            /\ (exists more,
                  meta = (showZ (resultCount d) +:+ " result"
                          +:+ (if resultCount d =? 1 then "" else "s")) :: more)
            /\ (forall e, engine d = Some e -> In (engineName e) meta)
            /\ (In "fallback" meta <-> fallback d = Some true))).
Proof.
  cbv zeta. destruct (execute_answer host p cwd tr) as [[He Ht] | (He & d & Hd & Hc)].
  - split; [| intros H; congruence]. intros _. split; [exact Ht |].
    unfold renderResult. cbv zeta. rewrite He.
    destruct (text (fst (execute host p cwd tr))); [discriminate | reflexivity].
  - split; [intros H; congruence |]. intros _. exists d. split; [exact Hd |].
    unfold renderResult. cbv zeta. rewrite He, Hd. split.
    + intros ->. reflexivity.
    + intros Hne. apply Z.eqb_neq in Hne. rewrite Hne. split; [| split; [| split]].
      * destruct expanded; cbn [negb].
        -- destruct (joinLines_head
                       (fg theme "success" CHECK +:+ " "
                        +:+ fg theme "accent" (bold theme "Grep") +:+ " "
                        +:+ fg theme "muted"
                              (joinWith (" " +:+ String MIDDLE_DOT " ")
                                 (resultMeta (resultCount d) (Some d))))
                       [""; text (fst (execute host p cwd tr))]) as [rest Hrest].
           exists rest. rewrite Hrest. now rewrite !append_assoc.
        -- match goal with
           | |- exists rest, joinLines (?h :: ?l) = _ =>
               destruct (joinLines_head h l) as [rest Hrest];
               exists rest; rewrite Hrest
           end.
           now rewrite !append_assoc.
      * eexists. reflexivity.
      * intros e Hengine. unfold resultMeta. rewrite Hengine.
        rewrite !in_app_iff. right. right. left. now left.
      * apply In_fallback_meta.
Qed.
